(** * bitradius/typescript-ip: a shallow embedding of [src/index.ts]

    The class [IP] parses textual IPv4 and IPv6 addresses into a byte
    buffer, formats the buffer back into text, converts from and to a big
    integer, and splits a [host:port] string.

    JavaScript strings are modelled as lists of 8-bit characters, buffers
    as lists of octets (integers in [0, 256)), big integers as [Z], and a
    thrown [Error] as the [Throw] constructor of [result]. *)

From Stdlib Require Import ZArith Ascii String List Bool Lia Arith.
Import ListNotations.

Local Open Scope char_scope.
Local Open Scope Z_scope.

Definition str := list ascii.

(** String literals of the source. *)
Definition lit (s : string) : str := list_ascii_of_string s.

(** ** Results of code that may throw *)

Inductive result (A : Type) : Type :=
| Ok (a : A)
| Throw (message : str).
Arguments Ok {A} a.
Arguments Throw {A} message.

Definition bind {A B} (r : result A) (k : A -> result B) : result B :=
  match r with
  | Ok a => k a
  | Throw m => Throw m
  end.

Notation "x <- r ;; k" := (bind r (fun x => k))
  (at level 61, r at next level, right associativity).
Notation "' pat <- r ;; k" := (bind r (fun x => match x with pat => k end))
  (at level 61, pat pattern, r at next level, right associativity).

(** ** The part of the JavaScript runtime that the class uses *)

Module JS.

(** A JavaScript number as the code meets it: an integer or [NaN].
    Integers are exact here; the runtime rounds beyond 2^53. *)
Inductive number : Type :=
| NaN
| Num (z : Z).

Definition str_eqb (a b : str) : bool :=
  if list_eq_dec ascii_dec a b then true else false.

(** [s.split(sep)] for a one-character separator. *)
Fixpoint split (sep : ascii) (s : str) : list str :=
  match s with
  | [] => [[]]
  | c :: s' =>
      if Ascii.eqb c sep then [] :: split sep s'
      else match split sep s' with
           | w :: ws => (c :: w) :: ws
           | [] => [[c]]
           end
  end.

(** [a.join(sep)] on an array of strings. *)
Fixpoint join (sep : str) (l : list str) : str :=
  match l with
  | [] => []
  | x :: xs =>
      match xs with
      | [] => x
      | _ :: _ => x ++ sep ++ join sep xs
      end
  end.

(** [a.join(sep)] on an array that may hold [null]: a [null] element is
    written as the empty string. *)
Definition join_nullable (sep : str) (l : list (option str)) : str :=
  join sep (map (fun o => match o with Some x => x | None => [] end) l).

(** [s.padStart(n, c)] for a one-character filler. *)
Definition padStart (n : nat) (c : ascii) (s : str) : str :=
  repeat c (n - length s) ++ s.

(** [s.startsWith(p)]. *)
Fixpoint startsWith (p s : str) : bool :=
  match p, s with
  | [], _ => true
  | a :: p', b :: s' => Ascii.eqb a b && startsWith p' s'
  | _ :: _, [] => false
  end.

(** Position of the first occurrence of [p] in [s], counted from [i]. *)
Fixpoint find_from (p s : str) (i : Z) : Z :=
  if startsWith p s then i
  else match s with
       | [] => -1
       | _ :: s' => find_from p s' (i + 1)
       end.

(** [s.indexOf(p)]: [-1] when [p] does not occur. *)
Definition indexOf (p s : str) : Z := find_from p s 0.

(** [s.replace(p, r)] for a string pattern: the first occurrence only. *)
Fixpoint replace (p r s : str) : str :=
  if startsWith p s then r ++ skipn (length p) s
  else match s with
       | [] => []
       | c :: s' => c :: replace p r s'
       end.

(** [s.substring(a, b)] with [a <= b]. *)
Definition substring (a b : nat) (s : str) : str :=
  firstn (b - a) (skipn a s).

(** ** Digits *)

Definition is_digit (c : ascii) : bool :=
  let n := nat_of_ascii c in (48 <=? n)%nat && (n <=? 57)%nat.

Definition is_lower_hex (c : ascii) : bool :=
  let n := nat_of_ascii c in
  is_digit c || ((97 <=? n)%nat && (n <=? 102)%nat).

(** Value of a digit character in a radix up to 36, as [parseInt] and
    the hex decoder of [Buffer] read it (either case). *)
Definition digit_value (c : ascii) : option Z :=
  let n := Z.of_nat (nat_of_ascii c) in
  if (48 <=? n) && (n <=? 57) then Some (n - 48)
  else if (97 <=? n) && (n <=? 122) then Some (n - 87)
  else if (65 <=? n) && (n <=? 90) then Some (n - 55)
  else None.

Definition digit_in (radix : Z) (c : ascii) : option Z :=
  match digit_value c with
  | Some d => if d <? radix then Some d else None
  | None => None
  end.

(** The character of a digit below 36, lower case. *)
Definition digit_char (d : Z) : ascii :=
  ascii_of_nat (Z.to_nat (if d <? 10 then 48 + d else 87 + d)).

(** Digits of a non-negative integer, most significant first. *)
Fixpoint digits_loop (radix : Z) (fuel : nat) (n : Z) (acc : str) : str :=
  match fuel with
  | O => acc
  | S f =>
      if n <? radix then digit_char n :: acc
      else digits_loop radix f (n / radix) (digit_char (n mod radix) :: acc)
  end.

Definition digits_fuel (n : Z) : nat := S (Z.to_nat (Z.log2 n)).

(** [n.toString(radix)] for an integer, big or not. *)
Definition int_toString (radix : Z) (n : Z) : str :=
  if n <? 0 then "-" :: digits_loop radix (digits_fuel (- n)) (- n) []
  else digits_loop radix (digits_fuel n) n [].

Definition number_toString (radix : Z) (x : number) : str :=
  match x with
  | NaN => lit "NaN"
  | Num z => int_toString radix z
  end.

(** ** parseInt *)

Definition is_space (c : ascii) : bool :=
  let n := nat_of_ascii c in
  ((9 <=? n)%nat && (n <=? 13)%nat) || (n =? 32)%nat || (n =? 160)%nat.

Fixpoint skip_spaces (s : str) : str :=
  match s with
  | c :: s' => if is_space c then skip_spaces s' else s
  | [] => []
  end.

Fixpoint read_digits (radix : Z) (s : str) (acc : Z) (seen : bool) : number :=
  match s with
  | c :: s' =>
      match digit_in radix c with
      | Some d => read_digits radix s' (acc * radix + d) true
      | None => if seen then Num acc else NaN
      end
  | [] => if seen then Num acc else NaN
  end.

(** [parseInt(s, radix)] for radix 10 or 16: leading white space, an
    optional sign, for radix 16 an optional [0x], then the longest run
    of digits; [NaN] when there is no digit. *)
Definition parseInt (s : str) (radix : Z) : number :=
  let s := skip_spaces s in
  let '(neg, s) :=
    match s with
    | "-" :: s' => (true, s')
    | "+" :: s' => (false, s')
    | _ => (false, s)
    end in
  let s :=
    if radix =? 16 then
      match s with
      | "0" :: "x" :: s' => s'
      | "0" :: "X" :: s' => s'
      | _ => s
      end
    else s in
  match read_digits radix s 0 false with
  | NaN => NaN
  | Num z => Num (if neg then - z else z)
  end.

(** ** Buffer *)

Definition Buffer := list Z.

(** [Buffer.alloc(n)]. *)
Definition alloc (n : nat) : Buffer := repeat 0 n.

(** [Buffer.from(s, 'hex')]: one octet for each pair of hex digits, up to
    the first pair that is not two hex digits; a last single character is
    dropped. *)
Fixpoint from_hex (s : str) : Buffer :=
  match s with
  | a :: b :: s' =>
      match digit_in 16 a, digit_in 16 b with
      | Some x, Some y => (16 * x + y) :: from_hex s'
      | _, _ => []
      end
  | _ => []
  end.

(** [Buffer.from(array)]: every number is taken modulo 256, [NaN] is 0. *)
Definition from_array (l : list number) : Buffer :=
  map (fun x => match x with NaN => 0 | Num z => z mod 256 end) l.

(** [b.toString('hex')]. *)
Definition to_hex (b : Buffer) : str :=
  flat_map (fun x => [digit_char (x / 16); digit_char (x mod 16)]) b.

(** [b.slice(a, e)] and [b.slice(a)]. *)
Definition slice (a e : nat) (b : Buffer) : Buffer := firstn (e - a) (skipn a b).
Definition slice_from (a : nat) (b : Buffer) : Buffer := skipn a b.

(** [a.compare(b)]: -1, 0 or 1, octet by octet, a proper prefix first. *)
Fixpoint compare (a b : Buffer) : Z :=
  match a, b with
  | [], [] => 0
  | [], _ :: _ => -1
  | _ :: _, [] => 1
  | x :: a', y :: b' =>
      if x <? y then -1 else if y <? x then 1 else compare a' b'
  end.

(** [src.copy(target, targetStart, sourceStart, sourceEnd)] with
    [targetStart] inside the target: the octets that fit are written
    over the target, whose length does not change. The result is the
    target after the call. *)
Definition copy (src target : Buffer) (targetStart sourceStart sourceEnd : nat)
  : Buffer :=
  let chunk :=
    firstn (length target - targetStart)
      (firstn (sourceEnd - sourceStart) (skipn sourceStart src)) in
  firstn targetStart target ++ chunk
    ++ skipn (targetStart + length chunk) target.

End JS.

(** [BigInteger(s, 16)] of the big-integer package, on a string of hex
    digits; the package throws on any other character. *)
Fixpoint BigInteger_read16 (s : str) (acc : Z) : result Z :=
  match s with
  | [] => Ok acc
  | c :: s' =>
      match JS.digit_in 16 c with
      | Some d => BigInteger_read16 s' (16 * acc + d)
      | None => Throw (c :: lit " is not a valid character")
      end
  end.

Definition BigInteger16 (s : str) : result Z := BigInteger_read16 s 0.

(** ** The class [IP] *)

(** [mappedV4Prefix = Buffer.from('00000000000000000000ffff', 'hex')]. *)
Definition mappedV4Prefix : JS.Buffer :=
  JS.from_hex (lit "00000000000000000000ffff").

Record IP : Type := mkIP {
  m_bytes : JS.Buffer;
  m_isV4 : bool;
  m_zone : option str
}.

(** [new IP()]. *)
Definition new_IP : IP :=
  {| m_bytes := JS.alloc 16; m_isV4 := false; m_zone := None |}.

(** The regular expressions of the class, each as the function it
    computes. *)
Module Re.

(** [[0-9]{1,3}] and then [k]. *)
Fixpoint digits_then (n : nat) (s : str) (k : str -> bool) : bool :=
  match n, s with
  | S n', c :: s' => JS.is_digit c && (digits_then n' s' k || k s')
  | _, _ => false
  end.

(** [\.] and then [k]. *)
Definition dot_then (s : str) (k : str -> bool) : bool :=
  match s with
  | c :: s' => Ascii.eqb c "." && k s'
  | [] => false
  end.

(** [[0-9]{1,3}\.[0-9]{1,3}\.[0-9]{1,3}\.[0-9]{1,3}] at the head of [s]. *)
Definition v4_shape_at (s : str) : bool :=
  digits_then 3 s (fun s1 => dot_then s1 (fun s2 =>
  digits_then 3 s2 (fun s3 => dot_then s3 (fun s4 =>
  digits_then 3 s4 (fun s5 => dot_then s5 (fun s6 =>
  digits_then 3 s6 (fun _ => true))))))).

(** [re.test(s)] for an expression without anchors: a match at some
    position. *)
Fixpoint test (at_head : str -> bool) (s : str) : bool :=
  at_head s ||
  match s with
  | [] => false
  | _ :: s' => test at_head s'
  end.

(** The class [[0-9a-f:%]]. *)
Definition v6_class (c : ascii) : bool :=
  JS.is_lower_hex c || Ascii.eqb c ":" || Ascii.eqb c "%".

(** [[0-9a-f:%]+] at the head of [s]. *)
Definition v6_shape_at (s : str) : bool :=
  match s with
  | c :: _ => v6_class c
  | [] => false
  end.

(** [s.match(/[0-9a-f]{4}/g)]: the matches from left to right, none
    overlapping; the empty list stands for [null]. *)
Fixpoint match_hex4 (s : str) : list str :=
  match s with
  | [] => []
  | a :: t =>
      match t with
      | b :: c :: d :: s' =>
          if JS.is_lower_hex a && JS.is_lower_hex b
             && JS.is_lower_hex c && JS.is_lower_hex d
          then [a; b; c; d] :: match_hex4 s'
          else match_hex4 t
      | _ => []
      end
  end.

(** [s.replace(/0000/g, '0')]. *)
Fixpoint replace_0000 (s : str) : str :=
  match s with
  | [] => []
  | a :: t =>
      match t with
      | b :: c :: d :: s' =>
          if Ascii.eqb a "0" && Ascii.eqb b "0"
             && Ascii.eqb c "0" && Ascii.eqb d "0"
          then "0"%char :: replace_0000 s'
          else a :: replace_0000 t
      | _ => a :: replace_0000 t
      end
  end.

End Re.

(** [get decimal]. *)
Definition decimal (ip : IP) : result Z :=
  if m_isV4 ip then BigInteger16 (JS.to_hex (JS.slice_from 12 (m_bytes ip)))
  else BigInteger16 (JS.to_hex (m_bytes ip)).

Definition cannot_split : str := lit "Cannot split IP address and port from host".
Definition not_valid : str := lit "Not a valid IP address".
Definition cannot_encode : str := lit "Could not encode IP address to string".

(** [host.indexOf(c) !== -1]. *)
Definition has (c : ascii) (host : str) : bool :=
  negb (JS.indexOf [c] host =? -1).

(** [host.indexOf(']') + 1]. *)
Definition after_bracket (host : str) : nat :=
  Z.to_nat (JS.indexOf ["]"] host + 1).

(** [static splitHostPort (host)]. *)
Definition splitHostPort (host : str) : result (str * JS.number) :=
  if has "." host then
    let parts := JS.split ":" host in
    if (length parts =? 2)%nat
    then Ok (nth 0 parts [], JS.parseInt (nth 1 parts []) 10)
    else Ok (nth 0 parts [], JS.Num 0)
  else
    let fallthrough := Throw cannot_split in
    if has "[" host && has "]" host then
      let _host := JS.substring 0 (after_bracket host) host in
      let right := JS.substring (after_bracket host) (length host) host in
      if (length right =? 0)%nat then Ok (_host, JS.Num 0)
      else
        let rightParts := JS.split ":" right in
        if (length rightParts =? 2)%nat then
          let port := nth 1 rightParts [] in
          Ok (_host, JS.parseInt (match port with [] => ["0"] | _ => port end) 10)
        else fallthrough
    else fallthrough.

(** [private static isIPv4 (ip)]. *)
Definition isIPv4 (ip : str) : bool := Re.test Re.v4_shape_at ip.

(** [private static isIPv6 (ip)]. *)
Definition isIPv6 (ip : str) : bool := Re.test Re.v6_shape_at ip.

(** [private static v4StringToBuffer (ip)]. *)
Definition v4StringToBuffer (ip : str) : JS.Buffer :=
  let bytes := map (fun octet => JS.parseInt octet 10) (JS.split "." ip) in
  let ipBuffer := JS.from_array bytes in
  let buffer := JS.alloc 16 in
  let buffer := JS.copy mappedV4Prefix buffer 0 0 (length mappedV4Prefix) in
  JS.copy ipBuffer buffer 12 0 4.

(** [private static expandV6 (address)]. *)
Definition expandV6 (address : str) : str :=
  let octets := JS.split ":" address in
  let octets := if JS.startsWith (lit "::") address then tl octets else octets in
  let tmp :=
    flat_map (fun octet =>
      if negb (length octet =? 0)%nat then [JS.padStart 4 "0" octet]
      else repeat (lit "0000") (Z.to_nat (8 - Z.of_nat (length octets) + 1)))
      octets in
  JS.join [":"%char] tmp.

(** [private static v6StringToBuffer (ip)]. *)
Definition v6StringToBuffer (ip : str) : result (JS.Buffer * option str) :=
  '(ip, zone) <-
    (if has "%" ip then
       let parts := JS.split "%" ip in
       if (2 <? length parts)%nat then Throw not_valid
       else Ok (nth 0 parts [], nth_error parts 1)
     else Ok (ip, None)) ;;
  let ip := expandV6 ip in
  let ip := JS.join [] (JS.split ":" ip) in
  Ok (JS.from_hex ip, zone).

(** The first statement of [parse]: an address between [[] and []] loses
    both. *)
Definition strip_brackets (address : str) : str :=
  match address with
  | c :: _ =>
      if Ascii.eqb c "[" && Ascii.eqb (last address " ") "]"
      then JS.substring 1 (length address - 1) address
      else address
  | [] => address
  end.

(** [static parse (address)]. *)
Definition parse (address : str) : result IP :=
  let ip := new_IP in
  let address := strip_brackets address in
  if JS.str_eqb address (lit "::") then Ok ip
  else if isIPv4 address then
    Ok {| m_bytes := v4StringToBuffer address; m_isV4 := true; m_zone := m_zone ip |}
  else if isIPv6 address then
    '(bytes, zone) <- v6StringToBuffer address ;;
    if match bytes with b0 :: _ => b0 =? 0 | [] => false end
       && (JS.compare (JS.slice 0 12 bytes) mappedV4Prefix =? 0)
    then Ok {| m_bytes := bytes; m_isV4 := true; m_zone := zone |}
    else Ok {| m_bytes := bytes; m_isV4 := m_isV4 ip; m_zone := zone |}
  else Throw not_valid.

(** [static fromDecimal (decimal, forceV6 = false)]; a [number] argument
    is first turned into a big integer. *)
Definition fromDecimal (decimal : Z) (forceV6 : bool) : result IP :=
  let hex := JS.padStart 32 "0" (JS.int_toString 16 decimal) in
  let ip := new_IP in
  let bytes := JS.from_hex hex in
  let empty := JS.alloc 12 in
  if negb forceV6 && (JS.compare (JS.slice 0 12 bytes) empty =? 0) then
    Ok {| m_bytes := JS.copy mappedV4Prefix bytes 0 0 (length mappedV4Prefix);
          m_isV4 := true; m_zone := m_zone ip |}
  else Ok {| m_bytes := bytes; m_isV4 := m_isV4 ip; m_zone := m_zone ip |}.

(** The loop of [compressV6]: [n] is [zeros.length]. *)
Fixpoint compress_loop (n : nat) (address : str) : str :=
  match n with
  | S ((S _) as n') =>
      let repl := JS.join [":"%char] (repeat (lit "0000") n) in
      if negb (JS.indexOf repl address =? -1) then JS.replace repl [] address
      else compress_loop n' address
  | _ => address
  end.

(** [private static compressV6 (address)]. *)
Definition compressV6 (address : str) : str :=
  let address := compress_loop 8 address in
  let address :=
    match address with
    | c :: _ => if Ascii.eqb c ":" then ":"%char :: address else address
    | [] => lit "::"
    end in
  JS.join_nullable [":"%char]
    (map (fun octet =>
            match octet with
            | [] => None
            | _ => Some (JS.number_toString 16 (JS.parseInt octet 16))
            end)
       (JS.split ":" address)).

(** [private static v6ToString (bytes, expanded = false)]. *)
Definition v6ToString (bytes : JS.Buffer) (expanded : bool) : result str :=
  let hex := JS.to_hex bytes in
  match Re.match_hex4 hex with
  | [] => Throw cannot_encode
  | octets =>
      if negb expanded then Ok (compressV6 (JS.join [":"%char] octets))
      else
        Ok (Re.replace_0000
              (JS.join [":"%char]
                 (map (fun octet => JS.number_toString 16 (JS.parseInt octet 16))
                    octets)))
  end.

(** [private static v4ToString (bytes, mapped = false)]. The typed-array
    [map] stores each decimal string back as the octet it denotes, and
    [join] writes the octets in decimal. *)
Definition v4ToString (bytes : JS.Buffer) (mapped : bool) : result str :=
  if negb mapped then
    Ok (JS.join ["."%char] (map (JS.int_toString 10) (JS.slice_from 12 bytes)))
  else v6ToString bytes mapped.

(** The argument of [toString]: absent, ['mapped'] or ['expanded']. *)
Inductive encoding : Type := Default | Mapped | Expanded.

Definition is_mapped (e : encoding) : bool :=
  match e with Mapped => true | _ => false end.
Definition is_expanded (e : encoding) : bool :=
  match e with Expanded => true | _ => false end.

(** [public toString (encoding?)]. *)
Definition toString (ip : IP) (e : encoding) : result str :=
  if m_isV4 ip then v4ToString (m_bytes ip) (is_mapped e)
  else
    match m_zone ip with
    | None | Some [] => v6ToString (m_bytes ip) (is_expanded e)
    | Some zone =>
        s <- v6ToString (m_bytes ip) (is_expanded e) ;;
        Ok (s ++ "%"%char :: zone)
    end.

(** ** What a text and a buffer denote *)

Definition octet (x : Z) : Prop := 0 <= x < 256.

Definition is_hex (c : ascii) : bool :=
  match JS.digit_in 16 c with Some _ => true | None => false end.

Definition nibble (c : ascii) : Z :=
  match JS.digit_in 16 c with Some d => d | None => 0 end.

(** The number that a string of hex digits denotes, continuing [acc]. *)
Fixpoint hex_value (s : str) (acc : Z) : Z :=
  match s with
  | [] => acc
  | c :: s' => hex_value s' (16 * acc + nibble c)
  end.

(** The number that a buffer denotes in network byte order, continuing
    [acc]. *)
Fixpoint be_value (b : JS.Buffer) (acc : Z) : Z :=
  match b with
  | [] => acc
  | x :: b' => be_value b' (256 * acc + x)
  end.

(** ** Hextets and the compressed form *)

Definition hextet (v : Z) : Prop := 0 <= v < 65536.

(** The eight 16-bit groups of a 16-octet buffer. *)
Fixpoint hextets (b : JS.Buffer) : list Z :=
  match b with
  | hi :: lo :: b' => (256 * hi + lo) :: hextets b'
  | _ => []
  end.

Definition hextet_bytes (v : Z) : JS.Buffer := [v / 256; v mod 256].

(** A hextet in lower-case hex without leading zeros
    ([hextet_text_shape], [hextet_text_canonical]). *)
Definition hextet_text (v : Z) : str := JS.int_toString 16 v.

(** Hextets in hex, with colons between them. *)
Definition colons (gs : list Z) : str := JS.join [":"%char] (map hextet_text gs).

(** [k] zero hextets in a row, from index [i] on. *)
Definition zero_run (gs : list Z) (i k : nat) : Prop :=
  firstn k (skipn i gs) = repeat 0 k.

(** The run that the compressed form leaves out: [k >= 2] zero hextets
    between [pre] and [post], no run of [gs] is longer, and no run of the
    same length starts further left. *)
Record elision (gs pre : list Z) (k : nat) (post : list Z) : Prop := {
  elision_split : gs = pre ++ repeat 0 k ++ post;
  elision_two : (2 <= k)%nat;
  elision_longest : forall i, ~ zero_run gs i (S k);
  elision_leftmost : forall i, (i < length pre)%nat -> ~ zero_run gs i k
}.

(** What [compressV6] leaves in the place of the run: one colon when
    hextets come before the run and none after it, two otherwise. *)
Definition marker (pre post : list Z) : str :=
  match pre, post with
  | _ :: _, [] => [":"%char]
  | _, _ => lit "::"
  end.

(** One group of an IPv6 text: one to four hex digits. *)
Definition hex_group (g : str) : Prop :=
  (1 <= length g <= 4)%nat /\ forallb is_hex g = true.

(** An IPv6 text: eight groups, or fewer groups with one [::] that is
    followed by a group. *)
Inductive v6_text : str -> Prop :=
| v6_full (gs : list str) :
    length gs = 8%nat -> Forall hex_group gs ->
    v6_text (JS.join [":"%char] gs)
| v6_elided (pre post : list str) :
    Forall hex_group pre -> Forall hex_group post -> post <> [] ->
    (length pre + length post <= 7)%nat ->
    v6_text (JS.join [":"%char] pre ++ lit "::" ++ JS.join [":"%char] post).

(** The text of a zero group in [compressV6], and its search pattern for
    [k] groups. *)
Definition Z4 : str := lit "0000".
Definition zeros_pattern (k : nat) : str := JS.join [":"%char] (repeat Z4 k).

(** No four zero digits in a row, at any place of a text. *)
Fixpoint no_0000 (s : str) : Prop :=
  match s with
  | [] => True
  | _ :: t => firstn 4 s <> Z4 /\ no_0000 t
  end.

(** What [toString] appends for the zone of an IPv6 address. *)
Definition zone_suffix (ip : IP) : str :=
  match m_zone ip with
  | None | Some [] => []
  | Some zone => "%"%char :: zone
  end.

(** ** Vocabulary of the proofs *)

Definition len4 (g : str) : Prop := length g = 4%nat.

(** [parseInt(octet, 16).toString(16)]. *)
Definition render (g : str) : str :=
  JS.number_toString 16 (JS.parseInt g 16).

(** A group as [v6ToString] hands it to [compressV6]. *)
Definition group (g : str) : Prop := len4 g /\ ~ In ":"%char g.

Definition no_run (G : list str) : Prop :=
  forall k i, firstn (S (S k)) (skipn i G) <> repeat Z4 (S (S k)).

Definition nullable (octet : str) : option str :=
  match octet with
  | [] => None
  | _ => Some (render octet)
  end.

(** The four hex digits of two octets. *)
Definition pair_text (hi lo : Z) : str :=
  [JS.digit_char (hi / 16); JS.digit_char (hi mod 16);
   JS.digit_char (lo / 16); JS.digit_char (lo mod 16)].

(** [g] is the group that [v6ToString] makes for the hextet [v]. *)
Definition text_of (g : str) (v : Z) : Prop :=
  group g /\ (g = Z4 <-> v = 0) /\ render g = hextet_text v.

(** A group of the expanded text: at most four characters, no colon,
    and not four zeros. *)
Definition short_group (t : str) : Prop :=
  (1 <= length t <= 4)%nat /\ ~ In ":"%char t /\ t <> Z4.

Definition pad4 (g : str) : str := JS.padStart 4 "0" g.

(** A group as [expandV6] leaves it: four hex digits. *)
Definition padded (g : str) : Prop :=
  length g = 4%nat /\ forallb is_hex g = true.

Definition group_value (g : str) : Z := hex_value g 0.

Definition expand_one (n : nat) (octet : str) : list str :=
  if negb (length octet =? 0)%nat then [JS.padStart 4 "0" octet]
  else repeat (lit "0000") (Z.to_nat (8 - Z.of_nat n + 1)).

Definition v6_char (c : ascii) : Prop := is_hex c = true \/ c = ":"%char.

(** ** Decimal texts *)

(** A non-negative integer in decimal, as [toString()] writes it. *)
Definition dec (n : Z) : str := JS.int_toString 10 n.

(** Four numbers with dots between them. *)
Definition dotted (a b c d : Z) : str :=
  JS.join ["."%char] (map dec [a; b; c; d]).

(** The buffer of [v4StringToBuffer] for four octets. *)
Definition v4_buffer (a b c d : Z) : JS.Buffer := mappedV4Prefix ++ [a; b; c; d].

(** A text does not go on with a digit. *)
Definition ends_number (rest : str) : Prop :=
  match rest with
  | [] => True
  | c :: _ => JS.is_digit c = false
  end.

(** The number that hextets denote, most significant first, continuing
    [acc]. *)
Definition groups_number (gs : list Z) (acc : Z) : Z :=
  fold_left (fun acc g => 65536 * acc + g) gs acc.

(** A host between brackets. *)
Definition bracketed (x : str) : str := "["%char :: x ++ ["]"%char].

(** * Properties *)

(** ** Strings *)

Section Strings.

Lemma str_eqb_eq (a b : str) : JS.str_eqb a b = true <-> a = b.
Proof.
  unfold JS.str_eqb. destruct (list_eq_dec ascii_dec a b); split; congruence.
Qed.

Lemma split_app (sep : ascii) (g rest : str) :
  ~ In sep g ->
  JS.split sep (g ++ sep :: rest) = g :: JS.split sep rest.
Proof.
  induction g as [|c g IH]; intros Hg; simpl.
  - rewrite Ascii.eqb_refl. reflexivity.
  - destruct (Ascii.eqb c sep) eqn:E.
    + apply Ascii.eqb_eq in E. subst. exfalso. apply Hg. now left.
    + rewrite IH; [reflexivity|]. intros H. apply Hg. now right.
Qed.

Lemma split_single (sep : ascii) (g : str) :
  ~ In sep g -> JS.split sep g = [g].
Proof.
  induction g as [|c g IH]; intros Hg; simpl; [reflexivity|].
  destruct (Ascii.eqb c sep) eqn:E.
  - apply Ascii.eqb_eq in E. subst. exfalso. apply Hg. now left.
  - rewrite IH; [reflexivity|]. intros H. apply Hg. now right.
Qed.

(** Splitting what was joined gives the parts back. *)
Lemma split_join (sep : ascii) (l : list str) :
  l <> [] -> Forall (fun g => ~ In sep g) l ->
  JS.split sep (JS.join [sep] l) = l.
Proof.
  induction l as [|g l IH]; intros Hne Hl; [congruence|].
  inversion Hl as [|? ? Hg Hl']; subst.
  destruct l as [|g' l].
  - simpl. now apply split_single.
  - change (JS.join [sep] (g :: g' :: l))
      with (g ++ sep :: JS.join [sep] (g' :: l)).
    rewrite split_app by assumption. f_equal. apply IH; [discriminate|assumption].
Qed.

Lemma join_cons (sep : str) (g : str) (l : list str) :
  l <> [] -> JS.join sep (g :: l) = g ++ sep ++ JS.join sep l.
Proof. destruct l; [congruence|reflexivity]. Qed.

Lemma join_empty_sep (l : list str) : JS.join [] l = concat l.
Proof.
  induction l as [|g l IH]; [reflexivity|].
  destruct l as [|g' l]; [simpl; now rewrite app_nil_r|].
  rewrite join_cons by discriminate. simpl in *. now rewrite IH.
Qed.

Lemma has_In (c : ascii) (s : str) : has c s = true <-> In c s.
Proof.
  unfold has, JS.indexOf.
  assert (G : forall s i, 0 <= i -> JS.find_from [c] s i <> -1 <-> In c s).
  { clear s. induction s as [|d s IH]; intros i Hi; simpl.
    - split; [congruence|tauto].
    - destruct (Ascii.eqb c d) eqn:E; simpl.
      + apply Ascii.eqb_eq in E. subst. split; [now left|lia].
      + rewrite IH by lia. split; [now right|].
        intros [H|H]; [|assumption]. subst. now rewrite Ascii.eqb_refl in E. }
  specialize (G s 0 ltac:(lia)).
  destruct (Z.eqb_spec (JS.find_from [c] s 0) (-1)) as [E|E]; simpl.
  - split; [discriminate|]. intros H. apply G in H. congruence.
  - split; [|reflexivity]. intros _. now apply G.
Qed.

Lemma has_false (c : ascii) (s : str) : has c s = false <-> ~ In c s.
Proof.
  rewrite <- has_In. destruct (has c s); split; congruence.
Qed.

End Strings.

(** ** Buffers *)

Section Buffers.

Lemma compare_eq (a b : JS.Buffer) : JS.compare a b = 0 <-> a = b.
Proof.
  revert b. induction a as [|x a IH]; intros [|y b]; simpl;
    try (split; intros; discriminate); [split; reflexivity|].
  destruct (Z.ltb_spec x y); [split; [lia|intros E; inversion E; lia]|].
  destruct (Z.ltb_spec y x); [split; [lia|intros E; inversion E; lia]|].
  rewrite IH. assert (x = y) by lia. subst. split; congruence.
Qed.

Lemma compare_eqb (a b : JS.Buffer) :
  (JS.compare a b =? 0) = true <-> a = b.
Proof. rewrite Z.eqb_eq. apply compare_eq. Qed.

Lemma slice_0 (n : nat) (b : JS.Buffer) : JS.slice 0 n b = firstn n b.
Proof. unfold JS.slice. now rewrite Nat.sub_0_r. Qed.

(** Copying into a buffer keeps its length. *)
Lemma copy_length (src target : JS.Buffer) (ts ss se : nat) :
  (ts <= length target)%nat ->
  length (JS.copy src target ts ss se) = length target.
Proof.
  intros H. unfold JS.copy.
  set (chunk := firstn (length target - ts) _).
  assert (length chunk <= length target - ts)%nat
    by (unfold chunk; rewrite length_firstn; lia).
  rewrite !length_app, length_firstn, length_skipn. lia.
Qed.

(** The test of [parse] for the mapped prefix. *)
Lemma mapped_test (bytes : JS.Buffer) :
  (match bytes with b0 :: _ => b0 =? 0 | [] => false end
   && (JS.compare (JS.slice 0 12 bytes) mappedV4Prefix =? 0)) = true
  <-> firstn 12 bytes = mappedV4Prefix.
Proof.
  rewrite andb_true_iff, compare_eqb, slice_0. split; [tauto|].
  intros H. split; [|assumption].
  destruct bytes as [|b0 bytes]; [discriminate|].
  injection H as H _. subst. reflexivity.
Qed.

End Buffers.

(** ** Which texts [parse] refuses *)

Section ParseErrors.

Lemma isIPv6_false (a : str) :
  isIPv6 a = false <-> Forall (fun c => Re.v6_class c = false) a.
Proof.
  unfold isIPv6. induction a as [|c a IH]; simpl.
  - split; [constructor|reflexivity].
  - rewrite orb_false_iff, IH. split.
    + intros [? ?]. now constructor.
    + intros H. inversion H. tauto.
Qed.

Lemma v6StringToBuffer_ok (a : str) :
  ~ (2 < length (JS.split "%" a))%nat ->
  exists zone,
    v6StringToBuffer a =
      Ok (JS.from_hex
            (JS.join []
               (JS.split ":"
                  (expandV6 (if has "%" a then nth 0 (JS.split "%" a) [] else a)))),
          zone).
Proof.
  intros H. unfold v6StringToBuffer.
  destruct (has "%" a).
  - destruct (Nat.ltb_spec 2 (length (JS.split "%" a))); [lia|].
    simpl. eexists. reflexivity.
  - simpl. eexists. reflexivity.
Qed.

Lemma v6StringToBuffer_throw (a : str) (m : str) :
  v6StringToBuffer a = Throw m -> (2 < length (JS.split "%" a))%nat.
Proof.
  intros H. destruct (Nat.ltb_spec 2 (length (JS.split "%" a))) as [L|L];
    [assumption|].
  destruct (v6StringToBuffer_ok a) as [z E]; [lia|]. congruence.
Qed.

Lemma parse_throw (s m : str) :
  parse s = Throw m ->
  let a := strip_brackets s in
  a <> lit "::" /\ isIPv4 a = false /\
  ((2 < length (JS.split "%" a))%nat \/ isIPv6 a = false).
Proof.
  intros H. cbv zeta. unfold parse in H.
  set (a := strip_brackets s) in *.
  destruct (JS.str_eqb a (lit "::")) eqn:E1; [discriminate|].
  destruct (isIPv4 a) eqn:E2; [discriminate|].
  split; [|split; [reflexivity|]].
  - intros E. apply str_eqb_eq in E. congruence.
  - destruct (isIPv6 a) eqn:E3; [|now right]. left.
    destruct (v6StringToBuffer a) as [[bytes zone]|m'] eqn:E4.
    + simpl in H. destruct (_ && _) in H; discriminate.
    + now apply v6StringToBuffer_throw in E4.
Qed.

Lemma parse_v6_path (s : str) :
  let a := strip_brackets s in
  a <> lit "::" -> isIPv4 a = false -> isIPv6 a = true ->
  ~ (2 < length (JS.split "%" a))%nat ->
  exists bytes zone v4,
    v6StringToBuffer a = Ok (bytes, zone) /\
    parse s = Ok {| m_bytes := bytes; m_isV4 := v4; m_zone := zone |} /\
    (v4 = true <-> firstn 12 bytes = mappedV4Prefix).
Proof.
  cbv zeta. set (a := strip_brackets s).
  intros H1 H2 H3 H4. unfold parse. fold a.
  destruct (JS.str_eqb a (lit "::")) eqn:E1;
    [apply str_eqb_eq in E1; congruence|].
  rewrite H2, H3.
  destruct (v6StringToBuffer_ok a H4) as [zone E]. rewrite E.
  match type of E with _ = Ok (?b, _) => set (bytes := b) in * end.
  cbn [bind]. pose proof (mapped_test bytes) as T.
  destruct (_ && _).
  - exists bytes, zone, true. repeat split; try reflexivity. apply T.
  - exists bytes, zone, false. repeat split; try reflexivity; try discriminate.
    intros Q. apply T in Q. discriminate.
Qed.

End ParseErrors.

(** ** The code on single texts *)

(** C6. [parse("0:0:0:0:0:ffff:c0a8:201")] returns an address with
    [isV4 == true], and [toString()] of it is ["192.168.2.1"]. *)
Theorem parse_mapped_literal_is_v4 :
  exists ip,
    parse (lit "0:0:0:0:0:ffff:c0a8:201") = Ok ip /\
    m_isV4 ip = true /\
    toString ip Default = Ok (lit "192.168.2.1").
Proof. eexists. repeat split; vm_compute; reflexivity. Qed.

(** C8. On ["192.168.2."] [parse] does not throw: the text is not of IPv4
    shape, holds a digit and so takes the IPv6 path, where the hex decoder
    reads ["19"] and stops at ["2."]; the address returned has one octet. *)
Theorem parse_trailing_dot_returns :
  isIPv4 (lit "192.168.2.") = false /\
  parse (lit "192.168.2.") =
    Ok {| m_bytes := [25]; m_isV4 := false; m_zone := None |}.
Proof. split; vm_compute; reflexivity. Qed.

(** The text ["2607:f8b0:4009:805::"] of the test table: each of the two
    empty parts after the last colon inserts three zero groups, so the
    buffer has 20 octets, and [toString()] ends in one colon. *)
Lemma parse_trailing_elision :
  exists ip,
    parse (lit "2607:f8b0:4009:805::") = Ok ip /\
    length (m_bytes ip) = 20%nat /\
    toString ip Default = Ok (lit "2607:f8b0:4009:805:") /\
    toString ip Expanded = Ok (lit "2607:f8b0:4009:805:0:0:0:0:0:0").
Proof. eexists. repeat split; vm_compute; reflexivity. Qed.

(** ** C3: [fromDecimal] has no range check *)

(** C3, as stated, fails at 2^128: an address is returned. *)
Lemma fromDecimal_2_128_returns :
  fromDecimal (2 ^ 128) false =
    Ok {| m_bytes := [16; 0; 0; 0; 0; 0; 0; 0; 0; 0; 0; 0; 0; 0; 0; 0];
          m_isV4 := false; m_zone := None |}
  /\ ~ (exists m, fromDecimal (2 ^ 128) false = Throw m).
Proof.
  assert (E : fromDecimal (2 ^ 128) false =
    Ok {| m_bytes := [16; 0; 0; 0; 0; 0; 0; 0; 0; 0; 0; 0; 0; 0; 0; 0];
          m_isV4 := false; m_zone := None |}) by (vm_compute; reflexivity).
  split; [exact E|]. intros [m H]. rewrite E in H. discriminate.
Qed.

(** C3, amended. [fromDecimal] returns an address for every value and
    either flag, also for a value of 2^128 or more. *)
Theorem fromDecimal_never_throws (n : Z) (forceV6 : bool) :
  exists ip, fromDecimal n forceV6 = Ok ip.
Proof.
  unfold fromDecimal. destruct (_ && _); eexists; reflexivity.
Qed.

(** ** C10: the texts that [parse] refuses *)

(** C10. [parse] throws only when the text has more than one [%], or is
    not ["::"], fails the IPv4 shape test and holds no character of
    [[0-9a-f:%]]. Every other text gives an address; when it is not
    ["::"] and not of IPv4 shape the address is the one of the IPv6 path,
    as for ["hello"]. *)
Theorem parse_throws_only_when (s : str) :
  let a := strip_brackets s in
  let many_zones := (2 < length (JS.split "%" a))%nat in
  let no_shape :=
    a <> lit "::" /\ isIPv4 a = false /\
    Forall (fun c => Re.v6_class c = false) a in
  (forall m, parse s = Throw m -> many_zones \/ no_shape) /\
  (~ many_zones -> ~ no_shape -> exists ip, parse s = Ok ip) /\
  (~ many_zones -> ~ no_shape -> a <> lit "::" -> isIPv4 a = false ->
   exists bytes zone v4,
     v6StringToBuffer a = Ok (bytes, zone) /\
     parse s = Ok {| m_bytes := bytes; m_isV4 := v4; m_zone := zone |}) /\
  parse (lit "hello") = Ok {| m_bytes := []; m_isV4 := false; m_zone := None |}.
Proof.
  cbv zeta. set (a := strip_brackets s).
  assert (V6 : ~ (a <> lit "::" /\ isIPv4 a = false /\
                  Forall (fun c => Re.v6_class c = false) a) ->
               a <> lit "::" -> isIPv4 a = false -> isIPv6 a = true).
  { intros N H1 H2. destruct (isIPv6 a) eqn:E; [reflexivity|].
    exfalso. apply N. repeat split; try assumption. now apply isIPv6_false. }
  split; [|split; [|split]].
  - intros m H. apply parse_throw in H. fold a in H.
    destruct H as (H1 & H2 & [H3|H3]); [now left|right].
    repeat split; try assumption. now apply isIPv6_false.
  - intros NA NB. destruct (parse s) as [ip|m] eqn:E; [now exists ip|].
    exfalso. apply parse_throw in E. fold a in E.
    destruct E as (H1 & H2 & [H3|H3]); [tauto|].
    rewrite V6 in H3 by assumption. discriminate.
  - intros NA NB H1 H2.
    destruct (parse_v6_path s) as (bytes & zone & v4 & E1 & E2 & _);
      fold a; auto.
    now exists bytes, zone, v4.
  - vm_compute. reflexivity.
Qed.

Lemma parse_throws_only_when_hello :
  exists ip, parse (lit "hello") = Ok ip.
Proof.
  apply (proj1 (proj2 (parse_throws_only_when (lit "hello")))).
  - vm_compute. lia.
  - intros (_ & _ & H). inversion H as [|? ? H1 H2]; subst.
    inversion H2 as [|? ? H3 _]; subst. vm_compute in H3. discriminate.
Defined.

(** ** C5: zones *)

(** C5, as stated, fails on a mapped literal with a zone. *)
Lemma parse_mapped_literal_with_zone :
  exists ip,
    parse (lit "::ffff:c0a8:201%eth0") = Ok ip /\
    m_isV4 ip = true /\ m_zone ip = Some (lit "eth0").
Proof. eexists. repeat split; vm_compute; reflexivity. Qed.

(** C5, amended. An address of [fromDecimal] has no zone. An address of
    [parse] with a zone comes from a text that is not ["::"], is not of
    IPv4 shape and holds a [%]; its [isV4] is true exactly when its first
    twelve octets are the mapped prefix. *)
Theorem zone_only_from_v6_text :
  (forall n forceV6 ip, fromDecimal n forceV6 = Ok ip -> m_zone ip = None) /\
  (forall s ip zone,
     parse s = Ok ip -> m_zone ip = Some zone ->
     let a := strip_brackets s in
     a <> lit "::" /\ isIPv4 a = false /\ In "%"%char a /\
     (m_isV4 ip = true <-> firstn 12 (m_bytes ip) = mappedV4Prefix)).
Proof.
  split.
  - intros n f ip H. unfold fromDecimal in H.
    destruct (_ && _) in H; injection H as <-; reflexivity.
  - intros s ip zone H Hz. cbv zeta. unfold parse in H.
    set (a := strip_brackets s) in *.
    destruct (JS.str_eqb a (lit "::")) eqn:E1.
    { injection H as <-. discriminate. }
    destruct (isIPv4 a) eqn:E2.
    { injection H as <-. discriminate. }
    destruct (isIPv6 a) eqn:E3; [|discriminate].
    split; [intros E; apply str_eqb_eq in E; congruence|].
    split; [reflexivity|].
    unfold v6StringToBuffer in H.
    destruct (has "%" a) eqn:E4.
    + split; [now apply has_In|].
      destruct (2 <? length (JS.split "%" a))%nat; [discriminate|].
      cbn [bind] in H.
      match type of H with context [JS.from_hex ?x] =>
        set (bytes := JS.from_hex x) in * end.
      pose proof (mapped_test bytes) as T.
      destruct (_ && _); injection H as <-; cbn [m_isV4 m_bytes].
      * split; [intros _; now apply T|reflexivity].
      * split; [discriminate|]. intros Q. apply T in Q. discriminate.
    + cbn [bind] in H.
      destruct (_ && _) in H; injection H as <-; discriminate.
Qed.

Lemma zone_only_from_v6_text_eth0 :
  In "%"%char (strip_brackets (lit "fe80::1%eth0")) /\
  isIPv4 (strip_brackets (lit "fe80::1%eth0")) = false.
Proof.
  destruct (proj2 zone_only_from_v6_text (lit "fe80::1%eth0")
              {| m_bytes := [254; 128; 0; 0; 0; 0; 0; 0; 0; 0; 0; 0; 0; 0; 0; 1];
                 m_isV4 := false; m_zone := Some (lit "eth0") |}
              (lit "eth0")) as (_ & H2 & H3 & _).
  - vm_compute. reflexivity.
  - reflexivity.
  - split; assumption.
Defined.

(** ** C9: [splitHostPort] *)

(** C9, as stated, fails on a text with a dot and three parts: the first
    part is returned with port 0. *)
Lemma splitHostPort_dot_three_parts :
  has "." (lit "192.168.2.1:80:90") = true /\
  length (JS.split ":" (lit "192.168.2.1:80:90")) = 3%nat /\
  splitHostPort (lit "192.168.2.1:80:90") = Ok (lit "192.168.2.1", JS.Num 0).
Proof. repeat split; vm_compute; reflexivity. Qed.

(** A bracketed address with a port that is not a number: the port is
    [NaN] and nothing is thrown. *)
Lemma splitHostPort_dead_port :
  splitHostPort (lit "[2607:f8b0:4009:805::200e]:dead")
  = Ok (lit "[2607:f8b0:4009:805::200e]", JS.NaN).
Proof. vm_compute. reflexivity. Qed.

(** C9, amended. A host without a dot makes [splitHostPort] throw when it
    lacks [[] or []], as the literal ["2607:f8b0:4009:805::200e:9999"]
    does, or when the text after the first []] is not empty and does not
    split on [:] into two parts. A host with a dot that does not split on
    [:] into two parts gives its first part and port 0. *)
Theorem splitHostPort_cases (host : str) :
  let parts := JS.split ":" host in
  let right := JS.substring (after_bracket host) (length host) host in
  (has "." host = false ->
   has "[" host && has "]" host = false ->
   splitHostPort host = Throw cannot_split) /\
  (has "." host = false ->
   has "[" host && has "]" host = true ->
   right <> [] -> length (JS.split ":" right) <> 2%nat ->
   splitHostPort host = Throw cannot_split) /\
  (has "." host = true -> length parts <> 2%nat ->
   splitHostPort host = Ok (nth 0 parts [], JS.Num 0)) /\
  splitHostPort (lit "2607:f8b0:4009:805::200e:9999") = Throw cannot_split.
Proof.
  cbv zeta. unfold splitHostPort. repeat split.
  - intros -> ->. reflexivity.
  - intros -> -> Hr Hp.
    destruct (JS.substring (after_bracket host) (length host) host) as [|c r];
      [congruence|].
    cbn [length Nat.eqb].
    destruct (Nat.eqb_spec (length (JS.split ":" (c :: r))) 2); [congruence|].
    reflexivity.
  - intros -> Hp.
    destruct (Nat.eqb_spec (length (JS.split ":" host)) 2); [congruence|].
    reflexivity.
Qed.

Lemma splitHostPort_cases_unbracketed :
  splitHostPort (lit "2607:f8b0:4009:805::200e:9999") = Throw cannot_split.
Proof.
  apply (proj1 (splitHostPort_cases (lit "2607:f8b0:4009:805::200e:9999")));
    vm_compute; reflexivity.
Defined.

(** ** Hex digits and big-endian values *)

Lemma nibble_cases (d : Z) :
  0 <= d < 16 ->
  d = 0 \/ d = 1 \/ d = 2 \/ d = 3 \/ d = 4 \/ d = 5 \/ d = 6 \/ d = 7 \/
  d = 8 \/ d = 9 \/ d = 10 \/ d = 11 \/ d = 12 \/ d = 13 \/ d = 14 \/ d = 15.
Proof. lia. Qed.

Ltac each_nibble d H :=
  apply nibble_cases in H;
  repeat (destruct H as [H|H]; [subst d|]); [..|subst d].

Section Hex.

Lemma digit_in_char (d : Z) :
  0 <= d < 16 -> JS.digit_in 16 (JS.digit_char d) = Some d.
Proof. intros H. each_nibble d H; reflexivity. Qed.

Lemma is_hex_char (d : Z) : 0 <= d < 16 -> is_hex (JS.digit_char d) = true.
Proof. intros H. unfold is_hex. now rewrite digit_in_char. Qed.

Lemma nibble_char (d : Z) : 0 <= d < 16 -> nibble (JS.digit_char d) = d.
Proof. intros H. unfold nibble. now rewrite digit_in_char. Qed.

Lemma is_lower_hex_char (d : Z) :
  0 <= d < 16 -> JS.is_lower_hex (JS.digit_char d) = true.
Proof. intros H. each_nibble d H; reflexivity. Qed.

Lemma digit_in_range (c : ascii) (d : Z) :
  JS.digit_in 16 c = Some d -> 0 <= d < 16.
Proof.
  unfold JS.digit_in, JS.digit_value.
  set (n := Z.of_nat (nat_of_ascii c)).
  destruct ((48 <=? n) && (n <=? 57)) eqn:E1.
  { apply andb_true_iff in E1. destruct E1 as [A _]. apply Z.leb_le in A.
    destruct (Z.ltb_spec (n - 48) 16); intros [=]; lia. }
  destruct ((97 <=? n) && (n <=? 122)) eqn:E2.
  { apply andb_true_iff in E2. destruct E2 as [A _]. apply Z.leb_le in A.
    destruct (Z.ltb_spec (n - 87) 16); intros [=]; lia. }
  destruct ((65 <=? n) && (n <=? 90)) eqn:E3; [|discriminate].
  apply andb_true_iff in E3. destruct E3 as [A _]. apply Z.leb_le in A.
  destruct (Z.ltb_spec (n - 55) 16); intros [=]; lia.
Qed.

Lemma nibble_range (c : ascii) : 0 <= nibble c < 16.
Proof.
  unfold nibble. destruct (JS.digit_in 16 c) eqn:E; [|lia].
  now apply digit_in_range in E.
Qed.

Lemma is_hex_nibble (c : ascii) :
  is_hex c = true -> JS.digit_in 16 c = Some (nibble c).
Proof. unfold is_hex, nibble. destruct (JS.digit_in 16 c); congruence. Qed.

(** *** Reading a hex string *)

Lemma hex_value_app (s t : str) (acc : Z) :
  hex_value (s ++ t) acc = hex_value t (hex_value s acc).
Proof.
  revert acc. induction s as [|c s IH]; intros acc; simpl; [reflexivity|].
  apply IH.
Qed.

Lemma hex_value_zeros (k : nat) (acc : Z) :
  hex_value (repeat "0"%char k) acc = acc * 16 ^ Z.of_nat k.
Proof.
  revert acc. induction k as [|k IH]; intros acc.
  - simpl. lia.
  - cbn [repeat hex_value]. rewrite IH.
    change (nibble "0") with 0. rewrite Nat2Z.inj_succ, Z.pow_succ_r by lia.
    lia.
Qed.

(** *** Writing a number in hex *)

Lemma digits_loop_hex (f : nat) (n : Z) (acc : str) :
  0 <= n -> forallb is_hex acc = true ->
  forallb is_hex (JS.digits_loop 16 f n acc) = true.
Proof.
  revert n acc. induction f as [|f IH]; intros n acc Hn Ha; simpl;
    [assumption|].
  destruct (Z.ltb_spec n 16).
  - simpl. rewrite is_hex_char by lia. assumption.
  - apply IH; [apply Z.div_pos; lia|].
    simpl. rewrite is_hex_char; [assumption|]. apply Z.mod_pos_bound. lia.
Qed.

Lemma digits_loop_value (f : nat) (n : Z) (acc : str) :
  0 <= n < 16 ^ Z.of_nat f ->
  hex_value (JS.digits_loop 16 f n acc) 0 = hex_value acc n.
Proof.
  revert n acc. induction f as [|f IH]; intros n acc Hn.
  - simpl in *. f_equal. lia.
  - cbn [JS.digits_loop]. destruct (Z.ltb_spec n 16).
    + cbn [hex_value]. rewrite nibble_char by lia. f_equal.
    + rewrite IH.
      * cbn [hex_value]. rewrite nibble_char by (apply Z.mod_pos_bound; lia).
        f_equal. pose proof (Z.div_mod n 16). lia.
      * rewrite Nat2Z.inj_succ, Z.pow_succ_r in Hn by lia.
        split; [apply Z.div_pos; lia|].
        apply Z.div_lt_upper_bound; lia.
Qed.

Lemma digits_loop_length (f : nat) (k : nat) (n : Z) (acc : str) :
  0 <= n < 16 ^ Z.of_nat (S k) ->
  (length (JS.digits_loop 16 f n acc) <= S k + length acc)%nat.
Proof.
  revert k n acc. induction f as [|f IH]; intros k n acc Hn.
  - simpl. lia.
  - cbn [JS.digits_loop]. destruct (Z.ltb_spec n 16).
    + simpl. lia.
    + destruct k as [|k]; [simpl in Hn; lia|].
      etransitivity; [apply (IH k)|simpl; lia].
      rewrite (Nat2Z.inj_succ (S k)), Z.pow_succ_r in Hn by lia.
      split; [apply Z.div_pos; lia|].
      apply Z.div_lt_upper_bound; lia.
Qed.

Lemma digits_fuel_enough (n : Z) :
  0 <= n -> n < 16 ^ Z.of_nat (JS.digits_fuel n).
Proof.
  intros Hn. unfold JS.digits_fuel.
  rewrite Nat2Z.inj_succ, Z2Nat.id by apply Z.log2_nonneg.
  destruct (Z.eq_dec n 0) as [->|Hz]; [simpl; lia|].
  assert (P : n < 2 ^ Z.succ (Z.log2 n)) by (apply Z.log2_spec; lia).
  eapply Z.lt_le_trans; [exact P|].
  apply Z.pow_le_mono_l. pose proof (Z.log2_nonneg n). lia.
Qed.

(** The hex text of a number below 16^(k+1), padded to k+1 characters:
    its length, its characters and its value. *)
Lemma padStart_hex (k : nat) (n : Z) :
  0 <= n < 16 ^ Z.of_nat (S k) ->
  let s := JS.padStart (S k) "0" (JS.int_toString 16 n) in
  length s = S k /\ forallb is_hex s = true /\ hex_value s 0 = n.
Proof.
  intros Hn. cbv zeta. unfold JS.padStart, JS.int_toString.
  destruct (Z.ltb_spec n 0); [lia|].
  set (d := JS.digits_loop 16 (JS.digits_fuel n) n []).
  assert (L : (length d <= S k)%nat).
  { pose proof (digits_loop_length (JS.digits_fuel n) k n [] Hn) as L.
    fold d in L. cbn [length] in L. lia. }
  repeat split.
  - rewrite length_app, repeat_length. lia.
  - rewrite forallb_app. apply andb_true_iff. split.
    + apply forallb_forall. intros c Hc. apply repeat_spec in Hc. now subst.
    + apply digits_loop_hex; [lia|reflexivity].
  - rewrite hex_value_app, hex_value_zeros. simpl (0 * _).
    unfold d. rewrite digits_loop_value; [reflexivity|].
    split; [lia|]. apply digits_fuel_enough. lia.
Qed.

(** *** Decoding and encoding a buffer *)

Lemma from_hex_spec (m : nat) (s : str) :
  length s = (2 * m)%nat -> forallb is_hex s = true ->
  length (JS.from_hex s) = m /\ Forall octet (JS.from_hex s) /\
  forall acc, be_value (JS.from_hex s) acc = hex_value s acc.
Proof.
  revert s. induction m as [|m IH]; intros s L H.
  - destruct s; [|discriminate]. simpl. repeat split. constructor.
  - destruct s as [|a [|b s]]; try (simpl in L; lia).
    simpl in L. cbn [forallb] in H.
    apply andb_true_iff in H. destruct H as [Ha H].
    apply andb_true_iff in H. destruct H as [Hb H].
    destruct (IH s) as (I1 & I2 & I3); [lia|assumption|].
    cbn [JS.from_hex]. rewrite (is_hex_nibble a Ha), (is_hex_nibble b Hb).
    pose proof (nibble_range a). pose proof (nibble_range b).
    repeat split.
    + simpl. now rewrite I1.
    + constructor; [unfold octet; lia|assumption].
    + intros acc. cbn [be_value hex_value]. rewrite I3. f_equal. lia.
Qed.

Lemma to_hex_read (b : JS.Buffer) (acc : Z) :
  Forall octet b ->
  BigInteger_read16 (JS.to_hex b) acc = Ok (be_value b acc).
Proof.
  intros H. revert acc. induction H as [|x b Hx Hb IH]; intros acc;
    [reflexivity|].
  unfold octet in Hx.
  assert (0 <= x / 16 < 16)
    by (split; [apply Z.div_pos; lia|apply Z.div_lt_upper_bound; lia]).
  assert (0 <= x mod 16 < 16) by (apply Z.mod_pos_bound; lia).
  change (JS.to_hex (x :: b))
    with (JS.digit_char (x / 16) :: JS.digit_char (x mod 16) :: JS.to_hex b).
  cbn [BigInteger_read16]. rewrite !digit_in_char by assumption.
  rewrite IH. cbn [be_value]. do 2 f_equal.
  pose proof (Z.div_mod x 16). lia.
Qed.

Lemma BigInteger16_to_hex (b : JS.Buffer) :
  Forall octet b -> BigInteger16 (JS.to_hex b) = Ok (be_value b 0).
Proof. apply to_hex_read. Qed.

(** *** The value of a buffer *)

Lemma be_value_acc (b : JS.Buffer) (acc : Z) :
  be_value b acc = acc * 256 ^ Z.of_nat (length b) + be_value b 0.
Proof.
  revert acc. induction b as [|x b IH]; intros acc.
  - simpl. lia.
  - cbn [be_value length]. rewrite IH, (IH (256 * 0 + x)).
    rewrite Nat2Z.inj_succ, Z.pow_succ_r by lia. lia.
Qed.

Lemma be_value_range (b : JS.Buffer) :
  Forall octet b -> 0 <= be_value b 0 < 256 ^ Z.of_nat (length b).
Proof.
  induction 1 as [|x b Hx Hb IH]; [simpl; lia|].
  cbn [be_value length]. rewrite be_value_acc.
  rewrite Nat2Z.inj_succ, Z.pow_succ_r by lia. unfold octet in Hx. nia.
Qed.

(** A small value has zero octets in front. *)
Lemma be_value_small (k : nat) (b : JS.Buffer) :
  Forall octet b -> (k <= length b)%nat ->
  be_value b 0 < 256 ^ Z.of_nat (length b - k) ->
  firstn k b = repeat 0 k.
Proof.
  revert b. induction k as [|k IH]; intros b Hb Hk Hv; [reflexivity|].
  destruct b as [|x b]; [simpl in Hk; lia|].
  inversion Hb as [|? ? Hx Hb']; subst. unfold octet in Hx.
  cbn [be_value length] in *. rewrite be_value_acc in Hv.
  pose proof (be_value_range b Hb') as R.
  replace (S (length b) - S k)%nat with (length b - k)%nat in Hv by lia.
  assert (P : 256 ^ Z.of_nat (length b - k) <= 256 ^ Z.of_nat (length b))
    by (apply Z.pow_le_mono_r; lia).
  assert (x = 0) by nia. subst x.
  cbn [firstn repeat]. f_equal. apply IH; [assumption|lia|lia].
Qed.

Lemma be_value_zeros (k : nat) (b : JS.Buffer) :
  be_value (repeat 0 k ++ b) 0 = be_value b 0.
Proof. induction k as [|k IH]; [reflexivity|]. simpl. exact IH. Qed.

(** The buffer that [fromDecimal] decodes for a value below 2^128. *)
Lemma fromDecimal_buffer (n : Z) :
  0 <= n < 2 ^ 128 ->
  let bytes := JS.from_hex (JS.padStart 32 "0" (JS.int_toString 16 n)) in
  length bytes = 16%nat /\ Forall octet bytes /\ be_value bytes 0 = n.
Proof.
  intros Hn. cbv zeta.
  destruct (padStart_hex 31 n) as (L & H & V).
  { change (16 ^ Z.of_nat 32) with (2 ^ 128). exact Hn. }
  destruct (from_hex_spec 16 _ L H) as (I1 & I2 & I3).
  repeat split; try assumption. now rewrite I3.
Qed.

End Hex.

(** ** C4: from a number and back *)

Ltac list16 bytes L :=
  do 16 (destruct bytes as [|? bytes]; [discriminate L|]);
  destruct bytes; [clear L|discriminate L].

(** C4. For every [n] in [0, 2^128), [fromDecimal(n)] returns an address
    whose [decimal] is [n]; when [n < 2^32] the address has
    [isV4 == true] and the mapped prefix in its first twelve octets. *)
Theorem decimal_fromDecimal (n : Z) :
  0 <= n < 2 ^ 128 ->
  (exists ip, fromDecimal n false = Ok ip /\ decimal ip = Ok n) /\
  (n < 2 ^ 32 ->
   exists ip, fromDecimal n false = Ok ip /\ m_isV4 ip = true /\
              firstn 12 (m_bytes ip) = mappedV4Prefix).
Proof.
  intros Hn. destruct (fromDecimal_buffer n Hn) as (L & O & V).
  unfold fromDecimal.
  set (bytes := JS.from_hex _) in *. clearbody bytes.
  cbn [negb andb].
  destruct (JS.compare _ _ =? 0) eqn:C.
  - apply compare_eqb in C. rewrite slice_0 in C.
    rewrite <- (firstn_skipn 12 bytes) in V, O. rewrite C in V, O.
    apply Forall_app in O. destruct O as [_ O].
    change (JS.alloc 12) with (repeat 0 12) in V. rewrite be_value_zeros in V.
    assert (D : decimal {| m_bytes := JS.copy mappedV4Prefix bytes 0 0
                                       (length mappedV4Prefix);
                           m_isV4 := true; m_zone := m_zone new_IP |} = Ok n
                /\ firstn 12 (JS.copy mappedV4Prefix bytes 0 0
                                (length mappedV4Prefix)) = mappedV4Prefix).
    { list16 bytes L. split; [|reflexivity].
      unfold decimal. cbn [m_isV4 m_bytes].
      change (JS.slice_from 12 (JS.copy _ _ _ _ _)) with [z11; z12; z13; z14].
      change (skipn 12 _) with [z11; z12; z13; z14] in V, O.
      now rewrite BigInteger16_to_hex, V. }
    destruct D as [D1 D2].
    split; [|intros _]; eexists; repeat split; eassumption.
  - split.
    + eexists. split; [reflexivity|]. unfold decimal. cbn [m_isV4 new_IP m_bytes].
      rewrite BigInteger16_to_hex by assumption. now rewrite V.
    + intros Hs. exfalso.
      assert (E : (JS.compare (JS.slice 0 12 bytes) (JS.alloc 12) =? 0) = true);
        [|congruence].
      apply compare_eqb. rewrite slice_0. apply be_value_small; [assumption|lia|].
      rewrite V, L. exact Hs.
Qed.

Lemma decimal_fromDecimal_192_168_2_1 :
  exists ip, fromDecimal 3232236033 false = Ok ip /\ decimal ip = Ok 3232236033.
Proof. apply (proj1 (decimal_fromDecimal 3232236033 ltac:(lia))). Defined.

(** ** Searching a run of zero groups in the text of [compressV6] *)

Section Search.

Lemma join_cons_tail (sep g : str) (G : list str) :
  JS.join sep (g :: G) =
  g ++ match G with [] => [] | _ :: _ => sep ++ JS.join sep G end.
Proof. destruct G; simpl; [now rewrite app_nil_r|reflexivity]. Qed.

Lemma join_app (sep : str) (l1 l2 : list str) :
  l1 <> [] ->
  JS.join sep (l1 ++ l2) =
  JS.join sep l1 ++ match l2 with [] => [] | _ :: _ => sep ++ JS.join sep l2 end.
Proof.
  induction l1 as [|g l1 IH]; intros H; [congruence|].
  destruct l1 as [|g' l1].
  - cbn [app]. rewrite join_cons_tail. reflexivity.
  - change ((g :: g' :: l1) ++ l2) with (g :: ((g' :: l1) ++ l2)).
    rewrite (join_cons_tail sep g), IH by discriminate.
    rewrite (join_cons_tail sep g (g' :: l1)).
    cbn [app]. now rewrite <- !app_assoc.
Qed.

(** The groups before a gap, the gap and the groups after it. *)
Lemma join_gap (pre post : list str) :
  JS.join [":"%char] (pre ++ [] :: post) =
  concat (map (fun g => g ++ [":"%char]) pre)
    ++ match post with [] => [] | _ :: _ => ":"%char :: JS.join [":"%char] post end.
Proof.
  induction pre as [|g pre IH].
  - cbn [app map concat]. rewrite join_cons_tail. reflexivity.
  - change ((g :: pre) ++ [] :: post) with (g :: (pre ++ [] :: post)).
    rewrite join_cons_tail, IH.
    destruct (pre ++ [] :: post) eqn:E; [now destruct pre|].
    cbn [map concat]. now rewrite <- !app_assoc.
Qed.

Lemma startsWith_app (p1 s1 p2 s2 : str) :
  length p1 = length s1 ->
  JS.startsWith (p1 ++ p2) (s1 ++ s2) = true <->
  p1 = s1 /\ JS.startsWith p2 s2 = true.
Proof.
  revert s1. induction p1 as [|a p1 IH]; intros [|b s1] L; try discriminate.
  - simpl. tauto.
  - cbn [app JS.startsWith]. rewrite andb_true_iff, IH by (simpl in L; lia).
    rewrite Ascii.eqb_eq. split.
    + intros (-> & -> & H). tauto.
    + intros (E & H). injection E as -> ->. tauto.
Qed.

Lemma cons_inj {A} (a b : A) (l m : list A) :
  a :: l = b :: m -> a = b /\ l = m.
Proof. intros H. inversion H. tauto. Qed.

Lemma startsWith_nth (n : nat) (p s : str) (x y : ascii) :
  nth_error p n = Some x -> nth_error s n = Some y -> x <> y ->
  JS.startsWith p s = false.
Proof.
  revert p s. induction n as [|n IH]; intros [|a p] [|b s] Hp Hs N;
    try discriminate; cbn [JS.startsWith].
  - injection Hp as ->. injection Hs as ->.
    destruct (Ascii.eqb x y) eqn:E; [apply Ascii.eqb_eq in E; congruence|].
    reflexivity.
  - rewrite (IH p s Hp Hs N). apply andb_false_r.
Qed.

Lemma startsWith_short (p s : str) :
  (length s < length p)%nat -> JS.startsWith p s = false.
Proof.
  revert s. induction p as [|a p IH]; intros [|b s] L; simpl in *;
    try lia; try reflexivity.
  rewrite IH by lia. apply andb_false_r.
Qed.

Lemma replace_cons (p r : str) (c : ascii) (s : str) :
  JS.replace p r (c :: s) =
  if JS.startsWith p (c :: s) then r ++ skipn (length p) (c :: s)
  else c :: JS.replace p r s.
Proof. reflexivity. Qed.

Lemma replace_found (p r s : str) :
  JS.startsWith p s = true -> JS.replace p r s = r ++ skipn (length p) s.
Proof. intros H. destruct s; simpl; now rewrite H. Qed.

Lemma find_from_cons (p : str) (c : ascii) (s : str) (i : Z) :
  JS.find_from p (c :: s) i =
  if JS.startsWith p (c :: s) then i else JS.find_from p s (i + 1).
Proof. reflexivity. Qed.

Lemma find_from_found (p s : str) (i : Z) :
  JS.startsWith p s = true -> JS.find_from p s i = i.
Proof. intros H. destruct s; simpl; now rewrite H. Qed.

(** A pattern of two or more zero groups does not match inside a
    group. *)
Section Pattern.

Variable P' : str.
Let P : str := Z4 ++ ":"%char :: Z4 ++ P'.

Lemma skip_last_group (g : str) (i : Z) :
  length g = 4%nat ->
  JS.replace P [] g = g /\ JS.find_from P g i = -1.
Proof.
  intros L. destruct g as [|a [|b [|c [|d [|]]]]]; try discriminate.
  assert (S : forall s, (length s < 9)%nat -> JS.startsWith P s = false).
  { intros s Hs. apply startsWith_short. unfold P.
    rewrite ?length_app. simpl. rewrite ?length_app. simpl. lia. }
  split.
  - rewrite !replace_cons.
    rewrite (S [a; b; c; d]), (S [b; c; d]), (S [c; d]), (S [d])
      by (simpl; lia).
    unfold JS.replace. rewrite (S []) by (simpl; lia). reflexivity.
  - rewrite !find_from_cons.
    rewrite (S [a; b; c; d]), (S [b; c; d]), (S [c; d]), (S [d])
      by (simpl; lia).
    unfold JS.find_from. rewrite (S []) by (simpl; lia). reflexivity.
Qed.

Lemma skip_group (g rest : str) (i : Z) :
  length g = 4%nat ->
  JS.startsWith P (g ++ ":"%char :: rest) = false ->
  JS.replace P [] (g ++ ":"%char :: rest) = g ++ ":"%char :: JS.replace P [] rest
  /\ JS.find_from P (g ++ ":"%char :: rest) i = JS.find_from P rest (i + 5).
Proof.
  intros L H. destruct g as [|a [|b [|c [|d [|]]]]]; try discriminate.
  cbn [app] in *.
  assert (S1 : JS.startsWith P (b :: c :: d :: ":"%char :: rest) = false)
    by (apply (startsWith_nth 3 _ _ "0" ":"); try reflexivity; discriminate).
  assert (S2 : JS.startsWith P (c :: d :: ":"%char :: rest) = false)
    by (apply (startsWith_nth 2 _ _ "0" ":"); try reflexivity; discriminate).
  assert (S3 : JS.startsWith P (d :: ":"%char :: rest) = false)
    by (apply (startsWith_nth 1 _ _ "0" ":"); try reflexivity; discriminate).
  assert (S4 : JS.startsWith P (":"%char :: rest) = false)
    by (apply (startsWith_nth 0 _ _ "0" ":"); try reflexivity; discriminate).
  split.
  - rewrite replace_cons, H, replace_cons, S1, replace_cons, S2,
      replace_cons, S3, replace_cons, S4. reflexivity.
  - rewrite find_from_cons, H, find_from_cons, S1, find_from_cons, S2,
      find_from_cons, S3, find_from_cons, S4. f_equal. lia.
Qed.

End Pattern.

Lemma zeros_pattern_two (k : nat) :
  exists P', zeros_pattern (S (S k)) = Z4 ++ ":"%char :: Z4 ++ P'.
Proof.
  unfold zeros_pattern. cbn [repeat].
  rewrite join_cons_tail. cbn [app]. rewrite join_cons_tail.
  eexists. reflexivity.
Qed.

Lemma zeros_pattern_succ (k : nat) :
  zeros_pattern (S (S k)) = Z4 ++ ":"%char :: zeros_pattern (S k).
Proof. unfold zeros_pattern. cbn [repeat]. now rewrite join_cons_tail. Qed.

(** At the head of a group the pattern matches exactly a run. *)
Lemma run_at_head (k : nat) (G : list str) :
  Forall len4 G ->
  JS.startsWith (zeros_pattern (S k)) (JS.join [":"%char] G) = true <->
  firstn (S k) G = repeat Z4 (S k).
Proof.
  revert G. induction k as [|k IH]; intros G HG.
  - destruct G as [|g G]; [split; discriminate|].
    inversion HG as [|? ? Hg _]; subst.
    rewrite join_cons_tail. change (zeros_pattern 1) with (Z4 ++ []).
    rewrite startsWith_app by (rewrite Hg; reflexivity).
    cbn [firstn repeat JS.startsWith]. split.
    + intros [<- _]. reflexivity.
    + intros [= <-]. tauto.
  - destruct G as [|g G]; [split; discriminate|].
    inversion HG as [|? ? Hg HG']; subst.
    rewrite join_cons_tail, zeros_pattern_succ.
    rewrite startsWith_app by (rewrite Hg; reflexivity).
    destruct G as [|g' G].
    + split; [intros [_ H]; discriminate|intros [=]].
    + change (JS.startsWith (":"%char :: zeros_pattern (S k))
                ([":"%char] ++ JS.join [":"%char] (g' :: G)))
        with (JS.startsWith (zeros_pattern (S k)) (JS.join [":"%char] (g' :: G))).
      rewrite (IH (g' :: G) HG').
      change (firstn (S (S k)) (g :: g' :: G))
        with (g :: firstn (S k) (g' :: G)).
      change (repeat Z4 (S (S k))) with (Z4 :: repeat Z4 (S k)).
      split.
      * intros [<- E]. now rewrite E.
      * intros E. apply cons_inj in E. destruct E as [<- E]. tauto.
Qed.

Lemma run_shorter {A} (z : A) (l : list A) (m n : nat) :
  (m <= n)%nat -> firstn n l = repeat z n -> firstn m l = repeat z m.
Proof.
  intros Hm H.
  assert (E : firstn m (firstn n l) = firstn m (repeat z n)) by now rewrite H.
  rewrite firstn_firstn, Nat.min_l in E by assumption.
  rewrite E. replace n with (m + (n - m))%nat by lia.
  rewrite repeat_app, firstn_app, repeat_length, Nat.sub_diag.
  cbn [firstn]. rewrite app_nil_r.
  rewrite firstn_all2 by (rewrite repeat_length; lia). reflexivity.
Qed.

(** No run of [k + 2] zero groups: the pattern is not found. *)
Lemma find_no_run (k : nat) (G : list str) (i0 : Z) :
  Forall len4 G ->
  (forall i, firstn (S (S k)) (skipn i G) <> repeat Z4 (S (S k))) ->
  JS.find_from (zeros_pattern (S (S k))) (JS.join [":"%char] G) i0 = -1.
Proof.
  intros HG. revert i0. induction HG as [|g G Hg HG IH]; intros i0 N.
  - reflexivity.
  - assert (H0 : JS.startsWith (zeros_pattern (S (S k)))
                   (JS.join [":"%char] (g :: G)) = false).
    { destruct (JS.startsWith _ _) eqn:E; [|reflexivity].
      apply run_at_head in E; [|now constructor]. now destruct (N 0%nat). }
    destruct (zeros_pattern_two k) as [P' EP]. rewrite EP in *.
    rewrite join_cons_tail in *. destruct G as [|g' G].
    + rewrite app_nil_r. now apply skip_last_group.
    + cbn [app] in *.
      destruct (skip_group P' g _ i0 Hg H0) as [_ ->].
      apply IH. intros i. apply (N (S i)).
Qed.

(** The leftmost run of [k + 2] zero groups is found and removed. *)
Lemma find_replace_run (k : nat) (pre post : list str) (i0 : Z) :
  let G := pre ++ repeat Z4 (S (S k)) ++ post in
  let P := zeros_pattern (S (S k)) in
  Forall len4 G ->
  (forall i, (i < length pre)%nat ->
             firstn (S (S k)) (skipn i G) <> repeat Z4 (S (S k))) ->
  0 <= i0 ->
  0 <= JS.find_from P (JS.join [":"%char] G) i0 /\
  JS.replace P [] (JS.join [":"%char] G) = JS.join [":"%char] (pre ++ [] :: post).
Proof.
  cbv zeta. revert i0. induction pre as [|g pre IH]; intros i0 HG N Hi.
  - cbn [app] in *.
    assert (H0 : JS.startsWith (zeros_pattern (S (S k)))
              (JS.join [":"%char] (repeat Z4 (S (S k)) ++ post)) = true).
    { apply run_at_head; [assumption|].
      rewrite firstn_app, repeat_length, Nat.sub_diag, firstn_O, app_nil_r.
      apply firstn_all2. rewrite repeat_length. lia. }
    rewrite find_from_found, replace_found by assumption.
    split; [assumption|].
    rewrite join_app by discriminate. fold (zeros_pattern (S (S k))).
    rewrite skipn_app, skipn_all, Nat.sub_diag. cbn [app skipn].
    now rewrite join_cons_tail.
  - change ((g :: pre) ++ repeat Z4 (S (S k)) ++ post)
      with (g :: (pre ++ repeat Z4 (S (S k)) ++ post)) in *.
    change ((g :: pre) ++ [] :: post) with (g :: (pre ++ [] :: post)).
    set (G := pre ++ repeat Z4 (S (S k)) ++ post) in *.
    inversion HG as [|? ? Hg HG']; subst.
    assert (H0 : JS.startsWith (zeros_pattern (S (S k)))
                   (JS.join [":"%char] (g :: G)) = false).
    { destruct (JS.startsWith _ _) eqn:E; [|reflexivity].
      apply run_at_head in E; [|assumption].
      destruct (N 0%nat); [simpl; lia|assumption]. }
    destruct (zeros_pattern_two k) as [P' EP]. rewrite EP in *.
    rewrite !join_cons_tail in *.
    destruct G as [|g' G'] eqn:EG; [now destruct pre|].
    destruct (pre ++ [] :: post) as [|q Q] eqn:EQ; [now destruct pre|].
    cbn [app] in *.
    destruct (skip_group P' g _ i0 Hg H0) as [-> ->].
    destruct (IH (i0 + 5)) as [I1 I2]; [assumption| |lia|].
    { intros i Hi'. apply (N (S i)). simpl. lia. }
    split; [assumption|]. now rewrite I2.
Qed.

End Search.

(** ** [compressV6] on four-digit groups *)

Section Compress.

Lemma groups_len4 (G : list str) : Forall group G -> Forall len4 G.
Proof. apply Forall_impl. now intros g [H _]. Qed.

Lemma groups_no_colon (G : list str) :
  Forall group G -> Forall (fun g => ~ In ":"%char g) G.
Proof. apply Forall_impl. now intros g [_ H]. Qed.

Lemma compress_loop_step (m : nat) (address : str) :
  compress_loop (S (S m)) address =
  if negb (JS.find_from (zeros_pattern (S (S m))) address 0 =? -1)
  then JS.replace (zeros_pattern (S (S m))) [] address
  else compress_loop (S m) address.
Proof. reflexivity. Qed.

Lemma loop_none (n : nat) (G : list str) :
  Forall len4 G -> no_run G ->
  compress_loop n (JS.join [":"%char] G) = JS.join [":"%char] G.
Proof.
  intros HG N. induction n as [|n IH]; [reflexivity|].
  destruct n as [|m]; [reflexivity|].
  rewrite compress_loop_step, (find_no_run m G 0 HG (N m)).
  exact IH.
Qed.

Lemma loop_found (n k : nat) (pre post : list str) :
  let G := pre ++ repeat Z4 (S (S k)) ++ post in
  Forall len4 G ->
  (forall i, firstn (S (S (S k))) (skipn i G) <> repeat Z4 (S (S (S k)))) ->
  (forall i, (i < length pre)%nat ->
             firstn (S (S k)) (skipn i G) <> repeat Z4 (S (S k))) ->
  (S (S k) <= n)%nat ->
  compress_loop n (JS.join [":"%char] G) = JS.join [":"%char] (pre ++ [] :: post).
Proof.
  cbv zeta. set (G := pre ++ repeat Z4 (S (S k)) ++ post).
  intros HG Long Left. induction n as [|n IH]; intros Hn; [lia|].
  destruct n as [|m]; [lia|].
  rewrite compress_loop_step.
  destruct (Nat.eq_dec m k) as [->|Hm].
  - destruct (find_replace_run k pre post 0 HG Left) as [F R]; [lia|].
    fold G in F, R.
    destruct (Z.eqb_spec (JS.find_from (zeros_pattern (S (S k)))
                            (JS.join [":"%char] G) 0) (-1)); [lia|].
    exact R.
  - rewrite (find_no_run m G 0 HG).
    + apply IH. lia.
    + intros i E. apply (Long i).
      apply (run_shorter Z4 _ (S (S (S k))) (S (S m))); [lia|exact E].
Qed.

Lemma join_nullable_groups (G : list str) :
  Forall group G ->
  map (fun o => match o with Some x => x | None => [] end) (map nullable G)
  = map render G.
Proof.
  induction 1 as [|g G [Hg _] _ IH]; [reflexivity|].
  cbn [map]. rewrite IH. destruct g; [discriminate|reflexivity].
Qed.

(** The last steps of [compressV6] on the text of [X]. *)
Lemma finish (X : list str) :
  X <> [] -> Forall (fun g => ~ In ":"%char g) X ->
  JS.join_nullable [":"%char] (map nullable (JS.split ":" (JS.join [":"%char] X)))
  = JS.join [":"%char]
      (map (fun o => match o with Some x => x | None => [] end) (map nullable X)).
Proof. intros H1 H2. now rewrite split_join. Qed.

Lemma head_not_colon (g : str) (G : list str) (t : str) :
  group g ->
  match g ++ t with
  | c :: _ => if Ascii.eqb c ":" then ":"%char :: g ++ t else g ++ t
  | [] => lit "::"
  end = g ++ t.
Proof.
  intros [L N]. destruct g as [|c g]; [discriminate|]. cbn [app].
  destruct (Ascii.eqb_spec c ":"); [|reflexivity].
  subst. exfalso. apply N. now left.
Qed.

Lemma concat_colons (L : list str) :
  L <> [] ->
  concat (map (fun g => g ++ [":"%char]) L) = JS.join [":"%char] L ++ [":"%char].
Proof.
  induction L as [|g L IH]; intros H; [congruence|].
  cbn [map concat]. rewrite join_cons_tail. destruct L as [|g' L].
  - simpl. now rewrite !app_nil_r.
  - rewrite IH by discriminate. now rewrite <- !app_assoc.
Qed.

(** Without a run of two zero groups every group is written. *)
Lemma compressV6_none (G : list str) :
  G <> [] -> Forall group G -> no_run G ->
  compressV6 (JS.join [":"%char] G) = JS.join [":"%char] (map render G).
Proof.
  intros Hne HG N. unfold compressV6.
  rewrite loop_none by (try apply groups_len4; assumption).
  destruct G as [|g G]; [congruence|].
  rewrite join_cons_tail, (head_not_colon g G) by now inversion HG.
  rewrite <- join_cons_tail.
  fold nullable. rewrite finish by (try apply groups_no_colon; assumption).
  now rewrite join_nullable_groups.
Qed.

(** With a leftmost longest run the groups on both sides are written
    around what is left of the colons. *)
Lemma compressV6_run (k : nat) (pre post : list str) :
  let G := pre ++ repeat Z4 (S (S k)) ++ post in
  Forall group G -> (length G <= 8)%nat ->
  (forall i, firstn (S (S (S k))) (skipn i G) <> repeat Z4 (S (S (S k)))) ->
  (forall i, (i < length pre)%nat ->
             firstn (S (S k)) (skipn i G) <> repeat Z4 (S (S k))) ->
  compressV6 (JS.join [":"%char] G) =
  JS.join [":"%char] (map render pre)
    ++ match pre, post with _ :: _, [] => [":"%char] | _, _ => lit "::" end
    ++ JS.join [":"%char] (map render post).
Proof.
  cbv zeta. intros HG Len Long Left. unfold compressV6.
  rewrite loop_found; try assumption; try (apply groups_len4; assumption).
  2:{ rewrite !length_app, repeat_length in Len. lia. }
  apply Forall_app in HG. destruct HG as [Hpre HG].
  apply Forall_app in HG. destruct HG as [_ Hpost].
  fold nullable. destruct pre as [|p pre].
  - cbn [app]. rewrite join_cons_tail. destruct post as [|q post].
    + reflexivity.
    + cbn [app]. rewrite Ascii.eqb_refl.
      change (":"%char :: ":"%char :: JS.join [":"%char] (q :: post))
        with (JS.join [":"%char] ([] :: [] :: q :: post)).
      rewrite finish;
        [|discriminate
         |constructor; [tauto|constructor; [tauto|now apply groups_no_colon]]].
      rewrite (map_cons nullable []), (map_cons nullable []).
      change (nullable []) with (@None str).
      set (unwrap := fun o : option str =>
                       match o with Some x => x | None => [] end).
      rewrite (map_cons unwrap None), (map_cons unwrap None).
      unfold unwrap at 1 2. subst unwrap.
      rewrite join_nullable_groups by assumption.
      rewrite !join_cons_tail.
      destruct (map render (q :: post)) eqn:E; [discriminate|reflexivity].
  - change ((p :: pre) ++ [] :: post) with (p :: (pre ++ [] :: post)).
    rewrite join_cons_tail, (head_not_colon p (pre ++ [] :: post))
      by now inversion Hpre.
    rewrite <- join_cons_tail.
    change (p :: (pre ++ [] :: post)) with ((p :: pre) ++ [] :: post).
    rewrite finish.
    2:{ now destruct pre. }
    2:{ apply Forall_app. split; [now apply groups_no_colon|].
        constructor; [tauto|now apply groups_no_colon]. }
    rewrite !map_app, (map_cons nullable []).
    change (nullable []) with (@None str).
    set (unwrap := fun o : option str =>
                       match o with Some x => x | None => [] end).
    rewrite (map_cons unwrap None).
    unfold unwrap at 2. subst unwrap.
    rewrite !join_nullable_groups by assumption.
    rewrite join_gap, concat_colons by discriminate.
    rewrite <- !app_assoc. f_equal.
    destruct post as [|q post]; [reflexivity|].
    destruct (map render (q :: post)) eqn:E; [discriminate|reflexivity].
Qed.

End Compress.

(** ** From the buffer to the groups of [v6ToString] *)

Section Format.

Lemma digit_char_not_colon (d : Z) :
  0 <= d < 16 -> JS.digit_char d <> ":"%char.
Proof. intros H. each_nibble d H; discriminate. Qed.

Lemma digit_char_zero (d : Z) :
  0 <= d < 16 -> JS.digit_char d = "0"%char -> d = 0.
Proof. intros H. each_nibble d H; try reflexivity; discriminate. Qed.

Lemma read_digits_hex (s : str) (acc : Z) :
  forallb is_hex s = true ->
  JS.read_digits 16 s acc true = JS.Num (hex_value s acc).
Proof.
  revert acc. induction s as [|c s IH]; intros acc H; [reflexivity|].
  cbn [forallb] in H. apply andb_true_iff in H. destruct H as [Hc Hs].
  cbn [JS.read_digits hex_value]. rewrite (is_hex_nibble c Hc), IH by assumption.
  do 2 f_equal. lia.
Qed.

(** [parseInt] of hex digits that begin with two nibble characters. *)
Lemma parseInt_hex (a b : Z) (s : str) :
  0 <= a < 16 -> 0 <= b < 16 -> forallb is_hex s = true ->
  JS.parseInt (JS.digit_char a :: JS.digit_char b :: s) 16
  = JS.Num (hex_value s (16 * a + b)).
Proof.
  intros Ha Hb Hs.
  assert (E : JS.parseInt (JS.digit_char a :: JS.digit_char b :: s) 16
              = match JS.read_digits 16 s (16 * a + b) true with
                | JS.NaN => JS.NaN
                | JS.Num z => JS.Num z
                end).
  { each_nibble a Ha; try reflexivity; each_nibble b Hb; reflexivity. }
  rewrite E. now rewrite read_digits_hex.
Qed.

Lemma octet_nibbles (x : Z) :
  octet x -> 0 <= x / 16 < 16 /\ 0 <= x mod 16 < 16.
Proof.
  unfold octet. intros H. split.
  - split; [apply Z.div_pos; lia|apply Z.div_lt_upper_bound; lia].
  - apply Z.mod_pos_bound. lia.
Qed.

Lemma pair_text_of (hi lo : Z) :
  octet hi -> octet lo -> text_of (pair_text hi lo) (256 * hi + lo).
Proof.
  intros Hhi Hlo.
  destruct (octet_nibbles hi Hhi) as [A B].
  destruct (octet_nibbles lo Hlo) as [C D].
  pose proof (Z.div_mod hi 16 ltac:(lia)) as Ehi.
  pose proof (Z.div_mod lo 16 ltac:(lia)) as Elo.
  repeat split.
  - intros [H|[H|[H|[H|[]]]]]; revert H; now apply digit_char_not_colon.
  - intros E. unfold pair_text in E. injection E as E1 E2 E3 E4.
    apply digit_char_zero in E1, E2, E3, E4; try assumption. lia.
  - intros E. assert (hi = 0 /\ lo = 0) as [-> ->] by (unfold octet in *; lia).
    reflexivity.
  - unfold render, pair_text. rewrite parseInt_hex; try assumption.
    + cbn [hex_value JS.number_toString]. rewrite !nibble_char by assumption.
      unfold hextet_text. f_equal. lia.
    + cbn [forallb]. now rewrite !is_hex_char.
Qed.

Lemma match_hex4_cons (a b c d : ascii) (s : str) :
  Re.match_hex4 (a :: b :: c :: d :: s) =
  if JS.is_lower_hex a && JS.is_lower_hex b
     && JS.is_lower_hex c && JS.is_lower_hex d
  then [a; b; c; d] :: Re.match_hex4 s
  else Re.match_hex4 (b :: c :: d :: s).
Proof. reflexivity. Qed.

(** The groups that [v6ToString] cuts out of the hex text of a buffer
    are the texts of its hextets. *)
Lemma match_hex4_to_hex (m : nat) (bytes : JS.Buffer) :
  length bytes = (2 * m)%nat -> Forall octet bytes ->
  Forall2 text_of (Re.match_hex4 (JS.to_hex bytes)) (hextets bytes).
Proof.
  revert bytes. induction m as [|m IH]; intros bytes L H.
  - destruct bytes; [constructor|discriminate].
  - destruct bytes as [|hi [|lo bytes]]; try (simpl in L; lia).
    inversion H as [|? ? Hhi H']; subst.
    inversion H' as [|? ? Hlo H'']; subst.
    destruct (octet_nibbles hi Hhi) as [A B].
    destruct (octet_nibbles lo Hlo) as [C D].
    change (JS.to_hex (hi :: lo :: bytes))
      with (pair_text hi lo ++ JS.to_hex bytes).
    unfold pair_text. cbn [app]. rewrite match_hex4_cons.
    rewrite !is_lower_hex_char by assumption. cbn [andb hextets].
    constructor; [now apply pair_text_of|].
    apply IH; [simpl in L; lia|assumption].
Qed.

Lemma hextets_length (m : nat) (bytes : JS.Buffer) :
  length bytes = (2 * m)%nat -> length (hextets bytes) = m.
Proof.
  revert bytes. induction m as [|m IH]; intros bytes L.
  - now destruct bytes.
  - destruct bytes as [|hi [|lo bytes]]; try (simpl in L; lia).
    cbn [hextets length]. f_equal. apply IH. simpl in L. lia.
Qed.

Lemma hextets_range (bytes : JS.Buffer) :
  Forall octet bytes -> Forall hextet (hextets bytes).
Proof.
  revert bytes. fix IH 1. intros [|hi [|lo bytes]] H; try constructor.
  - inversion H as [|? ? Hhi H']; subst. inversion H' as [|? ? Hlo _]; subst.
    unfold octet, hextet in *. lia.
  - apply IH. inversion H as [|? ? _ H']; subst. now inversion H'.
Qed.

(** *** Texts and values side by side *)

Lemma text_of_groups (G : list str) (gs : list Z) :
  Forall2 text_of G gs -> Forall group G.
Proof. induction 1 as [|g v G gs [H _] _ IH]; constructor; assumption. Qed.

Lemma text_of_render (G : list str) (gs : list Z) :
  Forall2 text_of G gs -> map render G = map hextet_text gs.
Proof.
  induction 1 as [|g v G gs (_ & _ & H) _ IH]; [reflexivity|].
  cbn [map]. now rewrite H, IH.
Qed.

Lemma text_of_firstn (n : nat) (G : list str) (gs : list Z) :
  Forall2 text_of G gs -> Forall2 text_of (firstn n G) (firstn n gs).
Proof.
  intros H. revert n. induction H; intros [|n]; cbn [firstn]; constructor; auto.
Qed.

Lemma text_of_skipn (n : nat) (G : list str) (gs : list Z) :
  Forall2 text_of G gs -> Forall2 text_of (skipn n G) (skipn n gs).
Proof.
  intros H. revert n. induction H; intros [|n]; cbn [skipn]; auto;
    now constructor.
Qed.

Lemma text_of_zeros (n : nat) (G : list str) (gs : list Z) :
  Forall2 text_of G gs -> (G = repeat Z4 n <-> gs = repeat 0 n).
Proof.
  intros H. revert n.
  induction H as [|g v G gs (_ & E & _) _ IH]; intros [|n]; cbn [repeat];
    try (split; [reflexivity|reflexivity]); try (split; discriminate).
  split; intros Q; apply cons_inj in Q; destruct Q as [Q1 Q2].
  - apply E in Q1. apply IH in Q2. now subst.
  - apply E in Q1. apply IH in Q2. now subst.
Qed.

Lemma text_of_run (G : list str) (gs : list Z) (i n : nat) :
  Forall2 text_of G gs ->
  firstn n (skipn i G) = repeat Z4 n <-> zero_run gs i n.
Proof.
  intros H. apply text_of_zeros. now apply text_of_firstn, text_of_skipn.
Qed.

End Format.

(** ** The text of a hextet *)

Section HextetText.

Lemma digits_loop_longer (radix : Z) (f : nat) (n : Z) (acc : str) :
  (length acc <= length (JS.digits_loop radix f n acc))%nat.
Proof.
  revert n acc. induction f as [|f IH]; intros n acc; simpl; [lia|].
  destruct (n <? radix); [simpl; lia|].
  etransitivity; [|apply IH]. simpl. lia.
Qed.

Lemma hextet_text_shape (v : Z) :
  hextet v ->
  hex_group (hextet_text v) /\ hex_value (hextet_text v) 0 = v.
Proof.
  unfold hextet, hextet_text, JS.int_toString, hex_group. intros Hv.
  destruct (Z.ltb_spec v 0); [lia|].
  repeat split.
  - unfold JS.digits_fuel. cbn [JS.digits_loop].
    destruct (v <? 16); [simpl; lia|].
    etransitivity; [|apply digits_loop_longer]. simpl. lia.
  - pose proof (digits_loop_length (JS.digits_fuel v) 3 v []) as L.
    cbn [length] in L. rewrite Nat.add_0_r in L. apply L.
    change (16 ^ Z.of_nat 4) with 65536. lia.
  - apply digits_loop_hex; [lia|reflexivity].
  - rewrite digits_loop_value; [reflexivity|].
    split; [lia|]. apply digits_fuel_enough. lia.
Qed.

Lemma is_hex_not_colon (g : str) : forallb is_hex g = true -> ~ In ":"%char g.
Proof.
  intros H Hin. rewrite forallb_forall in H. apply H in Hin. discriminate.
Qed.

Lemma hextet_text_not_Z4 (v : Z) : hextet v -> hextet_text v <> Z4.
Proof.
  intros Hv E. destruct (hextet_text_shape v Hv) as [_ V].
  rewrite E in V. change (hex_value Z4 0) with 0 in V. subst v.
  discriminate E.
Qed.

(** *** [replace(/0000/g, '0')] finds nothing in the expanded text *)

Lemma replace_0000_cons (a b c d : ascii) (s : str) :
  Re.replace_0000 (a :: b :: c :: d :: s) =
  if Ascii.eqb a "0" && Ascii.eqb b "0" && Ascii.eqb c "0" && Ascii.eqb d "0"
  then "0"%char :: Re.replace_0000 s
  else a :: Re.replace_0000 (b :: c :: d :: s).
Proof. reflexivity. Qed.

Lemma replace_0000_id (s : str) : no_0000 s -> Re.replace_0000 s = s.
Proof.
  induction s as [|a t IH]; [reflexivity|]. intros [H N].
  specialize (IH N).
  destruct t as [|b [|c [|d s]]]; try reflexivity.
  rewrite replace_0000_cons.
  destruct (_ && _) eqn:E; [|now rewrite IH].
  repeat (apply andb_true_iff in E; destruct E as [E ?]).
  repeat match goal with
         | Q : Ascii.eqb _ _ = true |- _ => apply Ascii.eqb_eq in Q; subst
         end.
  now destruct H.
Qed.

Lemma no_0000_group (t r : str) :
  short_group t -> no_0000 r ->
  no_0000 t /\ no_0000 (t ++ ":"%char :: r).
Proof.
  intros (L & _ & N) Hr.
  destruct t as [|a [|b [|c [|d [|]]]]]; simpl in L; try lia; clear L;
    cbn [no_0000 app firstn]; repeat split; try assumption;
    try (intros E; apply N; exact E);
    change Z4 with ["0"%char; "0"%char; "0"%char; "0"%char]; congruence.
Qed.

Lemma no_0000_join (T : list str) :
  Forall short_group T -> no_0000 (JS.join [":"%char] T).
Proof.
  induction 1 as [|t T Ht HT IH]; [exact I|].
  rewrite join_cons_tail. destruct T as [|t' T].
  - rewrite app_nil_r. now apply (no_0000_group t []).
  - now apply no_0000_group.
Qed.

Lemma replace_0000_colons (gs : list Z) :
  Forall hextet gs -> Re.replace_0000 (colons gs) = colons gs.
Proof.
  intros H. apply replace_0000_id, no_0000_join.
  apply Forall_map. revert H. apply Forall_impl. intros v Hv.
  destruct (hextet_text_shape v Hv) as [[L X] _].
  repeat split; try lia; [now apply is_hex_not_colon|].
  now apply hextet_text_not_Z4.
Qed.

(** The text of a hextet is canonical: lower-case hex digits, and no
    zero in front unless the text is ["0"]. *)
Lemma digits_loop_lower (f : nat) (n : Z) (acc : str) :
  0 <= n -> forallb JS.is_lower_hex acc = true ->
  forallb JS.is_lower_hex (JS.digits_loop 16 f n acc) = true.
Proof.
  revert n acc. induction f as [|f IH]; intros n acc Hn Ha; simpl;
    [assumption|].
  destruct (Z.ltb_spec n 16).
  - simpl. rewrite is_lower_hex_char by lia. assumption.
  - apply IH; [apply Z.div_pos; lia|].
    simpl. rewrite is_lower_hex_char; [assumption|]. apply Z.mod_pos_bound. lia.
Qed.

Lemma digits_loop_head (f : nat) (n : Z) (acc : str) :
  0 < n < 16 ^ Z.of_nat f ->
  exists d r, JS.digits_loop 16 f n acc = JS.digit_char d :: r /\ 0 < d < 16.
Proof.
  revert n acc. induction f as [|f IH]; intros n acc Hn; [simpl in Hn; lia|].
  cbn [JS.digits_loop]. destruct (Z.ltb_spec n 16).
  - exists n, acc. split; [reflexivity|lia].
  - apply IH. rewrite Nat2Z.inj_succ, Z.pow_succ_r in Hn by lia. split.
    + apply Z.div_str_pos. lia.
    + apply Z.div_lt_upper_bound; lia.
Qed.

Lemma hextet_text_canonical (v : Z) :
  hextet v ->
  forallb JS.is_lower_hex (hextet_text v) = true /\
  (hextet_text v = ["0"%char] \/
   exists c r, hextet_text v = c :: r /\ c <> "0"%char).
Proof.
  unfold hextet, hextet_text, JS.int_toString. intros Hv.
  destruct (Z.ltb_spec v 0); [lia|]. split.
  - apply digits_loop_lower; [lia|reflexivity].
  - destruct (Z.eq_dec v 0) as [->|Hz]; [now left|right].
    destruct (digits_loop_head (JS.digits_fuel v) v []) as (d & r & E & Hd).
    { split; [lia|]. apply digits_fuel_enough. lia. }
    exists (JS.digit_char d), r. split; [exact E|].
    intros Q. apply digit_char_zero in Q; lia.
Qed.

End HextetText.

(** ** [v6ToString] on a buffer of sixteen octets *)

Section V6ToString.

Variable bytes : JS.Buffer.
Hypothesis bytes_length : length bytes = 16%nat.
Hypothesis bytes_octets : Forall octet bytes.

Let gs : list Z := hextets bytes.
Let G : list str := Re.match_hex4 (JS.to_hex bytes).

Lemma groups_of_bytes : Forall2 text_of G gs.
Proof. now apply (match_hex4_to_hex 8). Qed.

Lemma groups_eight : length G = 8%nat.
Proof.
  rewrite (Forall2_length groups_of_bytes). now apply (hextets_length 8).
Qed.

Lemma groups_some : G <> [].
Proof. intros E. pose proof groups_eight as L. rewrite E in L. discriminate. Qed.

Lemma v6ToString_unfold (expanded : bool) :
  v6ToString bytes expanded =
  if negb expanded then Ok (compressV6 (JS.join [":"%char] G))
  else Ok (Re.replace_0000 (JS.join [":"%char] (map render G))).
Proof.
  unfold v6ToString. fold G. pose proof groups_some.
  destruct G; [congruence|reflexivity].
Qed.

(** The expanded form: every hextet, no replacement. *)
Lemma v6ToString_expanded : v6ToString bytes true = Ok (colons gs).
Proof.
  rewrite v6ToString_unfold. cbn [negb].
  rewrite (text_of_render G gs groups_of_bytes). fold (colons gs).
  rewrite replace_0000_colons; [reflexivity|]. now apply hextets_range.
Qed.

(** The default form when no two zero hextets are neighbours. *)
Lemma v6ToString_no_run :
  (forall i, ~ zero_run gs i 2) -> v6ToString bytes false = Ok (colons gs).
Proof.
  intros N. rewrite v6ToString_unfold. cbn [negb].
  rewrite compressV6_none.
  - now rewrite (text_of_render G gs groups_of_bytes).
  - exact groups_some.
  - exact (text_of_groups G gs groups_of_bytes).
  - intros k i E. apply (N i).
    apply (text_of_run G gs i 2 groups_of_bytes).
    apply (run_shorter Z4 _ 2 (S (S k))); [lia|exact E].
Qed.

(** The default form when a run is left out. *)
Lemma v6ToString_run (pre post : list Z) (k : nat) :
  elision gs pre k post ->
  v6ToString bytes false = Ok (colons pre ++ marker pre post ++ colons post).
Proof.
  intros [E K Long Left]. rewrite v6ToString_unfold. cbn [negb].
  pose proof groups_of_bytes as H. pose proof groups_eight as L8.
  assert (H' := H). rewrite E in H'.
  apply Forall2_app_inv_r in H'. destruct H' as (Gpre & G' & Hpre & H' & EG).
  apply Forall2_app_inv_r in H'. destruct H' as (Gmid & Gpost & Hmid & Hpost & EG').
  apply (text_of_zeros k) in Hmid. destruct Hmid as [_ Hmid].
  specialize (Hmid eq_refl). subst Gmid G'.
  destruct k as [|[|k]]; try lia.
  rewrite EG in *.
  rewrite compressV6_run.
  - rewrite (text_of_render Gpre pre Hpre), (text_of_render Gpost post Hpost).
    fold (colons pre) (colons post). do 3 f_equal.
    inversion Hpre; inversion Hpost; reflexivity.
  - exact (text_of_groups _ gs H).
  - lia.
  - intros i Q. apply (Long i). now apply (text_of_run _ gs i _ H).
  - intros i Hi Q. apply (Left i).
    + now rewrite <- (Forall2_length Hpre).
    + now apply (text_of_run _ gs i _ H).
Qed.

End V6ToString.

(** ** [parse] on an IPv6 text *)

Section ParseV6.

Lemma pad4_group (g : str) :
  hex_group g -> padded (pad4 g) /\ group_value (pad4 g) = group_value g.
Proof.
  intros [L H]. unfold pad4, JS.padStart, padded, group_value. repeat split.
  - rewrite length_app, repeat_length. lia.
  - rewrite forallb_app, H, andb_true_r. apply forallb_forall.
    intros c Hc. apply repeat_spec in Hc. now subst.
  - rewrite hex_value_app, hex_value_zeros. reflexivity.
Qed.

Lemma Z4_padded : padded Z4 /\ group_value Z4 = 0.
Proof. repeat split. Qed.

Lemma from_hex_padded (g rest : str) :
  padded g ->
  JS.from_hex (g ++ rest) = hextet_bytes (group_value g) ++ JS.from_hex rest.
Proof.
  intros [L H]. destruct g as [|a [|b [|c [|d [|]]]]]; try discriminate.
  cbn [forallb] in H.
  repeat (apply andb_true_iff in H; destruct H as [? H]).
  cbn [app JS.from_hex].
  rewrite (is_hex_nibble a), (is_hex_nibble b), (is_hex_nibble c),
    (is_hex_nibble d) by assumption.
  pose proof (nibble_range a). pose proof (nibble_range b).
  pose proof (nibble_range c). pose proof (nibble_range d).
  unfold hextet_bytes, group_value. cbn [hex_value app]. f_equal; [|f_equal].
  - apply (Z.div_unique _ _ _ (16 * nibble c + nibble d)); lia.
  - apply (Z.mod_unique _ _ (16 * nibble a + nibble b)); lia.
Qed.

Lemma from_hex_concat (P : list str) :
  Forall padded P ->
  JS.from_hex (concat P) = flat_map hextet_bytes (map group_value P).
Proof.
  induction 1 as [|g P Hg _ IH]; [reflexivity|].
  cbn [concat map flat_map]. now rewrite from_hex_padded, IH.
Qed.

Lemma padded_no_colon (P : list str) :
  Forall padded P -> Forall (fun g => ~ In ":"%char g) P.
Proof. apply Forall_impl. intros g [_ H]. now apply is_hex_not_colon. Qed.

(** The last two steps of [v6StringToBuffer]. *)
Lemma buffer_of_groups (P : list str) :
  P <> [] -> Forall padded P ->
  JS.from_hex (JS.join [] (JS.split ":" (JS.join [":"%char] P)))
  = flat_map hextet_bytes (map group_value P).
Proof.
  intros Hne HP. rewrite split_join by (try apply padded_no_colon; assumption).
  rewrite join_empty_sep. now apply from_hex_concat.
Qed.

Lemma hextet_bytes_length (vs : list Z) :
  length (flat_map hextet_bytes vs) = (2 * length vs)%nat.
Proof. induction vs as [|v vs IH]; simpl; lia. Qed.

(** *** [expandV6] *)

Lemma expandV6_unfold (address : str) :
  expandV6 address =
  let octets := JS.split ":" address in
  let octets := if JS.startsWith (lit "::") address then tl octets else octets in
  JS.join [":"%char] (flat_map (expand_one (length octets)) octets).
Proof. reflexivity. Qed.

Lemma expand_groups (n : nat) (X : list str) :
  Forall hex_group X -> flat_map (expand_one n) X = map pad4 X.
Proof.
  induction 1 as [|g X [L _] _ IH]; [reflexivity|].
  cbn [flat_map map]. rewrite IH. unfold expand_one.
  destruct g; [simpl in L; lia|reflexivity].
Qed.

Lemma group_head (g : str) (t : str) :
  hex_group g -> exists c r, g ++ t = c :: r /\ is_hex c = true.
Proof.
  intros [L H]. destruct g as [|c g]; [simpl in L; lia|].
  cbn [forallb] in H. apply andb_true_iff in H. destruct H as [Hc _].
  now exists c, (g ++ t).
Qed.

Lemma groups_no_colon' (X : list str) :
  Forall hex_group X -> Forall (fun g => ~ In ":"%char g) X.
Proof. apply Forall_impl. intros g [_ H]. now apply is_hex_not_colon. Qed.

Lemma not_elided_at_head (g : str) (X : list str) :
  hex_group g -> JS.startsWith (lit "::") (JS.join [":"%char] (g :: X)) = false.
Proof.
  intros Hg. rewrite join_cons_tail.
  match goal with
  | |- context [g ++ ?t] =>
      destruct (group_head g t Hg) as (c & r & E & Hc); rewrite E
  end.
  cbn [lit list_ascii_of_string JS.startsWith].
  destruct (Ascii.eqb_spec ":" c); [subst; discriminate|reflexivity].
Qed.

Lemma expandV6_full (gs : list str) :
  gs <> [] -> Forall hex_group gs ->
  expandV6 (JS.join [":"%char] gs) = JS.join [":"%char] (map pad4 gs).
Proof.
  intros Hne H. rewrite expandV6_unfold. cbv zeta.
  rewrite split_join by (try apply groups_no_colon'; assumption).
  destruct gs as [|g gs]; [congruence|].
  rewrite not_elided_at_head by now inversion H.
  now rewrite expand_groups.
Qed.

Lemma expandV6_elided (pre post : list str) :
  Forall hex_group pre -> Forall hex_group post -> post <> [] ->
  expandV6 (JS.join [":"%char] pre ++ lit "::" ++ JS.join [":"%char] post)
  = JS.join [":"%char]
      (map pad4 pre ++ repeat Z4 (8 - length pre - length post) ++ map pad4 post).
Proof.
  intros Hpre Hpost Hne. rewrite expandV6_unfold. cbv zeta.
  pose proof (groups_no_colon' pre Hpre) as Npre.
  pose proof (groups_no_colon' post Hpost) as Npost.
  destruct pre as [|p pre].
  - change (JS.join [":"%char] [] ++ lit "::" ++ JS.join [":"%char] post)
      with (":"%char :: ":"%char :: JS.join [":"%char] post).
    cbn [JS.split JS.startsWith lit list_ascii_of_string Ascii.eqb Bool.eqb andb tl].
    rewrite split_join by assumption.
    cbn [flat_map length]. rewrite expand_groups by assumption.
    unfold expand_one. cbn [length Nat.eqb negb map app].
    fold Z4. do 3 f_equal. lia.
  - assert (E : JS.join [":"%char] (p :: pre) ++ lit "::" ++ JS.join [":"%char] post
                = JS.join [":"%char] ((p :: pre) ++ [] :: post)).
    { rewrite join_gap, concat_colons by discriminate.
      destruct post; [congruence|]. now rewrite <- app_assoc. }
    rewrite E. rewrite split_join.
    2:{ discriminate. }
    2:{ apply Forall_app. split; [assumption|]. constructor; [tauto|assumption]. }
    change ((p :: pre) ++ [] :: post) with (p :: (pre ++ [] :: post)).
    rewrite not_elided_at_head by now inversion Hpre.
    change (p :: (pre ++ [] :: post)) with ((p :: pre) ++ [] :: post).
    rewrite flat_map_app, (expand_groups _ (p :: pre) Hpre).
    match goal with
    | |- context [flat_map ?F ([] :: post)] =>
        change (flat_map F ([] :: post)) with (F [] ++ flat_map F post)
    end.
    rewrite (expand_groups _ post Hpost).
    unfold expand_one at 1. cbn [length Nat.eqb negb].
    fold Z4. do 4 f_equal. rewrite length_app. cbn [length]. lia.
Qed.

End ParseV6.

(** ** The address that [parse] builds from an IPv6 text *)

Section ParseText.

Lemma join_chars (P : ascii -> Prop) (sep : str) (X : list str) :
  Forall P sep -> Forall (Forall P) X -> Forall P (JS.join sep X).
Proof.
  intros Hs. induction 1 as [|g X Hg _ IH]; [constructor|].
  rewrite join_cons_tail. apply Forall_app. split; [assumption|].
  destruct X; [constructor|]. apply Forall_app. now split.
Qed.

Lemma hex_group_chars (X : list str) :
  Forall hex_group X -> Forall (Forall v6_char) X.
Proof.
  apply Forall_impl. intros g [_ H]. apply Forall_forall. intros c Hc.
  left. rewrite forallb_forall in H. now apply H.
Qed.

Lemma colon_char : Forall v6_char [":"%char].
Proof. constructor; [now right|constructor]. Qed.

Lemma v6_text_chars (a : str) : v6_text a -> Forall v6_char a.
Proof.
  intros [gs _ H|pre post Hpre Hpost _ _].
  - apply join_chars; [exact colon_char|now apply hex_group_chars].
  - apply Forall_app. split; [|apply Forall_app; split].
    + apply join_chars; [exact colon_char|now apply hex_group_chars].
    + constructor; [now right|exact colon_char].
    + apply join_chars; [exact colon_char|now apply hex_group_chars].
Qed.

Lemma v6_text_colon (a : str) : v6_text a -> In ":"%char a.
Proof.
  intros [gs L H|pre post _ _ _ _].
  - destruct gs as [|g [|g' gs]]; try discriminate.
    rewrite join_cons_tail. apply in_or_app. right. now left.
  - apply in_or_app. right. now left.
Qed.

Lemma v6_text_not_zero (a : str) : v6_text a -> a <> lit "::".
Proof.
  intros [gs L H|pre post _ Hpost Hne _] E.
  - destruct gs as [|g gs]; [discriminate|]. rewrite join_cons_tail in E.
    inversion H as [|? ? Hg _]; subst.
    match type of E with
    | g ++ ?t = _ => destruct (group_head g t Hg) as (c & r & Q & Hc)
    end.
    rewrite Q in E. injection E as -> _. discriminate.
  - apply (f_equal (@length ascii)) in E.
    rewrite !length_app in E. destruct post as [|q post]; [congruence|].
    rewrite join_cons_tail, length_app in E.
    inversion Hpost as [|? ? [Lq _] _]; subst. simpl in E. lia.
Qed.

Lemma v6_char_cases (c : ascii) :
  v6_char c -> c <> "["%char /\ c <> "."%char /\ c <> "%"%char.
Proof.
  intros [H|H]; repeat split; intros E; subst; try discriminate;
    vm_compute in H; discriminate.
Qed.

Lemma strip_brackets_plain (a : str) : Forall v6_char a -> strip_brackets a = a.
Proof.
  intros H. destruct a as [|c a]; [reflexivity|].
  inversion H as [|? ? Hc _]; subst. apply v6_char_cases in Hc.
  unfold strip_brackets. destruct (Ascii.eqb_spec c "["); [tauto|reflexivity].
Qed.

Lemma digits_then_no_dot (n : nat) (s : str) (k : str -> bool) :
  ~ In "."%char s -> Re.digits_then n s (fun s1 => Re.dot_then s1 k) = false.
Proof.
  revert s. induction n as [|n IH]; intros s N; [reflexivity|].
  destruct s as [|c s]; [reflexivity|]. cbn [Re.digits_then].
  rewrite IH by (intros Q; apply N; now right).
  assert (D : Re.dot_then s k = false).
  { destruct s as [|d s]; [reflexivity|]. cbn [Re.dot_then].
    destruct (Ascii.eqb_spec d "."); [|reflexivity].
    subst. exfalso. apply N. right. now left. }
  rewrite D. apply andb_false_r.
Qed.

(** A text without a dot is not of IPv4 shape. *)
Lemma isIPv4_no_dot (a : str) : ~ In "."%char a -> isIPv4 a = false.
Proof.
  unfold isIPv4. induction a as [|c a IH]; intros N.
  - reflexivity.
  - cbn [Re.test]. rewrite IH by (intros Q; apply N; now right).
    unfold Re.v4_shape_at. now rewrite digits_then_no_dot.
Qed.

Lemma isIPv6_colon (a : str) : In ":"%char a -> isIPv6 a = true.
Proof.
  unfold isIPv6. induction a as [|c a IH]; intros H; [destruct H|].
  cbn [Re.test Re.v6_shape_at]. destruct H as [->|H].
  - reflexivity.
  - rewrite IH by assumption. apply orb_true_r.
Qed.

Lemma v6_text_no (a : str) (c : ascii) :
  v6_text a -> c = "."%char \/ c = "%"%char -> ~ In c a.
Proof.
  intros H Hc Hin. apply v6_text_chars in H. rewrite Forall_forall in H.
  apply H, v6_char_cases in Hin. destruct Hc; tauto.
Qed.

Lemma v6StringToBuffer_plain (a : str) :
  ~ In "%"%char a ->
  v6StringToBuffer a =
  Ok (JS.from_hex (JS.join [] (JS.split ":" (expandV6 a))), None).
Proof.
  intros H. apply has_false in H. unfold v6StringToBuffer. now rewrite H.
Qed.

(** The address of an IPv6 text whose expansion is the groups [P]. *)
Lemma parse_groups (a : str) (P : list str) :
  v6_text a -> expandV6 a = JS.join [":"%char] P ->
  P <> [] -> Forall padded P ->
  exists v4,
    parse a = Ok {| m_bytes := flat_map hextet_bytes (map group_value P);
                    m_isV4 := v4; m_zone := None |} /\
    (v4 = true <->
     firstn 12 (flat_map hextet_bytes (map group_value P)) = mappedV4Prefix).
Proof.
  intros Ha E Hne HP.
  pose proof (v6_text_no a "%" Ha ltac:(tauto)) as Npc.
  pose proof (strip_brackets_plain a (v6_text_chars a Ha)) as S.
  destruct (parse_v6_path a) as (bytes & zone & v4 & E1 & E2 & E3);
    rewrite ?S.
  - now apply v6_text_not_zero.
  - apply isIPv4_no_dot. apply (v6_text_no a "." Ha). tauto.
  - now apply isIPv6_colon, v6_text_colon.
  - rewrite split_single by assumption. simpl. lia.
  - rewrite S, v6StringToBuffer_plain, E, buffer_of_groups in E1 by assumption.
    injection E1 as <- <-. now exists v4.
Qed.

Lemma map_value_pad4 (X : list str) :
  Forall hex_group X -> map group_value (map pad4 X) = map group_value X.
Proof.
  induction 1 as [|g X Hg _ IH]; [reflexivity|].
  cbn [map]. rewrite IH. f_equal. now apply pad4_group.
Qed.

Lemma map_pad4_padded (X : list str) :
  Forall hex_group X -> Forall padded (map pad4 X).
Proof.
  intros H. apply Forall_map. revert H. apply Forall_impl.
  intros g Hg. now apply pad4_group.
Qed.

Lemma map_value_zeros (n : nat) : map group_value (repeat Z4 n) = repeat 0 n.
Proof. induction n as [|n IH]; [reflexivity|]. cbn [repeat map]. now rewrite IH. Qed.

Lemma parse_full (gs : list str) :
  length gs = 8%nat -> Forall hex_group gs ->
  let vs := map group_value gs in
  exists v4,
    parse (JS.join [":"%char] gs) =
      Ok {| m_bytes := flat_map hextet_bytes vs; m_isV4 := v4; m_zone := None |} /\
    (v4 = true <-> firstn 12 (flat_map hextet_bytes vs) = mappedV4Prefix).
Proof.
  intros L H. cbv zeta. rewrite <- (map_value_pad4 gs H).
  apply parse_groups.
  - now constructor.
  - apply expandV6_full; [|assumption]. intros ->. discriminate.
  - intros E. apply map_eq_nil in E. subst. discriminate.
  - now apply map_pad4_padded.
Qed.

Lemma parse_elided (pre post : list str) :
  Forall hex_group pre -> Forall hex_group post -> post <> [] ->
  (length pre + length post <= 7)%nat ->
  let vs := map group_value pre
              ++ repeat 0 (8 - length pre - length post)
              ++ map group_value post in
  exists v4,
    parse (JS.join [":"%char] pre ++ lit "::" ++ JS.join [":"%char] post) =
      Ok {| m_bytes := flat_map hextet_bytes vs; m_isV4 := v4; m_zone := None |} /\
    (v4 = true <-> firstn 12 (flat_map hextet_bytes vs) = mappedV4Prefix).
Proof.
  intros Hpre Hpost Hne L. cbv zeta.
  rewrite <- (map_value_pad4 pre Hpre), <- (map_value_pad4 post Hpost).
  rewrite <- (map_value_zeros (8 - length pre - length post)), <- !map_app.
  apply parse_groups.
  - now constructor.
  - now apply expandV6_elided.
  - intros E. apply app_eq_nil in E. destruct E as [_ E].
    apply app_eq_nil in E. destruct E as [_ E].
    apply map_eq_nil in E. congruence.
  - apply Forall_app. split; [now apply map_pad4_padded|].
    apply Forall_app. split; [|now apply map_pad4_padded].
    apply Forall_forall. intros g Hg. apply repeat_spec in Hg. subst.
    exact (proj1 Z4_padded).
Qed.

(** The buffer that [v6StringToBuffer] decodes for an IPv6 text. *)
Lemma v6_text_buffer (a : str) :
  v6_text a ->
  length (JS.from_hex (JS.join [] (JS.split ":" (expandV6 a)))) = 16%nat.
Proof.
  intros [gs L H|pre post Hpre Hpost Hne L].
  - rewrite expandV6_full; [|intros ->; discriminate|assumption].
    rewrite buffer_of_groups.
    + now rewrite hextet_bytes_length, !length_map, L.
    + intros E. apply map_eq_nil in E. subst. discriminate.
    + now apply map_pad4_padded.
  - rewrite expandV6_elided by assumption.
    rewrite buffer_of_groups.
    + rewrite hextet_bytes_length, length_map, !length_app, !length_map,
        repeat_length. lia.
    + intros E. apply app_eq_nil in E. destruct E as [_ E].
      apply app_eq_nil in E. destruct E as [_ E].
      apply map_eq_nil in E. congruence.
    + apply Forall_app. split; [now apply map_pad4_padded|].
      apply Forall_app. split; [|now apply map_pad4_padded].
      apply Forall_forall. intros g Hg. apply repeat_spec in Hg. subst.
      exact (proj1 Z4_padded).
Qed.

(** An IPv6 text with a zone after it. *)
Lemma v6StringToBuffer_zone (a zone : str) :
  ~ In "%"%char a -> ~ In "%"%char zone ->
  v6StringToBuffer (a ++ "%"%char :: zone) =
  Ok (JS.from_hex (JS.join [] (JS.split ":" (expandV6 a))), Some zone).
Proof.
  intros Ha Hz. unfold v6StringToBuffer.
  assert (H : has "%" (a ++ "%"%char :: zone) = true)
    by (apply has_In, in_or_app; right; now left).
  rewrite H, split_app, split_single by assumption. reflexivity.
Qed.

End ParseText.

(** ** Hextets and their octets *)

Section HextetBytes.

Lemma hextet_bytes_octets (gs : list Z) :
  Forall hextet gs -> Forall octet (flat_map hextet_bytes gs).
Proof.
  induction 1 as [|v gs Hv _ IH]; [constructor|].
  unfold hextet in Hv. cbn [flat_map hextet_bytes app].
  constructor; [|constructor; [|assumption]]; unfold octet.
  - split; [apply Z.div_pos; lia|apply Z.div_lt_upper_bound; lia].
  - apply Z.mod_pos_bound. lia.
Qed.

Lemma hextets_bytes (gs : list Z) : hextets (flat_map hextet_bytes gs) = gs.
Proof.
  induction gs as [|v gs IH]; [reflexivity|].
  cbn [flat_map hextet_bytes app hextets]. rewrite IH. f_equal.
  pose proof (Z.div_mod v 256). lia.
Qed.

(** The mapped prefix in the octets is the mapped prefix in the hextets. *)
Lemma mapped_hextets (gs : list Z) :
  firstn 12 (flat_map hextet_bytes gs) = mappedV4Prefix ->
  firstn 6 gs = [0; 0; 0; 0; 0; 65535].
Proof.
  intros H.
  do 6 (destruct gs as [|? gs]; [discriminate H|]).
  cbn [flat_map hextet_bytes app firstn] in H.
  change mappedV4Prefix with [0; 0; 0; 0; 0; 0; 0; 0; 0; 0; 255; 255] in H.
  repeat match type of H with
         | _ :: _ :: _ = _ :: _ :: _ =>
             apply cons_inj in H; destruct H as [? H];
             apply cons_inj in H; destruct H as [? H]
         end.
  cbn [firstn]. repeat f_equal.
  all: match goal with
       | |- ?v = _ => pose proof (Z.div_mod v 256); lia
       end.
Qed.

Lemma map_value_text (gs : list Z) :
  Forall hextet gs -> map group_value (map hextet_text gs) = gs.
Proof.
  induction 1 as [|v gs Hv _ IH]; [reflexivity|].
  cbn [map]. rewrite IH. f_equal. now apply hextet_text_shape.
Qed.

Lemma text_groups (gs : list Z) :
  Forall hextet gs -> Forall hex_group (map hextet_text gs).
Proof.
  intros H. apply Forall_map. revert H. apply Forall_impl.
  intros v Hv. now apply hextet_text_shape.
Qed.

Lemma zero_run_fits (gs : list Z) (i k : nat) :
  zero_run gs i k -> (k = 0 \/ i + k <= length gs)%nat.
Proof.
  unfold zero_run. intros E. apply (f_equal (@length Z)) in E.
  rewrite length_firstn, length_skipn, repeat_length in E. lia.
Qed.

End HextetBytes.

(** ** Every address has its elision or no run at all *)

Section Elision.

Variable gs : list Z.

Lemma zero_run_dec (i k : nat) : zero_run gs i k \/ ~ zero_run gs i k.
Proof.
  unfold zero_run.
  destruct (list_eq_dec Z.eq_dec (firstn k (skipn i gs)) (repeat 0 k)); tauto.
Qed.

Lemma run_below_dec (k n : nat) :
  (exists i, (i < n)%nat /\ zero_run gs i k) \/
  (forall i, (i < n)%nat -> ~ zero_run gs i k).
Proof.
  induction n as [|n [(i & Hi & R)|N]].
  - right. intros i Hi. lia.
  - left. exists i. split; [lia|assumption].
  - destruct (zero_run_dec n k) as [R|R].
    + left. exists n. split; [lia|assumption].
    + right. intros i Hi. destruct (Nat.eq_dec i n) as [->|]; [assumption|].
      apply N. lia.
Qed.

Lemma run_dec (k : nat) :
  (exists i, zero_run gs i (S k)) \/ (forall i, ~ zero_run gs i (S k)).
Proof.
  destruct (run_below_dec (S k) (S (length gs))) as [(i & _ & R)|N].
  - left. now exists i.
  - right. intros i R. apply (N i); [|assumption].
    apply zero_run_fits in R. lia.
Qed.

Lemma leftmost_run (k n : nat) :
  (exists i, (i < n)%nat /\ zero_run gs i k) ->
  exists i, zero_run gs i k /\ forall j, (j < i)%nat -> ~ zero_run gs j k.
Proof.
  induction n as [|n IH]; intros (i & Hi & R); [lia|].
  destruct (run_below_dec k n) as [E|N]; [now apply IH|].
  assert (i = n) as ->.
  { destruct (Nat.eq_dec i n); [assumption|]. destruct (N i); [lia|assumption]. }
  exists n. split; assumption.
Qed.

Lemma longest_run (d k : nat) :
  (length gs - S k <= d)%nat -> (exists i, zero_run gs i (S k)) ->
  exists k', (k <= k')%nat /\ (exists i, zero_run gs i (S k')) /\
             forall i, ~ zero_run gs i (S (S k')).
Proof.
  revert k. induction d as [|d IH]; intros k Hd Q.
  - exists k. split; [lia|]. split; [assumption|].
    intros i R. apply zero_run_fits in R.
    destruct Q as (j & Rj). apply zero_run_fits in Rj. lia.
  - destruct (run_dec (S k)) as [Q'|N].
    + destruct (IH (S k)) as (k' & Hk & Q'' & N); [lia|assumption|].
      exists k'. split; [lia|]. now split.
    + exists k. split; [lia|]. now split.
Qed.

(** The two cases of the compressed form cover every list of hextets. *)
Lemma elision_total :
  (forall i, ~ zero_run gs i 2) \/ exists pre k post, elision gs pre k post.
Proof.
  destruct (run_dec 1) as [Q|N]; [right|now left].
  destruct (longest_run (length gs) 1) as (k & Hk & (i0 & R0) & Long);
    [lia|assumption|].
  destruct (leftmost_run (S k) (S i0)) as (i & R & Left).
  { exists i0. split; [lia|assumption]. }
  exists (firstn i gs), (S k), (skipn (i + S k) gs).
  pose proof (zero_run_fits _ _ _ R) as F.
  split.
  - rewrite <- (firstn_skipn i gs) at 1. f_equal.
    rewrite <- (firstn_skipn (S k) (skipn i gs)) at 1.
    unfold zero_run in R. rewrite R. f_equal.
    rewrite skipn_skipn. f_equal. lia.
  - lia.
  - exact Long.
  - intros j Hj. apply Left. rewrite length_firstn in Hj. lia.
Qed.

End Elision.

(** The hextets of [2607:f8b0:4009:805:0:0:0:200e] and their run of three
    zeros. *)
Lemma elision_example :
  elision [9735; 63664; 16393; 2053; 0; 0; 0; 8206]
    [9735; 63664; 16393; 2053] 3 [8206].
Proof.
  split; [reflexivity|lia| |].
  - intros i E. pose proof (zero_run_fits _ _ _ E) as B. simpl in B.
    do 5 (destruct i as [|i]; [discriminate E|]). lia.
  - intros i Hi E. simpl in Hi.
    do 4 (destruct i as [|i]; [discriminate E|]). lia.
Qed.

(** ** C7: the run that the default form leaves out *)

Lemma toString_v6 (ip : IP) (e : encoding) (s : str) :
  m_isV4 ip = false ->
  v6ToString (m_bytes ip) (is_expanded e) = Ok s ->
  toString ip e = Ok (s ++ zone_suffix ip).
Proof.
  intros H4 H. unfold toString, zone_suffix. rewrite H4, H.
  destruct (m_zone ip) as [[|c z]|]; cbn [bind]; now rewrite ?app_nil_r.
Qed.

(** C7. For an IPv6 address of sixteen octets the default form leaves out
    the longest run of two or more zero hextets, the leftmost one among
    runs of that length, and writes the hextets before and after it;
    without such a run it writes all eight (one of the two cases holds
    for every address, [elision_total]). Between the two sides stand two
    colons, or one colon when the run ends the address and does not begin
    it; a zone follows after [%]. [toString()] of
    [parse("2607:f8b0:4009:805:0:0:0:200e")] is
    ["2607:f8b0:4009:805::200e"]. *)
Theorem default_form_elides_leftmost_longest_run (ip : IP) :
  m_isV4 ip = false ->
  length (m_bytes ip) = 16%nat -> Forall octet (m_bytes ip) ->
  let gs := hextets (m_bytes ip) in
  ((forall i, ~ zero_run gs i 2) ->
   toString ip Default = Ok (colons gs ++ zone_suffix ip)) /\
  (forall pre k post,
     elision gs pre k post ->
     toString ip Default =
       Ok ((colons pre ++ marker pre post ++ colons post) ++ zone_suffix ip)) /\
  (exists ip',
     parse (lit "2607:f8b0:4009:805:0:0:0:200e") = Ok ip' /\
     toString ip' Default = Ok (lit "2607:f8b0:4009:805::200e")).
Proof.
  intros H4 L O. cbv zeta. split; [|split].
  - intros N. apply toString_v6; [assumption|]. now apply v6ToString_no_run.
  - intros pre k post E. apply toString_v6; [assumption|].
    now apply (v6ToString_run _ L O pre post k).
  - eexists. split; vm_compute; reflexivity.
Qed.

Lemma default_form_elides_leftmost_longest_run_example :
  toString {| m_bytes := [38; 7; 248; 176; 64; 9; 8; 5; 0; 0; 0; 0; 0; 0; 32; 14];
              m_isV4 := false; m_zone := None |} Default
  = Ok (lit "2607:f8b0:4009:805::200e").
Proof.
  refine (proj1 (proj2 (default_form_elides_leftmost_longest_run
            {| m_bytes := [38; 7; 248; 176; 64; 9; 8; 5; 0; 0; 0; 0; 0; 0; 32; 14];
               m_isV4 := false; m_zone := None |} eq_refl eq_refl _))
          [9735; 63664; 16393; 2053] 3%nat [8206] elision_example).
  repeat constructor; unfold octet; lia.
Defined.

(** ** C1: from a compressed text and back *)

(** C1, as stated, fails on a compressed text in the mapped prefix: the
    address is a v4 address and is written with dots. *)
Lemma mapped_text_is_written_dotted :
  exists ip,
    parse (lit "::ffff:c0a8:201") = Ok ip /\
    toString ip Default = Ok (lit "192.168.2.1") /\
    toString ip Expanded = Ok (lit "192.168.2.1").
Proof. eexists. repeat split; vm_compute; reflexivity. Qed.

Section RoundTrip.

Variable gs : list Z.
Hypothesis eight : length gs = 8%nat.
Hypothesis range : Forall hextet gs.
Hypothesis not_mapped : firstn 6 gs <> [0; 0; 0; 0; 0; 65535].

Let bytes : JS.Buffer := flat_map hextet_bytes gs.

Lemma bytes_sixteen : length bytes = 16%nat.
Proof. unfold bytes. now rewrite hextet_bytes_length, eight. Qed.

Lemma formats_of_bytes (v4 : bool) :
  (v4 = true <-> firstn 12 bytes = mappedV4Prefix) ->
  let ip := {| m_bytes := bytes; m_isV4 := v4; m_zone := None |} in
  toString ip Expanded = Ok (colons gs) /\
  ((forall i, ~ zero_run gs i 2) -> toString ip Default = Ok (colons gs)) /\
  (forall pre k post,
     elision gs pre k post ->
     toString ip Default = Ok (colons pre ++ marker pre post ++ colons post)).
Proof.
  intros M. cbv zeta.
  assert (v4 = false) as ->.
  { destruct v4; [|reflexivity]. exfalso. apply not_mapped.
    apply mapped_hextets. now apply M. }
  pose proof bytes_sixteen as L.
  pose proof (hextet_bytes_octets gs range) as O. fold bytes in O.
  pose proof (hextets_bytes gs) as Hg. fold bytes in Hg.
  split; [|split].
  - rewrite (toString_v6 _ Expanded (colons gs)); try reflexivity.
    + cbn [zone_suffix m_zone]. now rewrite app_nil_r.
    + cbn [m_bytes is_expanded]. rewrite v6ToString_expanded by assumption.
      now rewrite Hg.
  - intros N. rewrite (toString_v6 _ Default (colons gs)); try reflexivity.
    + cbn [zone_suffix m_zone]. now rewrite app_nil_r.
    + cbn [m_bytes is_expanded].
      pose proof (v6ToString_no_run bytes L O) as X. rewrite Hg in X.
      now apply X.
  - intros pre k post E.
    rewrite (toString_v6 _ Default (colons pre ++ marker pre post ++ colons post));
      try reflexivity.
    + cbn [zone_suffix m_zone]. now rewrite app_nil_r.
    + cbn [m_bytes is_expanded].
      apply (v6ToString_run _ L O pre post k). now rewrite Hg.
Qed.

Lemma round_trip_full :
  (forall i, ~ zero_run gs i 2) ->
  exists ip,
    parse (colons gs) = Ok ip /\
    toString ip Default = Ok (colons gs) /\
    toString ip Expanded = Ok (colons gs).
Proof.
  intros N.
  destruct (parse_full (map hextet_text gs)) as (v4 & P & M).
  - now rewrite length_map.
  - now apply text_groups.
  - rewrite map_value_text in P, M by assumption. fold bytes in P, M.
    destruct (formats_of_bytes v4 M) as (F1 & F2 & _).
    eexists. split; [exact P|]. split; [now apply F2|exact F1].
Qed.

Lemma round_trip_elided (pre post : list Z) (k : nat) :
  elision gs pre k post -> pre = [] \/ post <> [] ->
  let a := colons pre ++ lit "::" ++ colons post in
  exists ip,
    parse a = Ok ip /\
    toString ip Default = Ok a /\
    toString ip Expanded = Ok (colons gs).
Proof.
  intros E Hp. cbv zeta. pose proof E as [Es K _ _].
  assert (L : (length pre + k + length post = 8)%nat)
    by (rewrite <- eight, Es, !length_app, repeat_length; lia).
  destruct post as [|q post].
  - destruct Hp as [->|Hp]; [|congruence].
    cbn [length] in L. assert (k = 8%nat) by lia. subst k.
    cbn [app] in Es. rewrite app_nil_r in Es.
    exists new_IP. subst gs. repeat split; vm_compute; reflexivity.
  - assert (Hr : Forall hextet pre /\ Forall hextet (q :: post)).
    { pose proof range as R. rewrite Es in R.
      apply Forall_app in R. destruct R as [R1 R].
      apply Forall_app in R. tauto. }
    destruct Hr as [Rpre Rpost].
    destruct (parse_elided (map hextet_text pre) (map hextet_text (q :: post)))
      as (v4 & P & M).
    + now apply text_groups.
    + now apply text_groups.
    + discriminate.
    + rewrite !length_map. lia.
    + rewrite !length_map, !map_value_text in P, M by assumption.
      replace (8 - length pre - length (q :: post))%nat with k in P, M by lia.
      rewrite <- Es in P, M. fold bytes in P, M.
      destruct (formats_of_bytes v4 M) as (F1 & _ & F3).
      eexists. split; [exact P|]. split; [|exact F1].
      rewrite (F3 pre k (q :: post) E). destruct pre; reflexivity.
Qed.

End RoundTrip.

(** C1, amended. Let [gs] be eight hextets outside the mapped prefix
    [0:0:0:0:0:ffff]. Their compressed text is the eight hextets in hex
    when no two zero hextets are neighbours, and otherwise the hextets
    before and after the leftmost longest zero run with [::] between
    them. When the run does not end the address, or is the whole address,
    [parse] of the compressed text gives an address whose [toString()] is
    that text and whose [toString('expanded')] is the eight hextets. *)
Theorem compressed_text_round_trip (gs : list Z) :
  length gs = 8%nat -> Forall hextet gs ->
  firstn 6 gs <> [0; 0; 0; 0; 0; 65535] ->
  ((forall i, ~ zero_run gs i 2) ->
   exists ip,
     parse (colons gs) = Ok ip /\
     toString ip Default = Ok (colons gs) /\
     toString ip Expanded = Ok (colons gs)) /\
  (forall pre k post,
     elision gs pre k post -> pre = [] \/ post <> [] ->
     exists ip,
       parse (colons pre ++ lit "::" ++ colons post) = Ok ip /\
       toString ip Default = Ok (colons pre ++ lit "::" ++ colons post) /\
       toString ip Expanded = Ok (colons gs)).
Proof.
  intros L R M. split.
  - now apply round_trip_full.
  - intros pre k post E Hp. now apply (round_trip_elided gs L R M pre post k).
Qed.

Lemma compressed_text_round_trip_example :
  exists ip,
    parse (colons [9735; 63664; 16393; 2053] ++ lit "::" ++ colons [8206]) = Ok ip /\
    toString ip Default =
      Ok (colons [9735; 63664; 16393; 2053] ++ lit "::" ++ colons [8206]) /\
    toString ip Expanded = Ok (colons [9735; 63664; 16393; 2053; 0; 0; 0; 8206]).
Proof.
  refine (proj2 (compressed_text_round_trip
                   [9735; 63664; 16393; 2053; 0; 0; 0; 8206] eq_refl _ _)
            [9735; 63664; 16393; 2053] 3%nat [8206] elision_example _).
  - repeat constructor; unfold hextet; lia.
  - discriminate.
  - right. discriminate.
Defined.

(** ** C2: sixteen octets *)

(** C2, as stated, fails on a text of three groups: six octets. *)
Lemma parse_three_groups_six_octets :
  exists ip,
    parse (lit "1:2:3") = Ok ip /\ m_bytes ip = [0; 1; 0; 2; 0; 3].
Proof. eexists. split; vm_compute; reflexivity. Qed.

Lemma Ok_inj {A} (a b : A) : Ok a = Ok b -> a = b.
Proof. intros H. now injection H. Qed.

Lemma v4StringToBuffer_length (ip : str) : length (v4StringToBuffer ip) = 16%nat.
Proof.
  unfold v4StringToBuffer. rewrite copy_length; rewrite copy_length;
    simpl; lia.
Qed.

(** C2, amended. The buffer has sixteen octets in every address that
    [parse] builds from ["::"], from a text of IPv4 shape or from an IPv6
    text (eight groups of one to four hex digits, or fewer with one [::]
    that is followed by a group), alone or with a zone after it, with or
    without brackets around the whole, and in every address that
    [fromDecimal] builds from a value in [0, 2^128). *)
Theorem sixteen_octets :
  (forall s ip,
     parse s = Ok ip ->
     strip_brackets s = lit "::" \/ isIPv4 (strip_brackets s) = true
       \/ v6_text (strip_brackets s)
       \/ (exists a zone,
             strip_brackets s = a ++ "%"%char :: zone /\
             v6_text a /\ ~ In "%"%char zone) ->
     length (m_bytes ip) = 16%nat) /\
  (forall n forceV6 ip,
     0 <= n < 2 ^ 128 -> fromDecimal n forceV6 = Ok ip ->
     length (m_bytes ip) = 16%nat).
Proof.
  split.
  - intros s ip H Hs.
    destruct (JS.str_eqb (strip_brackets s) (lit "::")) eqn:E1.
    { unfold parse in H. rewrite E1 in H. injection H as <-. reflexivity. }
    destruct (isIPv4 (strip_brackets s)) eqn:E2.
    { unfold parse in H. rewrite E1, E2 in H. injection H as <-.
      apply v4StringToBuffer_length. }
    assert (N : strip_brackets s <> lit "::")
      by (intros E; apply str_eqb_eq in E; congruence).
    destruct Hs as [Hs|[Hs|[Hs|(a & zone & Hs & Ha & Hz)]]];
      [congruence|discriminate| |].
    + pose proof (v6_text_no _ "%" Hs ltac:(tauto)) as Npc.
      destruct (parse_v6_path s) as (bytes & z & v4 & B & P & _);
        try assumption.
      * now apply isIPv6_colon, v6_text_colon.
      * rewrite split_single by assumption. simpl. lia.
      * rewrite v6StringToBuffer_plain in B by assumption.
        apply Ok_inj in B. rewrite P in H. apply Ok_inj in H.
        rewrite <- H. unfold m_bytes.
        replace bytes with (fst (bytes, z)) by reflexivity. rewrite <- B.
        now apply v6_text_buffer.
    + pose proof (v6_text_no _ "%" Ha ltac:(tauto)) as Npc.
      destruct (parse_v6_path s) as (bytes & z & v4 & B & P & _);
        try assumption.
      * rewrite Hs. apply isIPv6_colon, in_or_app. left.
        now apply v6_text_colon.
      * rewrite Hs, split_app, split_single by assumption. simpl. lia.
      * rewrite Hs, v6StringToBuffer_zone in B by assumption.
        apply Ok_inj in B. rewrite P in H. apply Ok_inj in H.
        rewrite <- H. unfold m_bytes.
        replace bytes with (fst (bytes, z)) by reflexivity. rewrite <- B.
        now apply v6_text_buffer.
  - intros n f ip Hn H. destruct (fromDecimal_buffer n Hn) as (L & _ & _).
    unfold fromDecimal in H.
    destruct (_ && _) in H; injection H as <-; cbn [m_bytes]; [|exact L].
    rewrite copy_length; [exact L|lia].
Qed.

Lemma sixteen_octets_example :
  exists ip,
    parse (lit "[fe80::c71:69ab:9995:b5e0%eth0]") = Ok ip /\
    length (m_bytes ip) = 16%nat.
Proof.
  destruct (parse (lit "[fe80::c71:69ab:9995:b5e0%eth0]")) as [ip|m] eqn:E;
    [|vm_compute in E; discriminate E].
  exists ip. split; [reflexivity|].
  apply (proj1 sixteen_octets (lit "[fe80::c71:69ab:9995:b5e0%eth0]") ip E).
  right. right. right.
  exists (JS.join [":"%char] [lit "fe80"] ++ lit "::"
            ++ JS.join [":"%char] [lit "c71"; lit "69ab"; lit "9995"; lit "b5e0"]),
    (lit "eth0").
  split; [reflexivity|]. split.
  - constructor.
    + repeat constructor.
    + repeat constructor; simpl; lia.
    + discriminate.
    + simpl. lia.
  - intros H. simpl in H.
    repeat (destruct H as [H|H]; [discriminate H|]). exact H.
Defined.

(** * Further properties of the class *)

(** ** Decimal digits *)

Section Decimal.

Variable r : Z.
Hypothesis radix : 2 <= r <= 16.

Lemma digit_in_small (d : Z) :
  0 <= d < r -> JS.digit_in r (JS.digit_char d) = Some d.
Proof.
  intros H. pose proof (digit_in_char d ltac:(lia)) as E.
  unfold JS.digit_in in *. destruct (JS.digit_value (JS.digit_char d)) as [x|];
    [|discriminate].
  destruct (x <? 16); [|discriminate]. injection E as ->.
  destruct (Z.ltb_spec d r); [reflexivity|lia].
Qed.

Lemma digits_loop_S (f : nat) (n : Z) (acc : str) :
  JS.digits_loop r (S f) n acc =
  if n <? r then JS.digit_char n :: acc
  else JS.digits_loop r f (n / r) (JS.digit_char (n mod r) :: acc).
Proof. reflexivity. Qed.

Lemma digits_loop_acc (f : nat) (n : Z) (acc : str) :
  JS.digits_loop r f n acc = JS.digits_loop r f n [] ++ acc.
Proof.
  revert n acc. induction f as [|f IH]; intros n acc; [reflexivity|].
  rewrite !digits_loop_S. destruct (n <? r); [reflexivity|].
  rewrite IH, (IH _ [_]), <- app_assoc. reflexivity.
Qed.

(** Reading back the digits that were written. *)
Lemma read_digits_loop (f : nat) (n : Z) (rest : str) (seen : bool) :
  0 <= n < r ^ Z.of_nat (S f) ->
  JS.read_digits r (JS.digits_loop r (S f) n [] ++ rest) 0 seen
  = JS.read_digits r rest n true.
Proof.
  revert n rest seen. induction f as [|f IH]; intros n rest seen Hn.
  - change (r ^ Z.of_nat 1) with (r ^ 1) in Hn. rewrite Z.pow_1_r in Hn.
    rewrite digits_loop_S. destruct (Z.ltb_spec n r); [|lia].
    cbn [app JS.read_digits]. rewrite digit_in_small by lia.
    f_equal; lia.
  - rewrite digits_loop_S. destruct (Z.ltb_spec n r).
    + cbn [app JS.read_digits]. rewrite digit_in_small by lia. f_equal; lia.
    + rewrite digits_loop_acc, <- app_assoc, IH.
      * cbn [app JS.read_digits].
        rewrite digit_in_small by (apply Z.mod_pos_bound; lia).
        f_equal. pose proof (Z.div_mod n r). lia.
      * rewrite (Nat2Z.inj_succ (S f)), Z.pow_succ_r in Hn by lia.
        split; [apply Z.div_pos; lia|].
        apply Z.div_lt_upper_bound; lia.
Qed.

Lemma digits_loop_length_r (f : nat) (k : nat) (n : Z) (acc : str) :
  0 <= n < r ^ Z.of_nat (S k) ->
  (length (JS.digits_loop r f n acc) <= S k + length acc)%nat.
Proof.
  revert k n acc. induction f as [|f IH]; intros k n acc Hn.
  - simpl. lia.
  - cbn [JS.digits_loop]. destruct (Z.ltb_spec n r).
    + simpl. lia.
    + destruct k as [|k].
      { change (r ^ Z.of_nat 1) with (r ^ 1) in Hn. rewrite Z.pow_1_r in Hn. lia. }
      etransitivity; [apply (IH k)|simpl; lia].
      rewrite (Nat2Z.inj_succ (S k)), Z.pow_succ_r in Hn by lia.
      split; [apply Z.div_pos; lia|].
      apply Z.div_lt_upper_bound; lia.
Qed.

Lemma digits_fuel_enough_r (n : Z) :
  0 <= n -> n < r ^ Z.of_nat (JS.digits_fuel n).
Proof.
  intros Hn. unfold JS.digits_fuel.
  rewrite Nat2Z.inj_succ, Z2Nat.id by apply Z.log2_nonneg.
  destruct (Z.eq_dec n 0) as [->|Hz].
  { apply Z.pow_pos_nonneg; [lia|]. simpl. lia. }
  assert (P : n < 2 ^ Z.succ (Z.log2 n)) by (apply Z.log2_spec; lia).
  eapply Z.lt_le_trans; [exact P|].
  apply Z.pow_le_mono_l. pose proof (Z.log2_nonneg n). lia.
Qed.

End Decimal.

Section DecimalText.

Lemma is_digit_char (d : Z) :
  0 <= d < 10 -> JS.is_digit (JS.digit_char d) = true.
Proof.
  intros H. assert (C : d = 0 \/ d = 1 \/ d = 2 \/ d = 3 \/ d = 4 \/ d = 5 \/
                        d = 6 \/ d = 7 \/ d = 8 \/ d = 9) by lia.
  repeat (destruct C as [->|C]; [reflexivity|]). now subst.
Qed.

Lemma digits_loop_digits (f : nat) (n : Z) (acc : str) :
  0 <= n -> forallb JS.is_digit acc = true ->
  forallb JS.is_digit (JS.digits_loop 10 f n acc) = true.
Proof.
  revert n acc. induction f as [|f IH]; intros n acc Hn Ha; simpl;
    [assumption|].
  destruct (Z.ltb_spec n 10).
  - simpl. rewrite is_digit_char by lia. assumption.
  - apply IH; [apply Z.div_pos; lia|].
    simpl. rewrite is_digit_char; [assumption|]. apply Z.mod_pos_bound. lia.
Qed.

Lemma dec_unfold (n : Z) :
  0 <= n -> dec n = JS.digits_loop 10 (S (Z.to_nat (Z.log2 n))) n [].
Proof.
  intros H. unfold dec, JS.int_toString. destruct (Z.ltb_spec n 0); [lia|].
  reflexivity.
Qed.

Lemma dec_digits (n : Z) : 0 <= n -> forallb JS.is_digit (dec n) = true.
Proof.
  intros H. rewrite dec_unfold by assumption.
  now apply digits_loop_digits.
Qed.

Lemma dec_nonempty (n : Z) : 0 <= n -> (1 <= length (dec n))%nat.
Proof.
  intros H. rewrite dec_unfold by assumption. cbn [JS.digits_loop].
  destruct (n <? 10); [simpl; lia|].
  etransitivity; [|apply digits_loop_longer]. simpl. lia.
Qed.

Lemma dec_length (k : nat) (n : Z) :
  0 <= n < 10 ^ Z.of_nat (S k) -> (length (dec n) <= S k)%nat.
Proof.
  intros H. rewrite dec_unfold by lia.
  pose proof (digits_loop_length_r 10 ltac:(lia)
                (S (Z.to_nat (Z.log2 n))) k n [] H) as L.
  cbn [length] in L. lia.
Qed.

Lemma dec_read (n : Z) (rest : str) (seen : bool) :
  0 <= n ->
  JS.read_digits 10 (dec n ++ rest) 0 seen = JS.read_digits 10 rest n true.
Proof.
  intros H. rewrite dec_unfold by assumption.
  apply read_digits_loop; [lia|]. split; [lia|].
  apply (digits_fuel_enough_r 10); lia.
Qed.

Lemma parseInt_digit_head (c : ascii) (s : str) :
  JS.is_digit c = true ->
  JS.parseInt (c :: s) 10 =
  match JS.read_digits 10 (c :: s) 0 false with
  | JS.NaN => JS.NaN
  | JS.Num z => JS.Num z
  end.
Proof.
  destruct c as [[] [] [] [] [] [] [] []]; intros H;
    try discriminate H; reflexivity.
Qed.

Lemma not_digit_stops (c : ascii) :
  JS.is_digit c = false -> JS.digit_in 10 c = None.
Proof.
  destruct c as [[] [] [] [] [] [] [] []]; intros H;
    try discriminate H; reflexivity.
Qed.

(** [parseInt] reads a written number back, up to the first character
    that is not a digit. *)
Lemma parseInt_dec (n : Z) (rest : str) :
  0 <= n -> ends_number rest -> JS.parseInt (dec n ++ rest) 10 = JS.Num n.
Proof.
  intros Hn Hr. pose proof (dec_digits n Hn) as D.
  pose proof (dec_nonempty n Hn) as L.
  destruct (dec n) as [|c t] eqn:E; [simpl in L; lia|].
  cbn [forallb] in D. apply andb_true_iff in D. destruct D as [Dc _].
  cbn [app]. rewrite parseInt_digit_head by assumption.
  change (c :: t ++ rest) with ((c :: t) ++ rest). rewrite <- E.
  rewrite dec_read by assumption.
  destruct rest as [|x rest]; [reflexivity|].
  cbn [JS.read_digits]. now rewrite not_digit_stops.
Qed.

End DecimalText.

(** ** Brackets around an address *)

Section Brackets.

Lemma strip_brackets_inside (a : str) :
  strip_brackets ("["%char :: a ++ ["]"%char]) = a.
Proof.
  unfold strip_brackets. rewrite Ascii.eqb_refl.
  change ("["%char :: a ++ ["]"%char]) with (("["%char :: a) ++ ["]"%char]).
  rewrite last_last, Ascii.eqb_refl. cbn [andb].
  unfold JS.substring. rewrite length_app. cbn [length app skipn].
  replace (S (length a) + 1 - 1 - 1)%nat with (length a + 0)%nat by lia.
  rewrite firstn_app_2. cbn [firstn]. apply app_nil_r.
Qed.

End Brackets.

(** X1. An address between brackets is parsed as the address without them:
    [parse] only sees what [strip_brackets] leaves. *)
Theorem parse_in_brackets (a : str) :
  strip_brackets a = a ->
  parse ("["%char :: a ++ ["]"%char]) = parse a.
Proof.
  intros H. unfold parse. cbv zeta.
  rewrite strip_brackets_inside, H. reflexivity.
Qed.

Lemma parse_in_brackets_loopback :
  parse (lit "[::1]") = parse (lit "::1").
Proof. apply (parse_in_brackets (lit "::1")). reflexivity. Defined.

(** ** The mapped prefix of an IPv4 address *)

Section Prefix.

Lemma copy_prefix (src target : JS.Buffer) :
  (length src <= length target)%nat ->
  JS.copy src target 0 0 (length src) = src ++ skipn (length src) target.
Proof.
  intros H. unfold JS.copy. rewrite !Nat.sub_0_r.
  cbn [firstn skipn app Nat.add].
  rewrite firstn_all. rewrite firstn_all2 by assumption.
  reflexivity.
Qed.

Lemma firstn_copy (src target : JS.Buffer) (ts ss se : nat) :
  (ts <= length target)%nat ->
  firstn ts (JS.copy src target ts ss se) = firstn ts target.
Proof.
  intros H. unfold JS.copy.
  rewrite firstn_app, firstn_firstn, Nat.min_id, length_firstn.
  rewrite Nat.min_l by assumption. rewrite Nat.sub_diag. cbn [firstn].
  apply app_nil_r.
Qed.

Lemma v4StringToBuffer_prefix (a : str) :
  firstn 12 (v4StringToBuffer a) = mappedV4Prefix.
Proof.
  unfold v4StringToBuffer. rewrite firstn_copy.
  - reflexivity.
  - rewrite copy_length; simpl; lia.
Qed.

Lemma parse_prefix (s : str) (ip : IP) :
  parse s = Ok ip -> m_isV4 ip = true ->
  firstn 12 (m_bytes ip) = mappedV4Prefix.
Proof.
  unfold parse. cbv zeta. set (a := strip_brackets s).
  destruct (JS.str_eqb a (lit "::")).
  { intros E. apply Ok_inj in E. subst ip. discriminate. }
  destruct (isIPv4 a).
  { intros E _. apply Ok_inj in E. subst ip. apply v4StringToBuffer_prefix. }
  destruct (isIPv6 a); [|discriminate].
  destruct (v6StringToBuffer a) as [[bytes zone]|m]; [|discriminate].
  cbn [bind].
  destruct (_ && _) eqn:T; intros E; apply Ok_inj in E; subst ip;
    [|discriminate].
  intros _. now apply mapped_test.
Qed.

Lemma fromDecimal_prefix (n : Z) (forceV6 : bool) (ip : IP) :
  fromDecimal n forceV6 = Ok ip -> m_isV4 ip = true ->
  firstn 12 (m_bytes ip) = mappedV4Prefix.
Proof.
  unfold fromDecimal. cbv zeta.
  set (bytes := JS.from_hex _). clearbody bytes.
  destruct (negb forceV6 && _) eqn:T; intros E; apply Ok_inj in E; subst ip;
    [|discriminate].
  intros _. apply andb_true_iff in T. destruct T as [_ T].
  apply compare_eqb in T. rewrite slice_0 in T.
  assert (L : (12 <= length bytes)%nat).
  { rewrite <- (firstn_skipn 12 bytes), T, length_app. simpl. lia. }
  unfold m_bytes. rewrite copy_prefix by (simpl; lia).
  reflexivity.
Qed.

End Prefix.

(** X2. Whatever the input, an address that [parse] or [fromDecimal] marks
    as IPv4 has the IPv4-mapped prefix in its first twelve octets. *)
Theorem v4_address_has_mapped_prefix (ip : IP) :
  (exists s, parse s = Ok ip) \/ (exists n forceV6, fromDecimal n forceV6 = Ok ip) ->
  m_isV4 ip = true ->
  firstn 12 (m_bytes ip) = mappedV4Prefix.
Proof.
  intros [[s H]|(n & f & H)] V.
  - now apply (parse_prefix s).
  - now apply (fromDecimal_prefix n f).
Qed.

Lemma v4_address_has_mapped_prefix_example :
  firstn 12 (v4StringToBuffer (lit "10.0.0.1")) = mappedV4Prefix.
Proof.
  apply (v4_address_has_mapped_prefix
           {| m_bytes := v4StringToBuffer (lit "10.0.0.1");
              m_isV4 := true; m_zone := None |}).
  - left. exists (lit "10.0.0.1"). reflexivity.
  - reflexivity.
Defined.

(** ** When an address cannot be written *)

Section Encode.

Lemma match_hex4_none (bytes : JS.Buffer) :
  Forall octet bytes ->
  Re.match_hex4 (JS.to_hex bytes) = [] <-> (length bytes < 2)%nat.
Proof.
  intros O. destruct bytes as [|hi [|lo rest]].
  - simpl. split; [lia|reflexivity].
  - simpl. split; [lia|reflexivity].
  - inversion O as [|? ? Hhi O']. inversion O' as [|? ? Hlo _]. subst.
    destruct (octet_nibbles hi Hhi), (octet_nibbles lo Hlo).
    change (JS.to_hex (hi :: lo :: rest)) with
      (JS.digit_char (hi / 16) :: JS.digit_char (hi mod 16)
       :: JS.digit_char (lo / 16) :: JS.digit_char (lo mod 16) :: JS.to_hex rest).
    rewrite match_hex4_cons, !is_lower_hex_char by assumption.
    cbn [andb length]. split; [discriminate|lia].
Qed.

Lemma v6ToString_short (bytes : JS.Buffer) (expanded : bool) :
  Forall octet bytes -> (length bytes < 2)%nat ->
  v6ToString bytes expanded = Throw cannot_encode.
Proof.
  intros O L. unfold v6ToString. cbv zeta.
  now rewrite (proj2 (match_hex4_none bytes O) L).
Qed.

Lemma v6ToString_long (bytes : JS.Buffer) (expanded : bool) :
  Forall octet bytes -> (2 <= length bytes)%nat ->
  exists s, v6ToString bytes expanded = Ok s.
Proof.
  intros O L. unfold v6ToString. cbv zeta.
  destruct (Re.match_hex4 (JS.to_hex bytes)) eqn:E.
  - apply (match_hex4_none bytes O) in E. lia.
  - destruct (negb expanded); eexists; reflexivity.
Qed.

End Encode.

(** X3. [toString] throws in one case only: the buffer has fewer than two
    octets and the text asked for is an IPv6 one (the address is not
    IPv4, or the encoding is ['mapped']). The error is then
    'Could not encode IP address to string'; in every other case a text
    is returned. *)
Theorem toString_throws_when_short (ip : IP) (e : encoding) :
  Forall octet (m_bytes ip) ->
  let short := (length (m_bytes ip) < 2)%nat /\ (m_isV4 ip = false \/ e = Mapped) in
  (short -> toString ip e = Throw cannot_encode) /\
  (~ short -> exists s, toString ip e = Ok s).
Proof.
  intros O short. subst short. unfold toString, v4ToString. split.
  - intros [L C]. rewrite !v6ToString_short by assumption.
    destruct (m_isV4 ip).
    + destruct C as [C|C]; [discriminate|]. subst e. reflexivity.
    + destruct (m_zone ip) as [[|c z]|]; reflexivity.
  - intros N. destruct (m_isV4 ip).
    + destruct e; cbn [is_mapped negb]; try (eexists; reflexivity).
      apply v6ToString_long; [assumption|].
      destruct (Nat.lt_ge_cases (length (m_bytes ip)) 2); [|assumption].
      exfalso. apply N. split; [assumption|now right].
    + assert (L : (2 <= length (m_bytes ip))%nat).
      { destruct (Nat.lt_ge_cases (length (m_bytes ip)) 2); [|assumption].
        exfalso. apply N. split; [assumption|now left]. }
      destruct (v6ToString_long (m_bytes ip) (is_expanded e) O L) as [s E].
      rewrite E. destruct (m_zone ip) as [[|c z]|]; eexists; reflexivity.
Qed.

Lemma toString_throws_when_short_hello :
  exists ip, parse (lit "hello") = Ok ip /\ toString ip Default = Throw cannot_encode.
Proof.
  exists {| m_bytes := []; m_isV4 := false; m_zone := None |}.
  split; [reflexivity|].
  apply (toString_throws_when_short
           {| m_bytes := []; m_isV4 := false; m_zone := None |} Default).
  - constructor.
  - split; [simpl; lia|now left].
Defined.

(** ** From an address to its number and back *)

Section Numbers.

Lemma be_value_cons (x : Z) (b : JS.Buffer) :
  be_value (x :: b) 0 = x * 256 ^ Z.of_nat (length b) + be_value b 0.
Proof. cbn [be_value]. rewrite be_value_acc. f_equal. Qed.

(** Two buffers of the same length that denote the same number are the
    same buffer. *)
Lemma be_value_inj (a b : JS.Buffer) :
  Forall octet a -> Forall octet b -> length a = length b ->
  be_value a 0 = be_value b 0 -> a = b.
Proof.
  revert b. induction a as [|x a IH]; intros [|y b] Oa Ob L V;
    try discriminate L; [reflexivity|].
  inversion Oa as [|? ? Hx Oa']. inversion Ob as [|? ? Hy Ob']. subst.
  injection L as L. rewrite !be_value_cons, <- L in V.
  pose proof (be_value_range a Oa') as Ra.
  pose proof (be_value_range b Ob') as Rb. rewrite <- L in Rb.
  set (M := 256 ^ Z.of_nat (length a)) in *.
  assert (x = y) by nia. subst y.
  f_equal. apply IH; try assumption. lia.
Qed.

Lemma decimal_value (ip : IP) :
  Forall octet (m_bytes ip) ->
  decimal ip =
  Ok (be_value (if m_isV4 ip then skipn 12 (m_bytes ip) else m_bytes ip) 0).
Proof.
  intros O. unfold decimal, JS.slice_from. destruct (m_isV4 ip).
  - apply BigInteger16_to_hex.
    rewrite <- (firstn_skipn 12 (m_bytes ip)) in O.
    now apply Forall_app in O.
  - now apply BigInteger16_to_hex.
Qed.

Lemma fromDecimal_forced (n : Z) :
  fromDecimal n true =
  Ok {| m_bytes := JS.from_hex (JS.padStart 32 "0" (JS.int_toString 16 n));
        m_isV4 := false; m_zone := None |}.
Proof. reflexivity. Qed.

Lemma fromDecimal_large (n : Z) :
  2 ^ 32 <= n < 2 ^ 128 -> fromDecimal n false = fromDecimal n true.
Proof.
  intros Hn. rewrite fromDecimal_forced. unfold fromDecimal. cbv zeta.
  destruct (fromDecimal_buffer n ltac:(lia)) as (L & O & V).
  set (bytes := JS.from_hex _) in *. clearbody bytes. cbn [negb andb].
  destruct (JS.compare _ _ =? 0) eqn:C; [|reflexivity].
  exfalso. apply compare_eqb in C. rewrite slice_0 in C.
  rewrite <- (firstn_skipn 12 bytes) in V, O. rewrite C in V.
  apply Forall_app in O. destruct O as [_ O].
  change (JS.alloc 12) with (repeat 0 12) in V. rewrite be_value_zeros in V.
  pose proof (be_value_range _ O) as R. rewrite length_skipn, L in R.
  change (256 ^ Z.of_nat (16 - 12)) with (2 ^ 32) in R. lia.
Qed.

Lemma fromDecimal_inverse (ip : IP) (n : Z) :
  length (m_bytes ip) = 16%nat -> Forall octet (m_bytes ip) ->
  m_zone ip = None ->
  (m_isV4 ip = true -> firstn 12 (m_bytes ip) = mappedV4Prefix) ->
  decimal ip = Ok n ->
  fromDecimal n (negb (m_isV4 ip)) = Ok ip.
Proof.
  destruct ip as [b v4 zone]. cbn [m_bytes m_isV4 m_zone].
  intros L O -> P D. rewrite decimal_value in D by assumption.
  apply Ok_inj in D. cbn [m_bytes m_isV4] in D.
  destruct v4; cbn [negb].
  - specialize (P eq_refl).
    assert (O4 : Forall octet (skipn 12 b)).
    { rewrite <- (firstn_skipn 12 b) in O. now apply Forall_app in O. }
    pose proof (be_value_range _ O4) as R. rewrite length_skipn, L, D in R.
    change (256 ^ Z.of_nat (16 - 12)) with (2 ^ 32) in R.
    destruct (fromDecimal_buffer n ltac:(lia)) as (L' & O' & V').
    unfold fromDecimal. cbv zeta.
    set (bytes := JS.from_hex _) in *. clearbody bytes. cbn [negb andb].
    assert (C : firstn 12 bytes = repeat 0 12).
    { apply be_value_small; [assumption|lia|]. rewrite V', L'. exact (proj2 R). }
    rewrite slice_0, (proj2 (compare_eqb _ _)) by exact C.
    rewrite copy_prefix by (rewrite L'; simpl; lia).
    do 2 f_equal.
    transitivity (firstn 12 b ++ skipn 12 b); [|apply firstn_skipn].
    rewrite P. f_equal.
    change (length mappedV4Prefix) with 12%nat.
    apply be_value_inj.
    + rewrite <- (firstn_skipn 12 bytes) in O'. now apply Forall_app in O'.
    + assumption.
    + rewrite !length_skipn. lia.
    + rewrite D, <- V'.
      rewrite <- (be_value_zeros 12 (skipn 12 bytes)), <- C, firstn_skipn.
      reflexivity.
  - pose proof (be_value_range _ O) as R. rewrite L, D in R.
    change (256 ^ Z.of_nat 16) with (2 ^ 128) in R.
    destruct (fromDecimal_buffer n R) as (L' & O' & V').
    rewrite fromDecimal_forced. do 2 f_equal.
    apply be_value_inj; try assumption; lia.
Qed.

End Numbers.

(** X4. [fromDecimal] undoes [decimal]: for an address of sixteen octets
    without a zone (an IPv4 one with the mapped prefix), the number that
    [decimal] gives, handed to [fromDecimal] with [forceV6] set for an
    IPv6 address and not set for an IPv4 one, builds the same address. *)
Theorem fromDecimal_of_decimal (ip : IP) (n : Z) :
  length (m_bytes ip) = 16%nat -> Forall octet (m_bytes ip) ->
  m_zone ip = None ->
  (m_isV4 ip = true -> firstn 12 (m_bytes ip) = mappedV4Prefix) ->
  decimal ip = Ok n ->
  fromDecimal n (negb (m_isV4 ip)) = Ok ip.
Proof. apply fromDecimal_inverse. Qed.

Lemma fromDecimal_of_decimal_loopback :
  fromDecimal 1 true =
  Ok {| m_bytes := [0; 0; 0; 0; 0; 0; 0; 0; 0; 0; 0; 0; 0; 0; 0; 1];
        m_isV4 := false; m_zone := None |}.
Proof.
  apply (fromDecimal_of_decimal
           {| m_bytes := [0; 0; 0; 0; 0; 0; 0; 0; 0; 0; 0; 0; 0; 0; 0; 1];
              m_isV4 := false; m_zone := None |} 1).
  - reflexivity.
  - repeat constructor; unfold octet; lia.
  - reflexivity.
  - discriminate.
  - reflexivity.
Defined.

(** X5. With [forceV6], [fromDecimal] builds for every number below 2^128 an
    IPv6 address of sixteen octets that denote the number, and [decimal]
    gives the number back; from 2^32 on the flag makes no difference. *)
Theorem fromDecimal_forceV6 (n : Z) :
  0 <= n < 2 ^ 128 ->
  exists ip,
    fromDecimal n true = Ok ip /\
    m_isV4 ip = false /\ m_zone ip = None /\
    length (m_bytes ip) = 16%nat /\ Forall octet (m_bytes ip) /\
    be_value (m_bytes ip) 0 = n /\
    decimal ip = Ok n /\
    (2 ^ 32 <= n -> fromDecimal n false = Ok ip).
Proof.
  intros Hn. destruct (fromDecimal_buffer n Hn) as (L & O & V).
  eexists. split; [apply fromDecimal_forced|].
  cbn [m_isV4 m_zone m_bytes]. repeat split; try assumption.
  - rewrite decimal_value by assumption. cbn [m_isV4 m_bytes]. now rewrite V.
  - intros H. rewrite fromDecimal_large by lia. apply fromDecimal_forced.
Qed.

Lemma fromDecimal_forceV6_example :
  exists ip,
    fromDecimal 182 true = Ok ip /\
    m_isV4 ip = false /\ m_zone ip = None /\
    length (m_bytes ip) = 16%nat /\ Forall octet (m_bytes ip) /\
    be_value (m_bytes ip) 0 = 182 /\
    decimal ip = Ok 182 /\
    (2 ^ 32 <= 182 -> fromDecimal 182 false = Ok ip).
Proof. apply (fromDecimal_forceV6 182). lia. Defined.

(** ** The zone of a parsed address *)

Section Zone.

(** Joining what was split gives the text back, and no part holds the
    separator. *)
Lemma join_split (sep : ascii) (s : str) :
  JS.split sep s <> [] /\
  JS.join [sep] (JS.split sep s) = s /\
  Forall (fun g => ~ In sep g) (JS.split sep s).
Proof.
  induction s as [|c s (N & J & F)].
  - simpl. repeat split; [discriminate|]. constructor; [tauto|constructor].
  - cbn [JS.split]. destruct (Ascii.eqb_spec c sep) as [->|D].
    + repeat split; [discriminate| |constructor; [tauto|assumption]].
      rewrite join_cons by assumption. cbn [app]. now rewrite J.
    + destruct (JS.split sep s) as [|w ws]; [congruence|].
      repeat split; [discriminate| |].
      * rewrite join_cons_tail in *. rewrite <- J. reflexivity.
      * inversion F; subst. constructor; [|assumption].
        intros [E|E]; [congruence|tauto].
Qed.

Lemma split_two (sep : ascii) (s a z : str) :
  JS.split sep s = [a; z] ->
  s = a ++ sep :: z /\ ~ In sep a /\ ~ In sep z.
Proof.
  intros E. destruct (join_split sep s) as (_ & J & F). rewrite E in J, F.
  inversion F as [|? ? Fa F']. inversion F' as [|? ? Fz _]. subst.
  repeat split; assumption.
Qed.

Lemma v6StringToBuffer_Some (a : str) (bytes : JS.Buffer) (z : str) :
  v6StringToBuffer a = Ok (bytes, Some z) ->
  exists t,
    a = t ++ "%"%char :: z /\ ~ In "%"%char t /\ ~ In "%"%char z /\
    bytes = JS.from_hex (JS.join [] (JS.split ":" (expandV6 t))).
Proof.
  unfold v6StringToBuffer. destruct (has "%" a); [|cbn [bind]; congruence].
  cbv zeta. destruct (2 <? length (JS.split "%" a))%nat eqn:L;
    [discriminate|].
  apply Nat.ltb_ge in L. cbn [bind]. intros E. apply Ok_inj in E.
  injection E as E1 E2.
  destruct (JS.split "%" a) as [|t [|z' [|x r]]] eqn:S;
    try discriminate E2; [|simpl in L; lia].
  injection E2 as ->. apply split_two in S. destruct S as (-> & Nt & Nz).
  exists t. cbn [nth] in E1. now repeat split.
Qed.

End Zone.

(** X6. The zone of a parsed address is the text after the only [%] of the
    address (brackets taken off), and the octets are those of the text
    before the [%]. *)
Theorem zone_is_text_after_percent (s : str) (ip : IP) (z : str) :
  parse s = Ok ip -> m_zone ip = Some z ->
  exists t,
    strip_brackets s = t ++ "%"%char :: z /\
    ~ In "%"%char t /\ ~ In "%"%char z /\
    m_bytes ip = JS.from_hex (JS.join [] (JS.split ":" (expandV6 t))).
Proof.
  unfold parse. cbv zeta. set (a := strip_brackets s).
  destruct (JS.str_eqb a (lit "::")).
  { intros E. apply Ok_inj in E. subst ip. discriminate. }
  destruct (isIPv4 a).
  { intros E. apply Ok_inj in E. subst ip. discriminate. }
  destruct (isIPv6 a); [|discriminate].
  destruct (v6StringToBuffer a) as [[bytes zone]|m] eqn:V; [|discriminate].
  cbn [bind].
  destruct (_ && _); intros E; apply Ok_inj in E; subst ip;
    cbn [m_zone m_bytes]; intros ->; now apply v6StringToBuffer_Some.
Qed.

Lemma zone_is_text_after_percent_eth0 :
  exists t,
    strip_brackets (lit "fe80::1%eth0") = t ++ "%"%char :: lit "eth0" /\
    ~ In "%"%char t /\ ~ In "%"%char (lit "eth0") /\
    [254; 128; 0; 0; 0; 0; 0; 0; 0; 0; 0; 0; 0; 0; 0; 1] =
      JS.from_hex (JS.join [] (JS.split ":" (expandV6 t))).
Proof.
  apply (zone_is_text_after_percent (lit "fe80::1%eth0")
           {| m_bytes := [254; 128; 0; 0; 0; 0; 0; 0; 0; 0; 0; 0; 0; 0; 0; 1];
              m_isV4 := false; m_zone := Some (lit "eth0") |} (lit "eth0"));
    reflexivity.
Defined.

(** ** Dotted IPv4 text *)

Section Dotted.

Lemma digits_then_app (t rest : str) (k : str -> bool) :
  forallb JS.is_digit t = true -> (1 <= length t <= 3)%nat ->
  k rest = true -> Re.digits_then 3 (t ++ rest) k = true.
Proof.
  intros D L K.
  destruct t as [|x [|y [|z [|]]]]; simpl in L; try lia;
    cbn [forallb] in D; repeat (apply andb_true_iff in D; destruct D as [? D]);
    cbn [app Re.digits_then];
    repeat match goal with H : JS.is_digit _ = true |- _ => rewrite H; clear H end;
    rewrite K, ?orb_true_r; reflexivity.
Qed.

Lemma test_at_head (at_head : str -> bool) (s : str) :
  at_head s = true -> Re.test at_head s = true.
Proof. intros H. destruct s; simpl; now rewrite H. Qed.

Lemma digits_no (c : ascii) (t : str) :
  JS.is_digit c = false -> forallb JS.is_digit t = true -> ~ In c t.
Proof.
  intros C. induction t as [|x t IH]; cbn [forallb]; intros D; [tauto|].
  apply andb_true_iff in D. destruct D as [Dx D].
  intros [->|I]; [congruence|now apply IH].
Qed.

Lemma dotted_unfold (a b c d : Z) :
  dotted a b c d =
  dec a ++ "."%char :: dec b ++ "."%char :: dec c ++ "."%char :: dec d.
Proof. reflexivity. Qed.

Lemma dec_head (n : Z) (rest : str) :
  0 <= n -> exists c r, dec n ++ rest = c :: r /\ JS.is_digit c = true.
Proof.
  intros H. pose proof (dec_digits n H) as D. pose proof (dec_nonempty n H) as L.
  destruct (dec n) as [|c t]; [simpl in L; lia|].
  cbn [forallb] in D. apply andb_true_iff in D.
  exists c, (t ++ rest). now split.
Qed.

Section Numbers4.

Variables a b c d : Z.
Hypothesis a_range : 0 <= a < 1000.
Hypothesis b_range : 0 <= b < 1000.
Hypothesis c_range : 0 <= c < 1000.
Hypothesis d_range : 0 <= d < 1000.

Lemma dec_three (n : Z) : 0 <= n < 1000 -> (1 <= length (dec n) <= 3)%nat.
Proof.
  intros H. split; [apply dec_nonempty; lia|].
  apply (dec_length 2). exact H.
Qed.

Lemma isIPv4_dotted : isIPv4 (dotted a b c d) = true.
Proof.
  unfold isIPv4. apply test_at_head. rewrite dotted_unfold.
  unfold Re.v4_shape_at.
  apply digits_then_app; [apply dec_digits; lia|now apply dec_three|].
  cbn [Re.dot_then]. rewrite Ascii.eqb_refl. cbn [andb].
  apply digits_then_app; [apply dec_digits; lia|now apply dec_three|].
  cbn [Re.dot_then]. rewrite Ascii.eqb_refl. cbn [andb].
  apply digits_then_app; [apply dec_digits; lia|now apply dec_three|].
  cbn [Re.dot_then]. rewrite Ascii.eqb_refl. cbn [andb].
  rewrite <- (app_nil_r (dec d)).
  apply digits_then_app; [apply dec_digits; lia|now apply dec_three|].
  reflexivity.
Qed.

Lemma split_dotted : JS.split "." (dotted a b c d) = [dec a; dec b; dec c; dec d].
Proof.
  unfold dotted. apply split_join; [discriminate|].
  repeat constructor; apply digits_no; try reflexivity; apply dec_digits; lia.
Qed.

Lemma parseInt_dec_all (n : Z) : 0 <= n -> JS.parseInt (dec n) 10 = JS.Num n.
Proof.
  intros H. rewrite <- (app_nil_r (dec n)). now apply parseInt_dec.
Qed.

Lemma v4StringToBuffer_dotted :
  v4StringToBuffer (dotted a b c d) =
  v4_buffer (a mod 256) (b mod 256) (c mod 256) (d mod 256).
Proof.
  unfold v4StringToBuffer. cbv zeta. rewrite split_dotted. cbn [map].
  rewrite !parseInt_dec_all by lia. reflexivity.
Qed.

Lemma strip_brackets_dotted : strip_brackets (dotted a b c d) = dotted a b c d.
Proof.
  rewrite dotted_unfold.
  destruct (dec_head a ("."%char :: dec b ++ "."%char :: dec c ++ "."%char :: dec d)
              ltac:(lia)) as (x & r & -> & D).
  unfold strip_brackets.
  destruct (Ascii.eqb_spec x "[") as [->|_]; [discriminate D|reflexivity].
Qed.

Lemma dotted_not_zero : JS.str_eqb (dotted a b c d) (lit "::") = false.
Proof.
  destruct (JS.str_eqb _ _) eqn:E; [|reflexivity].
  apply str_eqb_eq in E. rewrite dotted_unfold in E.
  destruct (dec_head a ("."%char :: dec b ++ "."%char :: dec c ++ "."%char :: dec d)
              ltac:(lia)) as (x & r & H & D).
  rewrite H in E. injection E as -> _. discriminate D.
Qed.

Lemma parse_dotted :
  parse (dotted a b c d) =
  Ok {| m_bytes := v4_buffer (a mod 256) (b mod 256) (c mod 256) (d mod 256);
        m_isV4 := true; m_zone := None |}.
Proof.
  unfold parse. cbv zeta.
  rewrite strip_brackets_dotted, dotted_not_zero, isIPv4_dotted,
    v4StringToBuffer_dotted.
  reflexivity.
Qed.

End Numbers4.

Lemma hextet_bytes_pair (hi lo : Z) :
  octet hi -> octet lo -> hextet_bytes (256 * hi + lo) = [hi; lo].
Proof.
  unfold octet, hextet_bytes. intros Hh Hl. f_equal; [|f_equal].
  - symmetry. apply (Z.div_unique _ _ _ lo); lia.
  - symmetry. apply (Z.mod_unique _ _ hi); lia.
Qed.

Lemma v4_buffer_octets (a b c d : Z) :
  octet a -> octet b -> octet c -> octet d -> Forall octet (v4_buffer a b c d).
Proof.
  intros. unfold v4_buffer. apply Forall_app. split.
  - repeat constructor; unfold octet; simpl; lia.
  - repeat (constructor; [assumption|]). constructor.
Qed.

End Dotted.

(** X7. Round trip of IPv4 text: the dotted text of four octets is parsed
    into an IPv4 address with the mapped prefix and the four octets;
    [toString] gives the same text back, also with ['expanded'], and
    with ['mapped'] the eight groups of the mapped address; [decimal] is
    the 32-bit number of the octets. *)
Theorem dotted_round_trip (a b c d : Z) :
  octet a -> octet b -> octet c -> octet d ->
  exists ip,
    parse (dotted a b c d) = Ok ip /\
    m_isV4 ip = true /\ m_zone ip = None /\
    m_bytes ip = mappedV4Prefix ++ [a; b; c; d] /\
    toString ip Default = Ok (dotted a b c d) /\
    toString ip Expanded = Ok (dotted a b c d) /\
    toString ip Mapped =
      Ok (colons [0; 0; 0; 0; 0; 65535; 256 * a + b; 256 * c + d]) /\
    decimal ip = Ok (256 * (256 * (256 * a + b) + c) + d).
Proof.
  intros Ha Hb Hc Hd. unfold octet in *.
  eexists. split; [apply parse_dotted; lia|].
  rewrite !Z.mod_small by lia. cbn [m_isV4 m_zone m_bytes].
  repeat split.
  - unfold toString, v4ToString. cbn [m_isV4 m_bytes is_mapped negb].
    rewrite (v6ToString_expanded (v4_buffer a b c d)).
    + reflexivity.
    + reflexivity.
    + now apply v4_buffer_octets.
  - rewrite decimal_value by now apply v4_buffer_octets.
    cbn [m_isV4 m_bytes]. f_equal.
Qed.

Lemma dotted_round_trip_example :
  exists ip,
    parse (lit "192.168.2.1") = Ok ip /\
    m_isV4 ip = true /\ m_zone ip = None /\
    m_bytes ip = mappedV4Prefix ++ [192; 168; 2; 1] /\
    toString ip Default = Ok (lit "192.168.2.1") /\
    toString ip Expanded = Ok (lit "192.168.2.1") /\
    toString ip Mapped = Ok (lit "0:0:0:0:0:ffff:c0a8:201") /\
    decimal ip = Ok 3232236033.
Proof. apply (dotted_round_trip 192 168 2 1); unfold octet; lia. Defined.

(** X8. The mapped IPv6 texts of an IPv4 address, with eight groups or with
    [::], are parsed into the same address as its dotted text. *)
Theorem mapped_text_is_dotted_address (a b c d : Z) :
  octet a -> octet b -> octet c -> octet d ->
  parse (colons [0; 0; 0; 0; 0; 65535; 256 * a + b; 256 * c + d])
    = parse (dotted a b c d) /\
  parse (lit "::" ++ colons [65535; 256 * a + b; 256 * c + d])
    = parse (dotted a b c d).
Proof.
  intros Ha Hb Hc Hd.
  assert (R : Forall hextet [0; 0; 0; 0; 0; 65535; 256 * a + b; 256 * c + d]).
  { unfold octet, hextet in *. repeat constructor; lia. }
  assert (B : flat_map hextet_bytes
                [0; 0; 0; 0; 0; 65535; 256 * a + b; 256 * c + d]
              = v4_buffer a b c d).
  { cbn [flat_map app]. rewrite !hextet_bytes_pair by assumption. reflexivity. }
  rewrite parse_dotted by (unfold octet in *; lia).
  unfold octet in Ha, Hb, Hc, Hd. rewrite !Z.mod_small by lia.
  split.
  - destruct (parse_full (map hextet_text
                [0; 0; 0; 0; 0; 65535; 256 * a + b; 256 * c + d])
                eq_refl (text_groups _ R)) as (v4 & P & V).
    cbv zeta in P, V. rewrite map_value_text in P, V by assumption.
    rewrite B in P, V. unfold colons. rewrite P.
    now rewrite (proj2 V eq_refl).
  - assert (R3 : Forall hextet [65535; 256 * a + b; 256 * c + d]).
    { now inversion R as [|? ? _ [|? ? _ [|? ? _ [|? ? _ [|? ? _ R']]]]]. }
    destruct (parse_elided [] (map hextet_text [65535; 256 * a + b; 256 * c + d])
                (Forall_nil _) (text_groups _ R3) ltac:(discriminate)
                ltac:(simpl; lia)) as (v4 & P & V).
    cbv zeta in P, V. rewrite map_value_text in P, V by assumption.
    change (map group_value [] ++
            repeat 0 (8 - length (@nil str)
                      - length (map hextet_text [65535; 256 * a + b; 256 * c + d]))
            ++ [65535; 256 * a + b; 256 * c + d])
      with [0; 0; 0; 0; 0; 65535; 256 * a + b; 256 * c + d] in P, V.
    rewrite B in P, V. unfold colons.
    change (JS.join [":"%char] [] ++ lit "::" ++ ?x) with (lit "::" ++ x) in P.
    rewrite P. now rewrite (proj2 V eq_refl).
Qed.

Lemma mapped_text_is_dotted_address_example :
  parse (lit "0:0:0:0:0:ffff:c0a8:201") = parse (lit "192.168.2.1") /\
  parse (lit "::ffff:c0a8:201") = parse (lit "192.168.2.1").
Proof. apply (mapped_text_is_dotted_address 192 168 2 1); unfold octet; lia. Defined.

(** ** Round trip of an IPv6 text with a zone *)

Section WithZone.

Lemma bool_iff (x y : bool) (P : Prop) :
  (x = true <-> P) -> (y = true <-> P) -> x = y.
Proof. destruct x, y; intuition congruence. Qed.

(** A zone after an IPv6 text changes the zone of the address and
    nothing else. *)
Lemma parse_with_zone (a z : str) (ip : IP) :
  v6_text a -> ~ In "%"%char z -> ~ In "."%char z ->
  parse a = Ok ip ->
  parse (a ++ "%"%char :: z) =
  Ok {| m_bytes := m_bytes ip; m_isV4 := m_isV4 ip; m_zone := Some z |}.
Proof.
  intros Ha Nz Dz P.
  pose proof (v6_text_no a "%" Ha ltac:(tauto)) as Np.
  pose proof (v6_text_no a "." Ha ltac:(tauto)) as Nd.
  pose proof (v6_text_chars a Ha) as C.
  pose proof (v6_text_colon a Ha) as I.
  assert (S : strip_brackets (a ++ "%"%char :: z) = a ++ "%"%char :: z).
  { destruct a as [|c r]; [destruct I|]. inversion C as [|? ? Hc _]. subst.
    apply v6_char_cases in Hc. destruct Hc as (Hc & _).
    unfold strip_brackets. cbn [app].
    destruct (Ascii.eqb_spec c "["); [contradiction|reflexivity]. }
  destruct (parse_v6_path a) as (b1 & z1 & v1 & E1 & P1 & V1);
    rewrite ?strip_brackets_plain by assumption.
  { now apply v6_text_not_zero. }
  { now apply isIPv4_no_dot. }
  { now apply isIPv6_colon. }
  { rewrite split_single by assumption. simpl. lia. }
  rewrite strip_brackets_plain, v6StringToBuffer_plain in E1 by assumption.
  injection E1 as <- <-. rewrite P in P1. apply Ok_inj in P1. subst ip.
  cbn [m_bytes m_isV4].
  destruct (parse_v6_path (a ++ "%"%char :: z)) as (b2 & z2 & v2 & E2 & P2 & V2);
    rewrite ?S.
  { intros E. apply Np. rewrite <- (app_nil_r a).
    assert (X : In "%"%char (lit "::")) by (rewrite <- E; apply in_elt).
    simpl in X. intuition discriminate. }
  { apply isIPv4_no_dot. intros X. apply in_app_or in X.
    destruct X as [X|[X|X]]; [tauto|discriminate|tauto]. }
  { apply isIPv6_colon. apply in_or_app. now left. }
  { rewrite split_app, split_single by assumption. simpl. lia. }
  rewrite S, v6StringToBuffer_zone in E2 by assumption.
  injection E2 as <- <-. rewrite P2. do 2 f_equal.
  exact (bool_iff _ _ _ V2 V1).
Qed.

Variable gs : list Z.
Hypothesis eight : length gs = 8%nat.
Hypothesis range : Forall hextet gs.
Hypothesis not_mapped : firstn 6 gs <> [0; 0; 0; 0; 0; 65535].

Lemma not_v4 (v4 : bool) :
  (v4 = true <-> firstn 12 (flat_map hextet_bytes gs) = mappedV4Prefix) ->
  v4 = false.
Proof.
  intros M. destruct v4; [|reflexivity]. exfalso. apply not_mapped.
  apply mapped_hextets. now apply M.
Qed.

Lemma parse_colons :
  v6_text (colons gs) /\
  parse (colons gs) =
  Ok {| m_bytes := flat_map hextet_bytes gs; m_isV4 := false; m_zone := None |}.
Proof.
  pose proof (text_groups gs range) as T.
  assert (L : length (map hextet_text gs) = 8%nat) by now rewrite length_map.
  split; [now apply v6_full|].
  destruct (parse_full (map hextet_text gs) L T) as (v4 & P & M).
  cbv zeta in P, M. rewrite map_value_text in P, M by assumption.
  now rewrite (not_v4 v4 M) in P.
Qed.

Lemma parse_compressed (pre post : list Z) (k : nat) :
  elision gs pre k post -> post <> [] ->
  v6_text (colons pre ++ lit "::" ++ colons post) /\
  parse (colons pre ++ lit "::" ++ colons post) =
  Ok {| m_bytes := flat_map hextet_bytes gs; m_isV4 := false; m_zone := None |}.
Proof.
  intros E Hp. pose proof E as [Es K _ _].
  assert (L : (length pre + k + length post = 8)%nat)
    by (rewrite <- eight, Es, !length_app, repeat_length; lia).
  assert (Hr : Forall hextet pre /\ Forall hextet post).
  { pose proof range as R. rewrite Es in R.
    apply Forall_app in R. destruct R as [R1 R].
    apply Forall_app in R. tauto. }
  destruct Hr as [Rpre Rpost].
  assert (Np : map hextet_text post <> []) by (destruct post; [congruence|discriminate]).
  assert (Ll : (length (map hextet_text pre) + length (map hextet_text post) <= 7)%nat)
    by (rewrite !length_map; lia).
  split.
  { apply v6_elided; try assumption; now apply text_groups. }
  destruct (parse_elided (map hextet_text pre) (map hextet_text post)
              (text_groups _ Rpre) (text_groups _ Rpost) Np Ll) as (v4 & P & M).
  cbv zeta in P, M.
  rewrite !length_map, !map_value_text in P, M by assumption.
  replace (8 - length pre - length post)%nat with k in P, M by lia.
  rewrite <- Es in P, M. now rewrite (not_v4 v4 M) in P.
Qed.

Variable z : str.
Hypothesis no_percent : ~ In "%"%char z.
Hypothesis no_dot : ~ In "."%char z.

Let ip : IP :=
  {| m_bytes := flat_map hextet_bytes gs; m_isV4 := false; m_zone := Some z |}.

Lemma zone_suffix_ip :
  zone_suffix ip = match z with [] => [] | _ :: _ => "%"%char :: z end.
Proof. unfold zone_suffix, ip. cbn [m_zone]. now destruct z. Qed.

Lemma formats_with_zone :
  toString ip Expanded = Ok (colons gs ++ zone_suffix ip) /\
  ((forall i, ~ zero_run gs i 2) ->
   toString ip Default = Ok (colons gs ++ zone_suffix ip)) /\
  (forall pre k post,
     elision gs pre k post ->
     toString ip Default =
     Ok ((colons pre ++ marker pre post ++ colons post) ++ zone_suffix ip)).
Proof.
  assert (L : length (m_bytes ip) = 16%nat)
    by (unfold ip; cbn [m_bytes]; now rewrite hextet_bytes_length, eight).
  pose proof (hextet_bytes_octets gs range) as O.
  pose proof (hextets_bytes gs) as Hg.
  split; [|split].
  - apply toString_v6; [reflexivity|]. cbn [is_expanded].
    rewrite v6ToString_expanded by assumption.
    unfold ip. cbn [m_bytes]. now rewrite Hg.
  - intros N. apply toString_v6; [reflexivity|]. cbn [is_expanded].
    pose proof (v6ToString_no_run (m_bytes ip) L O) as X.
    unfold ip in X. cbn [m_bytes] in X. rewrite Hg in X. now apply X.
  - intros pre k post E. apply toString_v6; [reflexivity|]. cbn [is_expanded].
    apply (v6ToString_run _ L O pre post k). unfold ip. cbn [m_bytes].
    now rewrite Hg.
Qed.

Lemma zone_texts_round_trip (a : str) :
  (a = colons gs /\ forall i, ~ zero_run gs i 2) \/
  (exists pre k post,
     elision gs pre k post /\ post <> [] /\
     a = colons pre ++ lit "::" ++ colons post) ->
  parse (a ++ "%"%char :: z) = Ok ip /\
  toString ip Default = Ok (a ++ zone_suffix ip) /\
  toString ip Expanded = Ok (colons gs ++ zone_suffix ip).
Proof.
  destruct formats_with_zone as (F1 & F2 & F3).
  intros [[-> N]|(pre & k & post & E & Hp & ->)].
  - destruct parse_colons as [T P].
    rewrite (parse_with_zone _ z _ T no_percent no_dot P).
    repeat split; [now apply F2|exact F1].
  - destruct (parse_compressed pre post k E Hp) as [T P].
    rewrite (parse_with_zone _ z _ T no_percent no_dot P).
    repeat split; [|exact F1].
    rewrite (F3 pre k post E). destruct pre, post; try reflexivity; congruence.
Qed.

End WithZone.

(** X9. Zone preservation. Let [a] be the compressed text of eight hextets
    outside the mapped prefix (all eight when no two zero hextets are
    neighbours, otherwise with [::] for the leftmost longest zero run,
    which does not end the address), and [z] a zone without [%] and [.].
    [parse] of [a%z] gives an IPv6 address with the zone [z] and the
    octets of the hextets; [toString] writes [a%z] again, and the eight
    hextets with [%z] for ['expanded']. An empty zone is kept as the
    empty string and written as nothing: the [%] is lost. *)
Theorem zone_round_trip (gs : list Z) (z a : str) :
  length gs = 8%nat -> Forall hextet gs ->
  firstn 6 gs <> [0; 0; 0; 0; 0; 65535] ->
  ~ In "%"%char z -> ~ In "."%char z ->
  (a = colons gs /\ forall i, ~ zero_run gs i 2) \/
  (exists pre k post,
     elision gs pre k post /\ post <> [] /\
     a = colons pre ++ lit "::" ++ colons post) ->
  let back := match z with [] => [] | _ :: _ => "%"%char :: z end in
  exists ip,
    parse (a ++ "%"%char :: z) = Ok ip /\
    m_isV4 ip = false /\ m_zone ip = Some z /\
    m_bytes ip = flat_map hextet_bytes gs /\
    toString ip Default = Ok (a ++ back) /\
    toString ip Expanded = Ok (colons gs ++ back).
Proof.
  intros L R M Np Nd Ha back.
  destruct (zone_texts_round_trip gs L R M z Np Nd a Ha) as (P & D & E).
  rewrite zone_suffix_ip in D by assumption.
  rewrite zone_suffix_ip in E by assumption.
  eexists. split; [exact P|]. cbn [m_isV4 m_zone m_bytes].
  repeat split; assumption.
Qed.

Lemma link_local_elision : elision [65152; 0; 0; 0; 0; 0; 0; 1] [65152] 6 [1].
Proof.
  split; [reflexivity|lia| |].
  - intros i E. pose proof (zero_run_fits _ _ _ E) as B. simpl in B.
    do 2 (destruct i as [|i]; [discriminate E|]). lia.
  - intros i Hi E. simpl in Hi.
    destruct i as [|i]; [discriminate E|]. lia.
Qed.

Lemma zone_round_trip_eth0 :
  exists ip,
    parse (lit "fe80::1%eth0") = Ok ip /\
    m_isV4 ip = false /\ m_zone ip = Some (lit "eth0") /\
    m_bytes ip = [254; 128; 0; 0; 0; 0; 0; 0; 0; 0; 0; 0; 0; 0; 0; 1] /\
    toString ip Default = Ok (lit "fe80::1%eth0") /\
    toString ip Expanded = Ok (lit "fe80:0:0:0:0:0:0:1%eth0").
Proof.
  apply (zone_round_trip [65152; 0; 0; 0; 0; 0; 0; 1] (lit "eth0") (lit "fe80::1")).
  - reflexivity.
  - repeat constructor; unfold hextet; lia.
  - discriminate.
  - simpl. intuition discriminate.
  - simpl. intuition discriminate.
  - right. exists [65152], 6%nat, [1].
    split; [exact link_local_elision|]. split; [discriminate|reflexivity].
Defined.

(** ** Host and port *)

Section HostPort.

Lemma find_first (c : ascii) (x r : str) (i : Z) :
  ~ In c x -> JS.find_from [c] (x ++ c :: r) i = i + Z.of_nat (length x).
Proof.
  revert i. induction x as [|y x IH]; intros i N.
  - cbn [app]. rewrite find_from_found; [simpl; lia|].
    simpl. now rewrite Ascii.eqb_refl.
  - cbn [app]. rewrite find_from_cons.
    assert (S : JS.startsWith [c] (y :: x ++ c :: r) = false).
    { simpl. destruct (Ascii.eqb_spec c y) as [->|_]; [|reflexivity].
      exfalso. apply N. now left. }
    rewrite S, IH by (intros X; apply N; now right).
    cbn [length]. lia.
Qed.

Lemma dec_no_colon (p : Z) : 0 <= p -> ~ In ":"%char (dec p).
Proof. intros H. apply digits_no; [reflexivity|now apply dec_digits]. Qed.

Lemma dec_no_dot (p : Z) : 0 <= p -> ~ In "."%char (dec p).
Proof. intros H. apply digits_no; [reflexivity|now apply dec_digits]. Qed.

(** What [splitHostPort] does with a bracketed host and the text after
    it. *)
Lemma splitHostPort_after_bracket (x rest : str) :
  ~ In "."%char x -> ~ In "]"%char x -> ~ In "."%char rest ->
  splitHostPort (bracketed x ++ rest) =
  if (length rest =? 0)%nat then Ok (bracketed x, JS.Num 0)
  else
    let rightParts := JS.split ":" rest in
    if (length rightParts =? 2)%nat then
      let port := nth 1 rightParts [] in
      Ok (bracketed x,
          JS.parseInt (match port with [] => ["0"%char] | _ => port end) 10)
    else Throw cannot_split.
Proof.
  intros Dx Bx Dr. unfold splitHostPort.
  assert (H1 : has "." (bracketed x ++ rest) = false).
  { apply has_false. unfold bracketed. intros I.
    apply in_app_or in I. destruct I as [[I|I]|I]; [discriminate| |tauto].
    apply in_app_or in I. destruct I as [I|[I|[]]]; [tauto|discriminate]. }
  assert (H2 : has "[" (bracketed x ++ rest) = true).
  { apply has_In. now left. }
  assert (H3 : has "]" (bracketed x ++ rest) = true).
  { apply has_In. apply in_or_app. left. unfold bracketed.
    right. apply in_or_app. right. now left. }
  rewrite H1, H2, H3. cbn [andb]. cbv zeta.
  assert (A : after_bracket (bracketed x ++ rest) = length (bracketed x)).
  { unfold after_bracket, JS.indexOf, bracketed.
    change (("["%char :: x ++ ["]"%char]) ++ rest)
      with ("["%char :: (x ++ ["]"%char]) ++ rest).
    rewrite <- app_assoc. cbn [app].
    rewrite find_from_cons.
    change (JS.startsWith ["]"%char] ("["%char :: x ++ "]"%char :: rest)) with false.
    cbv iota. rewrite find_first by assumption.
    cbn [length]. rewrite length_app. cbn [length]. lia. }
  rewrite A. unfold JS.substring. cbn [skipn]. rewrite Nat.sub_0_r.
  rewrite firstn_app, firstn_all, Nat.sub_diag. cbn [firstn]. rewrite app_nil_r.
  rewrite skipn_app, skipn_all, Nat.sub_diag. cbn [skipn app].
  rewrite length_app, Nat.add_comm, Nat.add_sub, firstn_all.
  reflexivity.
Qed.

End HostPort.

(** X10. A host that holds a dot and no colon is returned with port 0, and
    with the port that follows its colon when the port is a number in
    decimal. *)
Theorem splitHostPort_dotted_host (h : str) (p : Z) :
  In "."%char h -> ~ In ":"%char h -> 0 <= p < 2 ^ 53 ->
  splitHostPort h = Ok (h, JS.Num 0) /\
  splitHostPort (h ++ ":"%char :: dec p) = Ok (h, JS.Num p).
Proof.
  intros D C Hp. unfold splitHostPort. split.
  - rewrite (proj2 (has_In "." h) D), split_single by assumption. reflexivity.
  - assert (H : has "." (h ++ ":"%char :: dec p) = true).
    { apply has_In. apply in_or_app. now left. }
    rewrite H, split_app, split_single by (try apply dec_no_colon; tauto || lia).
    cbn [length Nat.eqb nth]. now rewrite parseInt_dec_all by lia.
Qed.

Lemma splitHostPort_dotted_host_8080 :
  splitHostPort (lit "192.168.2.1") = Ok (lit "192.168.2.1", JS.Num 0) /\
  splitHostPort (lit "192.168.2.1:8080") = Ok (lit "192.168.2.1", JS.Num 8080).
Proof.
  apply (splitHostPort_dotted_host (lit "192.168.2.1") 8080).
  - simpl. tauto.
  - simpl. intuition discriminate.
  - lia.
Defined.

(** X11. A host between brackets, without a dot and without a closing bracket
    inside, is returned with its brackets: with port 0 when nothing
    follows or only a colon follows, and with the port that follows the
    colon when the port is a number in decimal. *)
Theorem splitHostPort_bracketed_host (x : str) (p : Z) :
  ~ In "."%char x -> ~ In "]"%char x -> 0 <= p < 2 ^ 53 ->
  splitHostPort (bracketed x) = Ok (bracketed x, JS.Num 0) /\
  splitHostPort (bracketed x ++ [":"%char]) = Ok (bracketed x, JS.Num 0) /\
  splitHostPort (bracketed x ++ ":"%char :: dec p) = Ok (bracketed x, JS.Num p).
Proof.
  intros D B Hp. split; [|split].
  - rewrite <- (app_nil_r (bracketed x)) at 1.
    rewrite splitHostPort_after_bracket by (simpl; tauto). reflexivity.
  - rewrite splitHostPort_after_bracket; [reflexivity|assumption..|].
    simpl. intuition discriminate.
  - rewrite splitHostPort_after_bracket; try assumption.
    + cbn [length Nat.eqb JS.split]. rewrite Ascii.eqb_refl.
      rewrite split_single by (apply dec_no_colon; lia).
      cbn [length Nat.eqb nth]. cbv zeta.
      pose proof (dec_nonempty p ltac:(lia)) as L.
      pose proof (parseInt_dec_all p ltac:(lia)) as E.
      destruct (dec p); [simpl in L; lia|]. now rewrite E.
    + intros [I|I]; [discriminate|]. revert I. apply dec_no_dot. lia.
Qed.

Lemma splitHostPort_bracketed_host_443 :
  splitHostPort (lit "[2607:f8b0:4009:805::200e]")
    = Ok (lit "[2607:f8b0:4009:805::200e]", JS.Num 0) /\
  splitHostPort (lit "[2607:f8b0:4009:805::200e]:")
    = Ok (lit "[2607:f8b0:4009:805::200e]", JS.Num 0) /\
  splitHostPort (lit "[2607:f8b0:4009:805::200e]:443")
    = Ok (lit "[2607:f8b0:4009:805::200e]", JS.Num 443).
Proof.
  apply (splitHostPort_bracketed_host (lit "2607:f8b0:4009:805::200e") 443).
  - simpl. intuition discriminate.
  - simpl. intuition discriminate.
  - lia.
Defined.

(** ** Texts that denote the same address *)

Section SameAddress.

Lemma group_value_range (g : str) : hex_group g -> hextet (group_value g).
Proof.
  intros H. destruct (pad4_group g H) as [[L X] <-].
  destruct (from_hex_spec 2 (pad4 g) L X) as (Lb & Ob & V).
  unfold group_value. rewrite <- V.
  pose proof (be_value_range _ Ob) as R. rewrite Lb in R. exact R.
Qed.

Lemma map_value_range (gs : list str) :
  Forall hex_group gs -> Forall hextet (map group_value gs).
Proof.
  intros H. apply Forall_map. revert H. apply Forall_impl.
  exact group_value_range.
Qed.

Lemma zero_group : hex_group ["0"%char] /\ group_value ["0"%char] = 0.
Proof. repeat split; simpl; lia. Qed.

Lemma zero_groups (n : nat) :
  Forall hex_group (@repeat str ["0"%char] n) /\
  map group_value (@repeat str ["0"%char] n) = repeat 0 n.
Proof.
  induction n as [|n [F M]]; [split; [constructor|reflexivity]|].
  cbn [repeat map]. rewrite M. split; [|reflexivity].
  constructor; [apply zero_group|assumption].
Qed.

Lemma be_value_hextets (gs : list Z) (acc : Z) :
  be_value (flat_map hextet_bytes gs) acc = groups_number gs acc.
Proof.
  revert acc. induction gs as [|g gs IH]; intros acc; [reflexivity|].
  cbn [flat_map hextet_bytes app be_value groups_number fold_left].
  rewrite IH. unfold groups_number. f_equal.
  pose proof (Z.div_mod g 256 ltac:(lia)). lia.
Qed.

End SameAddress.

(** X12. [parse] reads an IPv6 text of eight groups by the values of the
    groups: two texts whose groups have the same values, whatever the
    case of the letters and the leading zeros, give the same address. *)
Theorem parse_by_group_values (gs1 gs2 : list str) :
  length gs1 = 8%nat -> Forall hex_group gs1 -> Forall hex_group gs2 ->
  map group_value gs1 = map group_value gs2 ->
  parse (JS.join [":"%char] gs1) = parse (JS.join [":"%char] gs2).
Proof.
  intros L1 H1 H2 E.
  assert (L2 : length gs2 = 8%nat).
  { rewrite <- (length_map group_value), <- E, length_map. exact L1. }
  destruct (parse_full gs1 L1 H1) as (v1 & P1 & V1).
  destruct (parse_full gs2 L2 H2) as (v2 & P2 & V2).
  cbv zeta in *. rewrite P1, P2. rewrite <- E in *.
  now rewrite (bool_iff _ _ _ V1 V2).
Qed.

Lemma parse_by_group_values_example :
  parse (lit "FE80:0000:0000:0000:0000:0000:0000:0001")
  = parse (lit "fe80:0:0:0:0:0:0:1").
Proof.
  apply (parse_by_group_values
           [lit "FE80"; lit "0000"; lit "0000"; lit "0000";
            lit "0000"; lit "0000"; lit "0000"; lit "0001"]
           [lit "fe80"; lit "0"; lit "0"; lit "0";
            lit "0"; lit "0"; lit "0"; lit "1"]).
  - reflexivity.
  - repeat constructor; simpl; lia.
  - repeat constructor; simpl; lia.
  - reflexivity.
Defined.

(** X13. [::] stands for the zero groups that are missing: a text with [::]
    followed by a group gives the same address as the text of eight
    groups with a [0] for each missing group. *)
Theorem parse_elision_is_zero_groups (pre post : list str) :
  Forall hex_group pre -> Forall hex_group post -> post <> [] ->
  (length pre + length post <= 7)%nat ->
  parse (JS.join [":"%char] pre ++ lit "::" ++ JS.join [":"%char] post)
  = parse (JS.join [":"%char]
             (pre ++ repeat ["0"%char] (8 - length pre - length post) ++ post)).
Proof.
  intros Hpre Hpost Np L.
  destruct (parse_elided pre post Hpre Hpost Np L) as (v1 & P1 & V1).
  set (n := (8 - length pre - length post)%nat) in *.
  destruct (zero_groups n) as [Fz Mz].
  destruct (parse_full (pre ++ repeat ["0"%char] n ++ post)) as (v2 & P2 & V2).
  - rewrite !length_app, repeat_length. subst n. unfold str in *. lia.
  - apply Forall_app. split; [assumption|]. apply Forall_app. now split.
  - cbv zeta in *. unfold str in *. rewrite !map_app, Mz in P2, V2.
    rewrite P1, P2. now rewrite (bool_iff _ _ _ V1 V2).
Qed.

Lemma parse_elision_is_zero_groups_example :
  parse (lit "2607:f8b0:4009:805::200e")
  = parse (lit "2607:f8b0:4009:805:0:0:0:200e").
Proof.
  apply (parse_elision_is_zero_groups
           [lit "2607"; lit "f8b0"; lit "4009"; lit "805"] [lit "200e"]).
  - repeat constructor; simpl; lia.
  - repeat constructor; simpl; lia.
  - discriminate.
  - simpl. lia.
Defined.

(** X14. [toString] after [parse] writes the normal form of an IPv6 text of
    eight groups outside the mapped prefix: ['expanded'] gives the eight
    group values in lower-case hex without leading zeros, the default
    form leaves out the leftmost longest run of two or more zero groups
    (and nothing without such a run), and [decimal] is the number that
    the eight values denote in base 65536. *)
Theorem toString_normal_form (gs : list str) :
  length gs = 8%nat -> Forall hex_group gs ->
  let vs := map group_value gs in
  firstn 6 vs <> [0; 0; 0; 0; 0; 65535] ->
  exists ip,
    parse (JS.join [":"%char] gs) = Ok ip /\
    m_isV4 ip = false /\ hextets (m_bytes ip) = vs /\
    toString ip Expanded = Ok (colons vs) /\
    ((forall i, ~ zero_run vs i 2) -> toString ip Default = Ok (colons vs)) /\
    (forall pre k post,
       elision vs pre k post ->
       toString ip Default = Ok (colons pre ++ marker pre post ++ colons post)) /\
    decimal ip = Ok (groups_number vs 0).
Proof.
  intros L H vs M.
  destruct (parse_full gs L H) as (v4 & P & V). fold vs in P, V.
  assert (Lv : length vs = 8%nat) by (unfold vs; now rewrite length_map).
  pose proof (map_value_range gs H) as R. fold vs in R.
  pose proof (not_v4 vs M v4 V) as ->.
  destruct (formats_of_bytes vs Lv R M false V) as (F1 & F2 & F3).
  eexists. split; [exact P|]. cbn [m_isV4 m_bytes].
  repeat split; try assumption.
  - apply hextets_bytes.
  - rewrite decimal_value by (cbn [m_bytes]; now apply hextet_bytes_octets).
    cbn [m_isV4 m_bytes]. now rewrite be_value_hextets.
Qed.

Lemma toString_normal_form_example :
  exists ip,
    parse (lit "FE80:0000:0000:0000:0202:B3FF:FE1E:8329") = Ok ip /\
    m_isV4 ip = false /\
    hextets (m_bytes ip) = [65152; 0; 0; 0; 514; 46079; 65054; 33577] /\
    toString ip Expanded = Ok (lit "fe80:0:0:0:202:b3ff:fe1e:8329") /\
    ((forall i, ~ zero_run [65152; 0; 0; 0; 514; 46079; 65054; 33577] i 2) ->
     toString ip Default = Ok (lit "fe80:0:0:0:202:b3ff:fe1e:8329")) /\
    (forall pre k post,
       elision [65152; 0; 0; 0; 514; 46079; 65054; 33577] pre k post ->
       toString ip Default = Ok (colons pre ++ marker pre post ++ colons post)) /\
    decimal ip = Ok 338288524927261089654163772891438416681.
Proof.
  apply (toString_normal_form
           [lit "FE80"; lit "0000"; lit "0000"; lit "0000";
            lit "0202"; lit "B3FF"; lit "FE1E"; lit "8329"]).
  - reflexivity.
  - repeat constructor; simpl; lia.
  - discriminate.
Defined.

(** ** Texts that [parse] takes for IPv4 *)

Section Loose.

Lemma test_app (at_head : str -> bool) (u s : str) :
  Re.test at_head s = true -> Re.test at_head (u ++ s) = true.
Proof.
  intros H. induction u as [|c u IH]; [exact H|].
  cbn [app Re.test]. rewrite IH. apply orb_true_r.
Qed.

Lemma dotted_app (a b c d : Z) (v : str) :
  dotted a b c d ++ v =
  dec a ++ "."%char :: dec b ++ "."%char :: dec c ++ "."%char :: dec d ++ v.
Proof.
  rewrite dotted_unfold.
  repeat (rewrite <- app_assoc; cbn [app]). reflexivity.
Qed.

Lemma strip_brackets_cases (s : str) :
  strip_brackets s = s \/
  exists t, s = "["%char :: t ++ ["]"%char] /\ strip_brackets s = t.
Proof.
  destruct s as [|c r]; [now left|].
  destruct (Ascii.eqb_spec c "[") as [->|N].
  - destruct (Ascii.eqb_spec (last ("["%char :: r) " "%char) "]") as [E|N].
    + right. destruct r as [|x r'] using rev_ind; [discriminate E|].
      change ("["%char :: r' ++ [x]) with (("["%char :: r') ++ [x]) in E.
      rewrite last_last in E. subst x.
      exists r'. split; [reflexivity|apply strip_brackets_inside].
    + left. unfold strip_brackets.
      destruct (Ascii.eqb_spec (last ("["%char :: r) " "%char) "]");
        [contradiction|]. now rewrite andb_false_r.
  - left. unfold strip_brackets.
    destruct (Ascii.eqb_spec c "["); [contradiction|reflexivity].
Qed.

Lemma dec_last (n : Z) :
  0 <= n -> exists body x, dec n = body ++ [x] /\ JS.is_digit x = true.
Proof.
  intros H. pose proof (dec_digits n H) as D. pose proof (dec_nonempty n H) as L.
  destruct (dec n) as [|x body] using rev_ind; [simpl in L; lia|].
  rewrite forallb_app in D. apply andb_true_iff in D. destruct D as [_ D].
  cbn [forallb] in D. rewrite andb_true_r in D. now exists body, x.
Qed.

Lemma parse_v4_shape (s : str) :
  isIPv4 (strip_brackets s) = true ->
  parse s = Ok {| m_bytes := v4StringToBuffer (strip_brackets s);
                  m_isV4 := true; m_zone := None |}.
Proof.
  intros H. unfold parse. cbv zeta. rewrite H.
  destruct (JS.str_eqb _ _) eqn:E; [|reflexivity].
  apply str_eqb_eq in E. rewrite E in H. discriminate H.
Qed.

Lemma map_parseInt_dec (ns : list Z) :
  Forall (fun n => 0 <= n) ns ->
  map (fun octet => JS.parseInt octet 10) (map dec ns) = map JS.Num ns.
Proof.
  induction 1 as [|n ns Hn _ IH]; [reflexivity|].
  cbn [map]. now rewrite IH, parseInt_dec_all.
Qed.

Section Shape4.

Variables a b c d : Z.
Hypothesis a_range : 0 <= a < 1000.
Hypothesis b_range : 0 <= b < 1000.
Hypothesis c_range : 0 <= c < 1000.
Hypothesis d_range : 0 <= d < 1000.

Lemma v4_shape_dotted (v : str) : Re.v4_shape_at (dotted a b c d ++ v) = true.
Proof.
  rewrite dotted_app. unfold Re.v4_shape_at.
  apply digits_then_app; [apply dec_digits; lia|now apply dec_three|].
  cbn [Re.dot_then]. rewrite Ascii.eqb_refl. cbn [andb].
  apply digits_then_app; [apply dec_digits; lia|now apply dec_three|].
  cbn [Re.dot_then]. rewrite Ascii.eqb_refl. cbn [andb].
  apply digits_then_app; [apply dec_digits; lia|now apply dec_three|].
  cbn [Re.dot_then]. rewrite Ascii.eqb_refl. cbn [andb].
  apply digits_then_app; [apply dec_digits; lia|now apply dec_three|].
  reflexivity.
Qed.

Lemma isIPv4_anywhere (u v : str) : isIPv4 (u ++ dotted a b c d ++ v) = true.
Proof.
  unfold isIPv4. apply test_app, test_at_head, v4_shape_dotted.
Qed.

Lemma isIPv4_stripped (u v : str) :
  isIPv4 (strip_brackets (u ++ dotted a b c d ++ v)) = true.
Proof.
  destruct (strip_brackets_cases (u ++ dotted a b c d ++ v)) as [->|(t & E & ->)];
    [apply isIPv4_anywhere|].
  destruct u as [|x u].
  - exfalso. cbn [app] in E. rewrite dotted_app in E.
    destruct (dec_head a ("."%char :: dec b ++ "."%char :: dec c ++ "."%char
                          :: dec d ++ v) ltac:(lia)) as (y & r & H & D).
    rewrite H in E. injection E as -> _. discriminate D.
  - cbn [app] in E. injection E as -> E.
    destruct v as [|y v'] using rev_ind.
    + exfalso. rewrite app_nil_r, dotted_unfold in E.
      destruct (dec_last d ltac:(lia)) as (body & y & H & D). rewrite H in E.
      change (dec a ++ "."%char :: dec b ++ "."%char :: dec c
                ++ "."%char :: body ++ [y])
        with (dec a ++ ("."%char :: dec b) ++ ("."%char :: dec c)
                ++ ("."%char :: body) ++ [y]) in E.
      rewrite !app_assoc in E. apply app_inj_tail in E.
      destruct E as [_ ->]. discriminate D.
    + rewrite !app_assoc in E. apply app_inj_tail in E. destruct E as [<- _].
      rewrite <- app_assoc. apply isIPv4_anywhere.
Qed.

Lemma parse_numbers (more : list Z) :
  Forall (fun n => 0 <= n) more ->
  parse (JS.join ["."%char] (map dec (a :: b :: c :: d :: more))) =
  Ok {| m_bytes := v4_buffer (a mod 256) (b mod 256) (c mod 256) (d mod 256);
        m_isV4 := true; m_zone := None |}.
Proof.
  intros Hm.
  assert (F : Forall (fun n => 0 <= n) (a :: b :: c :: d :: more))
    by (repeat (constructor; [lia|]); assumption).
  set (text := JS.join ["."%char] (map dec (a :: b :: c :: d :: more))).
  assert (E : text = dotted a b c d
                ++ match map dec more with
                   | [] => []
                   | _ :: _ => ["."%char] ++ JS.join ["."%char] (map dec more)
                   end).
  { unfold text, dotted.
    change (map dec (a :: b :: c :: d :: more))
      with (map dec [a; b; c; d] ++ map dec more).
    apply join_app. discriminate. }
  assert (S : strip_brackets text = text).
  { rewrite E, dotted_app.
    match goal with
    | |- context [dec a ++ ?r] =>
        destruct (dec_head a r ltac:(lia)) as (x & t & -> & D)
    end.
    unfold strip_brackets.
    destruct (Ascii.eqb_spec x "[") as [->|_]; [discriminate D|reflexivity]. }
  rewrite parse_v4_shape; rewrite S.
  - do 2 f_equal. unfold v4StringToBuffer. cbv zeta. unfold text.
    rewrite split_join.
    + rewrite map_parseInt_dec by assumption. reflexivity.
    + discriminate.
    + apply Forall_map. revert F. apply Forall_impl. intros n Hn.
      now apply dec_no_dot.
  - rewrite E, <- (app_nil_l (dotted a b c d ++ _)). apply isIPv4_anywhere.
Qed.

End Shape4.

End Loose.

(** X15. [parse] checks neither the range nor the count of the numbers of a
    dotted text: four numbers of one to three digits, alone or followed
    by more numbers, give an IPv4 address whose last four octets are the
    first four numbers modulo 256. *)
Theorem parse_dotted_modulo (a b c d : Z) (more : list Z) :
  0 <= a < 1000 -> 0 <= b < 1000 -> 0 <= c < 1000 -> 0 <= d < 1000 ->
  Forall (fun n => 0 <= n) more ->
  parse (JS.join ["."%char] (map dec (a :: b :: c :: d :: more))) =
  Ok {| m_bytes := mappedV4Prefix ++ [a mod 256; b mod 256; c mod 256; d mod 256];
        m_isV4 := true; m_zone := None |}.
Proof. intros. now apply parse_numbers. Qed.

Lemma parse_dotted_modulo_256 :
  parse (lit "256.300.1.999.7") =
  Ok {| m_bytes := mappedV4Prefix ++ [0; 44; 1; 231];
        m_isV4 := true; m_zone := None |}.
Proof.
  apply (parse_dotted_modulo 256 300 1 999 [7]); try lia.
  repeat constructor. lia.
Defined.

(** X16. The test for IPv4 has no anchors: a text that holds four numbers of
    one to three digits with dots between them, whatever stands before
    and after, is parsed without an error into an IPv4 address of
    sixteen octets with the mapped prefix and no zone. *)
Theorem parse_dotted_anywhere (a b c d : Z) (u v : str) :
  0 <= a < 1000 -> 0 <= b < 1000 -> 0 <= c < 1000 -> 0 <= d < 1000 ->
  exists ip,
    parse (u ++ dotted a b c d ++ v) = Ok ip /\
    m_isV4 ip = true /\ m_zone ip = None /\
    length (m_bytes ip) = 16%nat /\
    firstn 12 (m_bytes ip) = mappedV4Prefix.
Proof.
  intros Ha Hb Hc Hd. eexists. split.
  - apply parse_v4_shape. now apply isIPv4_stripped.
  - cbn [m_isV4 m_zone m_bytes]. repeat split.
    apply v4StringToBuffer_length.
Qed.

Lemma parse_dotted_anywhere_example :
  exists ip,
    parse (lit "host 10.0.0.1/8") = Ok ip /\
    m_isV4 ip = true /\ m_zone ip = None /\
    length (m_bytes ip) = 16%nat /\
    firstn 12 (m_bytes ip) = mappedV4Prefix.
Proof.
  apply (parse_dotted_anywhere 10 0 0 1 (lit "host ") (lit "/8")); lia.
Defined.

(** ** The text that [expandV6] makes *)

Section Expanded.

Lemma padded_group (g : str) : padded g -> hex_group g /\ pad4 g = g.
Proof.
  intros [L H]. split; [split; [lia|assumption]|].
  unfold pad4, JS.padStart. now rewrite L.
Qed.

Lemma map_pad4_id (P : list str) : Forall padded P -> map pad4 P = P.
Proof.
  induction 1 as [|g P Hg _ IH]; [reflexivity|].
  cbn [map]. rewrite IH. f_equal. now apply padded_group.
Qed.

Lemma padded_groups (P : list str) : Forall padded P -> Forall hex_group P.
Proof. apply Forall_impl. intros g Hg. now apply padded_group. Qed.

Lemma join_padded_length (P : list str) :
  Forall padded P -> P <> [] ->
  (length (JS.join [":"%char] P) + 1 = 5 * length P)%nat.
Proof.
  induction 1 as [|g P [Lg _] HP IH]; intros N; [congruence|].
  rewrite join_cons_tail, length_app, Lg. destruct P as [|g' P].
  - simpl. lia.
  - rewrite length_app. cbn [length] in *.
    specialize (IH ltac:(discriminate)). lia.
Qed.

Lemma repeat_padded (n : nat) : Forall padded (repeat Z4 n).
Proof.
  induction n as [|n IH]; [constructor|].
  cbn [repeat]. constructor; [apply Z4_padded|assumption].
Qed.

Lemma expandV6_groups (a : str) :
  v6_text a ->
  exists P,
    expandV6 a = JS.join [":"%char] P /\ length P = 8%nat /\ Forall padded P.
Proof.
  intros [gs L H|pre post Hpre Hpost Np L].
  - exists (map pad4 gs). rewrite expandV6_full.
    + repeat split; [now rewrite length_map|now apply map_pad4_padded].
    + destruct gs; [discriminate|congruence].
    + assumption.
  - exists (map pad4 pre ++ repeat Z4 (8 - length pre - length post)
            ++ map pad4 post).
    rewrite expandV6_elided by assumption. repeat split.
    + rewrite !length_app, repeat_length, !length_map. unfold str in *. lia.
    + apply Forall_app. split; [now apply map_pad4_padded|].
      apply Forall_app. split; [apply repeat_padded|now apply map_pad4_padded].
Qed.

End Expanded.

(** X17. [expandV6] turns every IPv6 text into eight groups of four hex
    digits with colons between them, 39 characters, and leaves such a
    text as it is. *)
Theorem expandV6_eight_groups (a : str) :
  v6_text a ->
  exists P,
    expandV6 a = JS.join [":"%char] P /\
    length P = 8%nat /\ Forall padded P /\
    length (expandV6 a) = 39%nat /\
    expandV6 (expandV6 a) = expandV6 a.
Proof.
  intros H. destruct (expandV6_groups a H) as (P & E & L & F).
  assert (N : P <> []) by (destruct P; [discriminate|congruence]).
  exists P. rewrite E. repeat split; try assumption.
  - pose proof (join_padded_length P F N) as X. rewrite L in X. lia.
  - rewrite expandV6_full by (try apply padded_groups; assumption).
    now rewrite map_pad4_id.
Qed.

Lemma expandV6_eight_groups_loopback :
  exists P,
    expandV6 (lit "::1") = JS.join [":"%char] P /\
    length P = 8%nat /\ Forall padded P /\
    length (expandV6 (lit "::1")) = 39%nat /\
    expandV6 (expandV6 (lit "::1")) = expandV6 (lit "::1").
Proof.
  apply (expandV6_eight_groups (lit "::1")).
  apply (v6_elided [] [lit "1"]).
  - constructor.
  - repeat constructor; simpl; lia.
  - discriminate.
  - simpl. lia.
Defined.

(** X18. [decimal] never throws on a buffer of sixteen octets: it gives a
    number below 2^128, and below 2^32 for an IPv4 address. *)
Theorem decimal_range (ip : IP) :
  length (m_bytes ip) = 16%nat -> Forall octet (m_bytes ip) ->
  exists n,
    decimal ip = Ok n /\ 0 <= n < 2 ^ 128 /\
    (m_isV4 ip = true -> n < 2 ^ 32).
Proof.
  intros L O. eexists. split; [now apply decimal_value|].
  assert (O4 : Forall octet (skipn 12 (m_bytes ip))).
  { rewrite <- (firstn_skipn 12 (m_bytes ip)) in O. now apply Forall_app in O. }
  pose proof (be_value_range _ O) as R. rewrite L in R.
  pose proof (be_value_range _ O4) as R4. rewrite length_skipn, L in R4.
  change (256 ^ Z.of_nat 16) with (2 ^ 128) in R.
  change (256 ^ Z.of_nat (16 - 12)) with (2 ^ 32) in R4.
  destruct (m_isV4 ip); split; try lia; intros; try discriminate; lia.
Qed.

Lemma decimal_range_example :
  exists n,
    decimal {| m_bytes := mappedV4Prefix ++ [192; 168; 2; 1];
               m_isV4 := true; m_zone := None |} = Ok n /\
    0 <= n < 2 ^ 128 /\ (true = true -> n < 2 ^ 32).
Proof.
  apply (decimal_range {| m_bytes := mappedV4Prefix ++ [192; 168; 2; 1];
                          m_isV4 := true; m_zone := None |}).
  - reflexivity.
  - repeat constructor; unfold octet; simpl; lia.
Defined.

(** ** Texts with the wrong number of groups *)

Section GroupCount.

Lemma v6_chars_no (a : str) (c : ascii) :
  Forall v6_char a -> c = "."%char \/ c = "%"%char -> ~ In c a.
Proof.
  intros H Hc I. rewrite Forall_forall in H. specialize (H c I).
  apply v6_char_cases in H. intuition congruence.
Qed.

Lemma parse_hex_text (a : str) (P : list str) :
  Forall v6_char a -> In ":"%char a -> a <> lit "::" ->
  expandV6 a = JS.join [":"%char] P -> P <> [] -> Forall padded P ->
  exists v4,
    parse a = Ok {| m_bytes := flat_map hextet_bytes (map group_value P);
                    m_isV4 := v4; m_zone := None |} /\
    (v4 = true <->
     firstn 12 (flat_map hextet_bytes (map group_value P)) = mappedV4Prefix).
Proof.
  intros C I N E Hne HP.
  pose proof (v6_chars_no a "%" C ltac:(tauto)) as Npc.
  pose proof (strip_brackets_plain a C) as S.
  destruct (parse_v6_path a) as (bytes & zone & v4 & E1 & E2 & E3);
    rewrite ?S.
  - assumption.
  - apply isIPv4_no_dot. apply (v6_chars_no a "." C). tauto.
  - now apply isIPv6_colon.
  - rewrite split_single by assumption. simpl. lia.
  - rewrite S, v6StringToBuffer_plain, E, buffer_of_groups in E1 by assumption.
    injection E1 as <- <-. now exists v4.
Qed.

Lemma groups_text (g : str) (gs : list str) (t : str) :
  Forall hex_group (g :: gs) ->
  Forall v6_char (JS.join [":"%char] (g :: gs)) /\
  JS.join [":"%char] (g :: gs) ++ t <> lit "::".
Proof.
  intros H. split.
  - apply join_chars; [exact colon_char|now apply hex_group_chars].
  - intros E. rewrite join_cons_tail, <- app_assoc in E.
    inversion H as [|? ? Hg _]; subst.
    match type of E with
    | g ++ ?r = _ => destruct (group_head g r Hg) as (c & r' & Q & Hc)
    end.
    rewrite Q in E. injection E as -> _. discriminate.
Qed.

Lemma expandV6_trailing (pre : list str) :
  Forall hex_group pre -> pre <> [] ->
  expandV6 (JS.join [":"%char] pre ++ lit "::")
  = JS.join [":"%char]
      (map pad4 pre ++ repeat Z4 (7 - length pre) ++ repeat Z4 (7 - length pre)).
Proof.
  intros Hpre Hne. rewrite expandV6_unfold. cbv zeta.
  pose proof (groups_no_colon' pre Hpre) as Npre.
  assert (E : JS.join [":"%char] pre ++ lit "::"
              = JS.join [":"%char] (pre ++ [[]; []])).
  { rewrite join_gap, concat_colons by assumption.
    now rewrite <- app_assoc. }
  rewrite E. rewrite split_join.
  2:{ destruct pre; [congruence|discriminate]. }
  2:{ apply Forall_app. split; [assumption|].
      repeat constructor; simpl; tauto. }
  destruct pre as [|p pre]; [congruence|].
  change ((p :: pre) ++ [[]; []]) with (p :: (pre ++ [[]; []])).
  rewrite not_elided_at_head by now inversion Hpre.
  change (p :: (pre ++ [[]; []])) with ((p :: pre) ++ [[]; []]).
  rewrite flat_map_app, (expand_groups _ (p :: pre) Hpre).
  match goal with
  | |- context [flat_map ?F [[]; []]] =>
      change (flat_map F [[]; []]) with (F [] ++ F [] ++ [])
  end.
  unfold expand_one. cbn [length Nat.eqb negb]. rewrite app_nil_r.
  fold Z4. rewrite length_app. cbn [length].
  replace (Z.to_nat (8 - Z.of_nat (S (length pre) + 2) + 1))
    with (7 - S (length pre))%nat by lia.
  reflexivity.
Qed.

End GroupCount.

(** X19. [parse] does not count the groups of an IPv6 text: two or more
    groups of one to four hex digits with colons between them, and no
    [::], give a buffer of two octets for each group, sixteen only for
    eight groups. *)
Theorem parse_any_group_count (gs : list str) :
  (2 <= length gs)%nat -> Forall hex_group gs ->
  exists ip,
    parse (JS.join [":"%char] gs) = Ok ip /\
    m_zone ip = None /\
    m_bytes ip = flat_map hextet_bytes (map group_value gs) /\
    length (m_bytes ip) = (2 * length gs)%nat.
Proof.
  intros L H. destruct gs as [|g [|g' gs]]; try (simpl in L; lia).
  destruct (groups_text g (g' :: gs) [] H) as [C N]. rewrite app_nil_r in N.
  destruct (parse_hex_text (JS.join [":"%char] (g :: g' :: gs))
              (map pad4 (g :: g' :: gs))) as (v4 & P & _); try assumption.
  - rewrite join_cons_tail. apply in_or_app. right. now left.
  - now apply expandV6_full.
  - discriminate.
  - now apply map_pad4_padded.
  - rewrite map_value_pad4 in P by assumption.
    eexists. split; [exact P|]. cbn [m_zone m_bytes]. repeat split.
    now rewrite hextet_bytes_length, length_map.
Qed.

Lemma parse_any_group_count_nine :
  exists ip,
    parse (lit "1:2:3:4:5:6:7:8:9") = Ok ip /\
    m_zone ip = None /\
    m_bytes ip = [0; 1; 0; 2; 0; 3; 0; 4; 0; 5; 0; 6; 0; 7; 0; 8; 0; 9] /\
    length (m_bytes ip) = 18%nat.
Proof.
  apply (parse_any_group_count
           [lit "1"; lit "2"; lit "3"; lit "4"; lit "5";
            lit "6"; lit "7"; lit "8"; lit "9"]).
  - simpl. lia.
  - repeat constructor; simpl; lia.
Defined.

(** X20. A text that ends in [::] gets the missing zero groups twice: after
    [n] groups, [parse] appends [2 * (7 - n)] zero groups, so that the
    buffer has [28 - 2 * n] octets, sixteen only for six groups. *)
Theorem parse_trailing_elision_count (pre : list str) :
  (1 <= length pre <= 7)%nat -> Forall hex_group pre ->
  exists ip,
    parse (JS.join [":"%char] pre ++ lit "::") = Ok ip /\
    m_zone ip = None /\
    m_bytes ip =
      flat_map hextet_bytes
        (map group_value pre ++ repeat 0 (2 * (7 - length pre))) /\
    length (m_bytes ip) = (28 - 2 * length pre)%nat.
Proof.
  intros L H. destruct pre as [|g pre]; [simpl in L; lia|].
  set (X := g :: pre) in *.
  destruct (groups_text g pre (lit "::") H) as [C N]. fold X in C, N.
  set (n := (7 - length X)%nat).
  destruct (parse_hex_text (JS.join [":"%char] X ++ lit "::")
              (map pad4 X ++ repeat Z4 n ++ repeat Z4 n)) as (v4 & P & _).
  - apply Forall_app. split; [assumption|].
    constructor; [now right|exact colon_char].
  - apply in_or_app. right. now left.
  - assumption.
  - apply expandV6_trailing; [assumption|discriminate].
  - subst X. discriminate.
  - apply Forall_app. split; [now apply map_pad4_padded|].
    apply Forall_app. split; apply repeat_padded.
  - rewrite !map_app, map_value_pad4, !map_value_zeros, <- repeat_app in P
      by assumption.
    replace (n + n)%nat with (2 * (7 - length X))%nat in P by (subst n; lia).
    eexists. split; [exact P|]. cbn [m_zone m_bytes]. repeat split.
    rewrite hextet_bytes_length, length_app, length_map, repeat_length.
    unfold str in *. lia.
Qed.

Lemma parse_trailing_elision_count_four :
  exists ip,
    parse (lit "2607:f8b0:4009:805::") = Ok ip /\
    m_zone ip = None /\
    m_bytes ip = [38; 7; 248; 176; 64; 9; 8; 5;
                  0; 0; 0; 0; 0; 0; 0; 0; 0; 0; 0; 0] /\
    length (m_bytes ip) = 20%nat.
Proof.
  apply (parse_trailing_elision_count
           [lit "2607"; lit "f8b0"; lit "4009"; lit "805"]).
  - simpl. lia.
  - repeat constructor; simpl; lia.
Defined.

(** ** [fromDecimal] and [parse] build the same addresses *)

(** X21. The 32-bit number of four octets, handed to [fromDecimal], gives the
    address that [parse] builds from the dotted text of the octets. *)
Theorem fromDecimal_dotted (a b c d : Z) :
  octet a -> octet b -> octet c -> octet d ->
  fromDecimal (256 * (256 * (256 * a + b) + c) + d) false
  = parse (dotted a b c d).
Proof.
  intros Ha Hb Hc Hd.
  pose proof (v4_buffer_octets a b c d Ha Hb Hc Hd) as O.
  unfold octet in Ha, Hb, Hc, Hd.
  rewrite parse_dotted by lia. rewrite !Z.mod_small by lia.
  apply (fromDecimal_inverse
           {| m_bytes := v4_buffer a b c d; m_isV4 := true; m_zone := None |});
    try reflexivity; try assumption.
  rewrite decimal_value by assumption. cbn [m_isV4 m_bytes]. f_equal.
Qed.

Lemma fromDecimal_dotted_example :
  fromDecimal 3232236033 false = parse (lit "192.168.2.1").
Proof. apply (fromDecimal_dotted 192 168 2 1); unfold octet; lia. Defined.

(** X22. The number that eight hextets outside the mapped prefix denote in
    base 65536, handed to [fromDecimal] with [forceV6], gives the address
    that [parse] builds from the text of the hextets. *)
Theorem fromDecimal_colons (gs : list Z) :
  length gs = 8%nat -> Forall hextet gs ->
  firstn 6 gs <> [0; 0; 0; 0; 0; 65535] ->
  fromDecimal (groups_number gs 0) true = parse (colons gs).
Proof.
  intros L R M. destruct (parse_colons gs L R M) as [_ ->].
  apply (fromDecimal_inverse
           {| m_bytes := flat_map hextet_bytes gs;
              m_isV4 := false; m_zone := None |}).
  - cbn [m_bytes]. now rewrite hextet_bytes_length, L.
  - now apply hextet_bytes_octets.
  - reflexivity.
  - discriminate.
  - rewrite decimal_value by now apply hextet_bytes_octets.
    cbn [m_isV4 m_bytes]. now rewrite be_value_hextets.
Qed.

Lemma fromDecimal_colons_example :
  fromDecimal (groups_number [9735; 63664; 16393; 2053; 0; 0; 0; 8206] 0) true
  = parse (colons [9735; 63664; 16393; 2053; 0; 0; 0; 8206]).
Proof.
  apply (fromDecimal_colons [9735; 63664; 16393; 2053; 0; 0; 0; 8206]).
  - reflexivity.
  - repeat constructor; unfold hextet; lia.
  - discriminate.
Defined.
